(** * colony.node: ports, workers, nodes and graphs

    A shallow embedding of [colony/node.py].  Sequential code is written in a
    state-and-exception monad over the node it mutates; the threads of an
    asynchronous worker are control points stepped one at a time under an
    arbitrary schedule. *)

From Stdlib Require Import ZArith Lia.
From stdpp Require Import gmap strings list fin_maps.

Local Open Scope Z_scope.
Local Open Scope nat_scope.
Local Set Warnings "-register-all".

(** ** Python values, exceptions and call outcomes *)

(** The payloads that travel through ports: [None], integers and lists. *)
Inductive value : Type :=
| VNone
| VInt (z : Z)
| VList (elems : list value).

Inductive exn : Type :=
| TypeError (msg : string)
| ValueError (msg : string)
| IndexError (msg : string)
| KeyError (key : string)
| AttributeError (msg : string)
| AssertionError
| Exception (msg : string).

(** [str(e)] *)
Definition str (e : exn) : string :=
  match e with
  | TypeError m | ValueError m | IndexError m | AttributeError m | Exception m => m
  | KeyError k => k
  | AssertionError => ""
  end.

(** [traceback.format_exc()] while [e] is being handled. *)
Definition format_exc (e : exn) : string :=
  "Traceback (most recent call last): " +:+ str e.

Inductive result (A : Type) : Type :=
| Ok (a : A)
| Raise (e : exn).
Arguments Ok {A} a.
Arguments Raise {A} e.

(** A work target is called with positional and keyword arguments and either
    returns a value or raises.  Targets are modelled as deterministic
    functions of their arguments. *)
Definition callable : Type := list value → gmap string value → result value.

(** What [FunctionInfo] reports about a function: the number of positional
    parameters and the keyword parameters with their defaults.  The
    introspection helper itself lives in [colony.utils.function_info]; its
    answer is carried with the function. *)
Record FunctionInfo := {
  num_args : Z;
  kwargs : list (string * value) }.

Record pyfunc := {
  fn_call : callable;
  fn_info : FunctionInfo }.

(** A target class: the signature of its unbound [execute] (which counts
    [self]) and the bound [execute] of a fresh instance. *)
Record pyclass := {
  execute_info : FunctionInfo;
  instantiate : list value → gmap string value → callable }.

(** ** Python list indexing *)

(** The position addressed by index [i] in a list of length [len]; negative
    indices count from the end; [None] when out of range. *)
Definition py_index (len : nat) (i : Z) : option nat :=
  if decide (0 ≤ i < Z.of_nat len)%Z then Some (Z.to_nat i)
  else if decide (- Z.of_nat len ≤ i < 0)%Z then Some (Z.to_nat (Z.of_nat len + i))
  else None.

(** [l[i] = x] *)
Definition list_setitem {A} (l : list A) (i : Z) (x : A) : result (list A) :=
  match py_index (length l) i with
  | Some p => Ok (<[p := x]> l)
  | None => Raise (IndexError "list assignment index out of range")
  end.

(** [l[i]] *)
Definition list_getitem {A} (l : list A) (i : Z) : result A :=
  match py_index (length l) i ≫= (l !!.) with
  | Some x => Ok x
  | None => Raise (IndexError "list index out of range")
  end.

(** ** Queues *)

Inductive queue_class := Queue | JoinableQueue.

(** What sits on a queue: a [PoisonPill] or an ordinary item. *)
Inductive qitem (A : Type) : Type :=
| PoisonPill
| Item (a : A).
Arguments PoisonPill {A}.
Arguments Item {A} a.

(** A joinable FIFO: its content and the count of items put but not yet
    acknowledged with [task_done]. *)
Record jqueue (A : Type) := {
  qclass : queue_class;
  qitems : list (qitem A);
  unfinished_tasks : nat }.
Arguments qclass {A} _.
Arguments qitems {A} _.
Arguments unfinished_tasks {A} _.

Module JQ.
Definition new {A} (c : queue_class) : jqueue A :=
  {| qclass := c; qitems := []; unfinished_tasks := 0 |}.

Definition put {A} (x : qitem A) (q : jqueue A) : jqueue A :=
  {| qclass := qclass q; qitems := qitems q ++ [x];
     unfinished_tasks := S (unfinished_tasks q) |}.

(** [get] blocks on an empty queue: [None]. *)
Definition get {A} (q : jqueue A) : option (qitem A * jqueue A) :=
  match qitems q with
  | [] => None
  | x :: rest =>
      Some (x, {| qclass := qclass q; qitems := rest;
                  unfinished_tasks := unfinished_tasks q |})
  end.

Definition task_done {A} (q : jqueue A) : result (jqueue A) :=
  match unfinished_tasks q with
  | 0 => Raise (ValueError "task_done() called too many times")
  | S u => Ok {| qclass := qclass q; qitems := qitems q; unfinished_tasks := u |}
  end.

(** [join] returns once nothing is unfinished. *)
Definition joined {A} (q : jqueue A) : bool :=
  bool_decide (unfinished_tasks q = 0).
End JQ.

(** ** Ports *)

Inductive InputPort : Type :=
| ArgInputPort (idx : option Z)
| MappingArgInputPort (idx : option Z)
| BatchArgInputPort (batch_size : Z) (idx : option Z)
| KwargInputPort (kwarg : string).

(** [isinstance(p, ArgInputPort)] *)
Definition is_ArgInputPort (p : InputPort) : bool :=
  match p with
  | KwargInputPort _ => false
  | _ => true
  end.

(** [p.idx = i] on a port that has an index. *)
Definition set_idx (i : Z) (p : InputPort) : InputPort :=
  match p with
  | ArgInputPort _ => ArgInputPort (Some i)
  | MappingArgInputPort _ => MappingArgInputPort (Some i)
  | BatchArgInputPort s _ => BatchArgInputPort s (Some i)
  | KwargInputPort k => KwargInputPort k
  end.

(** A subscriber of an output port, seen from the notifying node: its
    identity and whether its [notify] raises on a given payload. *)
Record Observer := {
  observer_id : nat;
  observer_notify : value → result unit }.

(** ** Workers *)

Inductive async_class_t := Thread | Process.

Record SyncWorker := {
  target : option callable;
  isStarted : bool }.

(** Control points of one execution worker running [_worker]. *)
Inductive worker_pc : Type :=
| WStart                                              (* about to resolve its target *)
| WGet                                                (* at [worker_queue.get()] *)
| WGotPill                                            (* about to acknowledge the pill *)
| WGotPayload (args : list value) (kw : gmap string value)   (* about to call the target *)
| WPutResult (r : value)                              (* about to [result_queue.put(r)] *)
| WTaskDone                                           (* about to [worker_queue.task_done()] *)
| WExited
| WCrashed (e : exn).

Record worker_thread := {
  wt_target : option callable;
  wt_pc : worker_pc }.

(** Control points of the result-draining worker running [_result_handler]. *)
Inductive result_pc : Type :=
| RGet                                                (* at [result_queue.get()] *)
| RGotPill
| RGotResult (r : value)                              (* about to [_handle_result(r)] *)
| RTaskDone
| RExited
| RCrashed (e : exn).

Record AsyncWorker := {
  num_threads : nat;
  async_class : async_class_t;
  worker_queue : option (jqueue (list value * gmap string value));
  result_queue : option (jqueue value);
  worker_threads : option (list worker_thread);
  result_thread : option result_pc }.

Inductive Worker : Type :=
| WSync (w : SyncWorker)
| WAsync (w : AsyncWorker).

(** ** Nodes *)

(** What a node does to its collaborators, in order of occurrence. *)
Inductive event : Type :=
| TargetCalled (args : list value) (kw : gmap string value)
| OutputNotified (data : value)
| ObserverNotified (obs : nat) (data : value)
| LoggedError (msg : string).

Record Node := {
  target_func : option pyfunc;
  target_class : option pyclass;
  target_class_args : list value;
  target_class_kwargs : gmap string value;
  reactive_input_ports : list InputPort;
  reactive_input_values : list value;
  passive_input_ports : gmap string InputPort;
  passive_input_values : gmap string value;
  observers : list Observer;
  name : option string;
  _value : value;
  worker : Worker;
  trace : list event }.

Definition set_reactive_input_values (v : list value) (n : Node) : Node :=
  {| target_func := target_func n; target_class := target_class n;
     target_class_args := target_class_args n;
     target_class_kwargs := target_class_kwargs n;
     reactive_input_ports := reactive_input_ports n;
     reactive_input_values := v;
     passive_input_ports := passive_input_ports n;
     passive_input_values := passive_input_values n;
     observers := observers n; name := name n; _value := _value n;
     worker := worker n; trace := trace n |}.

Definition set_passive_input_values (v : gmap string value) (n : Node) : Node :=
  {| target_func := target_func n; target_class := target_class n;
     target_class_args := target_class_args n;
     target_class_kwargs := target_class_kwargs n;
     reactive_input_ports := reactive_input_ports n;
     reactive_input_values := reactive_input_values n;
     passive_input_ports := passive_input_ports n;
     passive_input_values := v;
     observers := observers n; name := name n; _value := _value n;
     worker := worker n; trace := trace n |}.

Definition set__value (v : value) (n : Node) : Node :=
  {| target_func := target_func n; target_class := target_class n;
     target_class_args := target_class_args n;
     target_class_kwargs := target_class_kwargs n;
     reactive_input_ports := reactive_input_ports n;
     reactive_input_values := reactive_input_values n;
     passive_input_ports := passive_input_ports n;
     passive_input_values := passive_input_values n;
     observers := observers n; name := name n; _value := v;
     worker := worker n; trace := trace n |}.

Definition set_worker (w : Worker) (n : Node) : Node :=
  {| target_func := target_func n; target_class := target_class n;
     target_class_args := target_class_args n;
     target_class_kwargs := target_class_kwargs n;
     reactive_input_ports := reactive_input_ports n;
     reactive_input_values := reactive_input_values n;
     passive_input_ports := passive_input_ports n;
     passive_input_values := passive_input_values n;
     observers := observers n; name := name n; _value := _value n;
     worker := w; trace := trace n |}.

Definition set_trace (tr : list event) (n : Node) : Node :=
  {| target_func := target_func n; target_class := target_class n;
     target_class_args := target_class_args n;
     target_class_kwargs := target_class_kwargs n;
     reactive_input_ports := reactive_input_ports n;
     reactive_input_values := reactive_input_values n;
     passive_input_ports := passive_input_ports n;
     passive_input_values := passive_input_values n;
     observers := observers n; name := name n; _value := _value n;
     worker := worker n; trace := tr |}.

(** The node does [e]. *)
Definition emit (e : event) (n : Node) : Node := set_trace (trace n ++ [e]) n.

(** ** The monad of node methods

    A method runs against the node, may change it, and returns or raises;
    what it changed before raising stays changed. *)
Definition M (A : Type) : Type := Node → result A * Node.

Definition ret {A} (a : A) : M A := λ n, (Ok a, n).
Definition raise {A} (e : exn) : M A := λ n, (Raise e, n).
Definition bind {A B} (m : M A) (k : A → M B) : M B :=
  λ n, match m n with
       | (Ok a, n') => k a n'
       | (Raise e, n') => (Raise e, n')
       end.
Definition lift {A} (r : result A) : M A := λ n, (r, n).
Definition gets {A} (f : Node → A) : M A := λ n, (Ok (f n), n).
Definition modify (f : Node → Node) : M unit := λ n, (Ok tt, f n).
(** [try: m  except Exception as e: h e] *)
Definition try_except {A} (m : M A) (h : exn → M A) : M A :=
  λ n, match m n with
       | (Ok a, n') => (Ok a, n')
       | (Raise e, n') => h e n'
       end.
(** [for x in xs: body x] *)
Fixpoint for_each {A} (xs : list A) (body : A → M unit) : M unit :=
  match xs with
  | [] => ret tt
  | x :: rest => bind (body x) (λ _, for_each rest body)
  end.

Notation "x <~ m ;; k" := (bind m (λ x, k))
  (at level 100, m at next level, right associativity).
Notation "m ;;; k" := (bind m (λ _, k))
  (at level 100, right associativity).

(** [self.logger.error(msg)] *)
Definition log_error (msg : string) : M unit := modify (emit (LoggedError msg)).

(** [Node.get_value] and [Node.set_value], the in-memory versions. *)
Definition get_value : M value := gets _value.
Definition set_value (v : value) : M unit := modify (set__value v).

(** ** Output port *)

Module OutputPort.
(** Modelled from the spec: [Observable.notify_observers] of
    [colony.observer], which is not among the sources. "notify(data)
    synchronously invokes every registered subscriber's notify(data), in
    registration order, on the caller's thread". *)
Fixpoint notify_observers (obs : list Observer) (data : value) : M unit :=
  match obs with
  | [] => ret tt
  | o :: rest =>
      modify (emit (ObserverNotified (observer_id o) data)) ;;;
      lift (observer_notify o data) ;;;
      notify_observers rest data
  end.

Definition notify (data : value) : M unit :=
  modify (emit (OutputNotified data)) ;;;
  obs <~ gets observers ;;
  notify_observers obs data.
End OutputPort.

(** ** Worker base class *)

Module Worker.
Definition _handle_result (r : value) : M unit :=
  set_value r ;;;
  OutputPort.notify r.

Definition _get_target_func : M callable :=
  tf <~ gets target_func ;;
  match tf with
  | Some f => ret (fn_call f)
  | None =>
      tc <~ gets target_class ;;
      match tc with
      | Some c =>
          a <~ gets target_class_args ;;
          k <~ gets target_class_kwargs ;;
          ret (instantiate c a k)
      | None => raise (TypeError "'NoneType' object is not callable")
      end
  end.

(** Calling [target] with the given arguments; [target] may still be [None]. *)
Definition call (target : option callable) (args : list value)
    (kw : gmap string value) : M value :=
  match target with
  | Some f => modify (emit (TargetCalled args kw)) ;;; lift (f args kw)
  | None => raise (TypeError "'NoneType' object is not callable")
  end.
End Worker.

(** ** Synchronous worker *)

Module SyncWorker.
Definition new : SyncWorker := {| target := None; isStarted := false |}.

Definition execute (self : SyncWorker) (args : list value)
    (kw : gmap string value) : M unit :=
  try_except
    (if isStarted self then
       r <~ Worker.call (target self) args kw ;;
       Worker._handle_result r
     else
       raise (Exception "SyncWorker.execute called, even though it is not started."))
    (λ e,
       log_error ("SyncWorker failed to execute: " +:+ str e) ;;;
       log_error (format_exc e)).

Definition start (self : SyncWorker) : M unit :=
  f <~ Worker._get_target_func ;;
  modify (set_worker (WSync {| target := Some f; isStarted := true |})).

Definition stop (self : SyncWorker) : M unit :=
  modify (set_worker (WSync {| target := None; isStarted := false |})).
End SyncWorker.

(** ** Asynchronous worker: the calls that do not block *)

Definition _get_queue_class (c : async_class_t) : queue_class :=
  match c with
  | Thread => Queue
  | Process => JoinableQueue
  end.

Definition set_worker_queue (q : jqueue (list value * gmap string value))
    (w : AsyncWorker) : AsyncWorker :=
  {| num_threads := num_threads w; async_class := async_class w;
     worker_queue := Some q; result_queue := result_queue w;
     worker_threads := worker_threads w; result_thread := result_thread w |}.

Definition set_result_queue (q : jqueue value) (w : AsyncWorker) : AsyncWorker :=
  {| num_threads := num_threads w; async_class := async_class w;
     worker_queue := worker_queue w; result_queue := Some q;
     worker_threads := worker_threads w; result_thread := result_thread w |}.

Definition set_worker_threads (ts : list worker_thread) (w : AsyncWorker) : AsyncWorker :=
  {| num_threads := num_threads w; async_class := async_class w;
     worker_queue := worker_queue w; result_queue := result_queue w;
     worker_threads := Some ts; result_thread := result_thread w |}.

Definition set_result_thread (pc : result_pc) (w : AsyncWorker) : AsyncWorker :=
  {| num_threads := num_threads w; async_class := async_class w;
     worker_queue := worker_queue w; result_queue := result_queue w;
     worker_threads := worker_threads w; result_thread := Some pc |}.

(** Execution worker [j] moves to [t]. *)
Definition set_thread (j : nat) (t : worker_thread) (w : AsyncWorker) : AsyncWorker :=
  match worker_threads w with
  | Some ts => set_worker_threads (<[j := t]> ts) w
  | None => w
  end.

(** A thread that [join] no longer waits for. *)
Definition worker_terminated (t : worker_thread) : bool :=
  match wt_pc t with
  | WExited | WCrashed _ => true
  | _ => false
  end.

Definition result_terminated (pc : result_pc) : bool :=
  match pc with
  | RExited | RCrashed _ => true
  | _ => false
  end.

Module AsyncWorker.
Definition new (cls : async_class_t) (n : nat) : AsyncWorker :=
  {| num_threads := n; async_class := cls;
     worker_queue := None; result_queue := None;
     worker_threads := None; result_thread := None |}.

(** Both queues are created, then every execution worker and the
    result-draining worker are started, each at the top of its function. *)
Definition start (self : AsyncWorker) : M unit :=
  let queue_class := _get_queue_class (async_class self) in
  modify (set_worker (WAsync
    {| num_threads := num_threads self; async_class := async_class self;
       worker_queue := Some (JQ.new queue_class);
       result_queue := Some (JQ.new queue_class);
       worker_threads :=
         Some (replicate (num_threads self) {| wt_target := None; wt_pc := WStart |});
       result_thread := Some RGet |})).

Definition execute (self : AsyncWorker) (args : list value)
    (kw : gmap string value) : M unit :=
  match worker_queue self with
  | Some q => modify (set_worker (WAsync (set_worker_queue (JQ.put (Item (args, kw)) q) self)))
  | None => raise (AttributeError "'NoneType' object has no attribute 'put'")
  end.

(** One step of execution worker [j] through [_worker]; [None] when it
    cannot move: blocked on an empty queue, terminated, or not there. *)
Definition _worker (j : nat) (n : Node) : option Node :=
  match worker n with
  | WSync _ => None
  | WAsync self =>
      match worker_threads self ≫= (.!! j) with
      | None => None
      | Some t =>
          let goto pc w :=
            set_worker (WAsync (set_thread j {| wt_target := wt_target t; wt_pc := pc |} w)) in
          match wt_pc t with
          | WStart =>
              match Worker._get_target_func n with
              | (Ok f, n') =>
                  Some (set_worker
                          (WAsync (set_thread j {| wt_target := Some f; wt_pc := WGet |} self)) n')
              | (Raise e, n') => Some (goto (WCrashed e) self n')
              end
          | WGet =>
              match worker_queue self with
              | None =>
                  Some (goto (WCrashed (AttributeError "'NoneType' object has no attribute 'get'"))
                          self n)
              | Some q =>
                  match JQ.get q with
                  | None => None
                  | Some (PoisonPill, q') =>
                      Some (goto WGotPill (set_worker_queue q' self) n)
                  | Some (Item (args, kw), q') =>
                      Some (goto (WGotPayload args kw) (set_worker_queue q' self) n)
                  end
              end
          | WGotPill =>
              match worker_queue self with
              | None =>
                  Some (goto (WCrashed (AttributeError "'NoneType' object has no attribute 'task_done'"))
                          self n)
              | Some q =>
                  match JQ.task_done q with
                  | Ok q' => Some (goto WExited (set_worker_queue q' self) n)
                  | Raise e => Some (goto (WCrashed e) self n)
                  end
              end
          | WGotPayload args kw =>
              match Worker.call (wt_target t) args kw n with
              | (Ok r, n') => Some (goto (WPutResult r) self n')
              | (Raise e, n') =>
                  let logged :=
                    (log_error ("AsyncWorker failed to execute target: " +:+ str e) ;;;
                     log_error (format_exc e)) n' in
                  Some (goto WGet self logged.2)
              end
          | WPutResult r =>
              match result_queue self with
              | None =>
                  Some (goto (WCrashed (AttributeError "'NoneType' object has no attribute 'put'"))
                          self n)
              | Some q => Some (goto WTaskDone (set_result_queue (JQ.put (Item r) q) self) n)
              end
          | WTaskDone =>
              match worker_queue self with
              | None =>
                  Some (goto (WCrashed (AttributeError "'NoneType' object has no attribute 'task_done'"))
                          self n)
              | Some q =>
                  match JQ.task_done q with
                  | Ok q' => Some (goto WGet (set_worker_queue q' self) n)
                  | Raise e => Some (goto (WCrashed e) self n)
                  end
              end
          | WExited | WCrashed _ => None
          end
      end
  end.

(** One step of the result-draining worker through [_result_handler]. *)
Definition _result_handler (n : Node) : option Node :=
  match worker n with
  | WSync _ => None
  | WAsync self =>
      match result_thread self with
      | None => None
      | Some pc =>
          let goto pc' w := set_worker (WAsync (set_result_thread pc' w)) in
          match pc with
          | RGet =>
              match result_queue self with
              | None =>
                  Some (goto (RCrashed (AttributeError "'NoneType' object has no attribute 'get'"))
                          self n)
              | Some q =>
                  match JQ.get q with
                  | None => None
                  | Some (PoisonPill, q') => Some (goto RGotPill (set_result_queue q' self) n)
                  | Some (Item r, q') => Some (goto (RGotResult r) (set_result_queue q' self) n)
                  end
              end
          | RGotPill =>
              match result_queue self with
              | None =>
                  Some (goto (RCrashed (AttributeError "'NoneType' object has no attribute 'task_done'"))
                          self n)
              | Some q =>
                  match JQ.task_done q with
                  | Ok q' => Some (goto RExited (set_result_queue q' self) n)
                  | Raise e => Some (goto (RCrashed e) self n)
                  end
              end
          | RGotResult r =>
              match Worker._handle_result r n with
              | (Ok _, n') => Some (goto RTaskDone self n')
              | (Raise e, n') => Some (goto (RCrashed e) self n')
              end
          | RTaskDone =>
              match result_queue self with
              | None =>
                  Some (goto (RCrashed (AttributeError "'NoneType' object has no attribute 'task_done'"))
                          self n)
              | Some q =>
                  match JQ.task_done q with
                  | Ok q' => Some (goto RGet (set_result_queue q' self) n)
                  | Raise e => Some (goto (RCrashed e) self n)
                  end
              end
          | RExited | RCrashed _ => None
          end
      end
  end.

(** Control points of the caller inside [stop]. *)
Inductive stop_pc : Type :=
| StopEnter
| StopPutPills (k : nat)         (* first loop, [k] threads still to visit *)
| StopJoinWorkers (i : nat)      (* second loop, about to join thread [i] *)
| StopPutResultPill
| StopJoinResult.

(** One step of the caller through [stop]: [None] while a [join] blocks;
    otherwise the next control point ([None] inside [Ok]: [stop] has
    returned) or the exception that leaves [stop]. *)
Definition stop (pc : stop_pc) (n : Node) : option (result (option stop_pc) * Node) :=
  match worker n with
  | WSync _ => None
  | WAsync self =>
      match pc with
      | StopEnter =>
          match worker_threads self with
          | None => Some (Raise (TypeError "'NoneType' object is not iterable"), n)
          | Some ts => Some (Ok (Some (StopPutPills (length ts))), n)
          end
      | StopPutPills 0 => Some (Ok (Some (StopJoinWorkers 0)), n)
      | StopPutPills (S k) =>
          match worker_queue self with
          | None => Some (Raise (AttributeError "'NoneType' object has no attribute 'put'"), n)
          | Some q =>
              Some (Ok (Some (StopPutPills k)),
                    set_worker (WAsync (set_worker_queue (JQ.put PoisonPill q) self)) n)
          end
      | StopJoinWorkers i =>
          match worker_threads self ≫= (.!! i) with
          | None => Some (Ok (Some StopPutResultPill), n)
          | Some t =>
              if worker_terminated t then Some (Ok (Some (StopJoinWorkers (S i))), n)
              else None
          end
      | StopPutResultPill =>
          match result_queue self with
          | None => Some (Raise (AttributeError "'NoneType' object has no attribute 'put'"), n)
          | Some q =>
              Some (Ok (Some StopJoinResult),
                    set_worker (WAsync (set_result_queue (JQ.put PoisonPill q) self)) n)
          end
      | StopJoinResult =>
          match result_thread self with
          | None => Some (Raise (AttributeError "'NoneType' object has no attribute 'join'"), n)
          | Some rpc => if result_terminated rpc then Some (Ok None, n) else None
          end
      end
  end.

(** Control points of the caller inside [join]. *)
Inductive join_pc : Type :=
| JoinWorkerQueue
| JoinResultQueue.

Definition join (pc : join_pc) (n : Node) : option (result (option join_pc) * Node) :=
  match worker n with
  | WSync _ => None
  | WAsync self =>
      match pc with
      | JoinWorkerQueue =>
          match worker_queue self with
          | None => Some (Raise (AttributeError "'NoneType' object has no attribute 'join'"), n)
          | Some q => if JQ.joined q then Some (Ok (Some JoinResultQueue), n) else None
          end
      | JoinResultQueue =>
          match result_queue self with
          | None => Some (Raise (AttributeError "'NoneType' object has no attribute 'join'"), n)
          | Some q => if JQ.joined q then Some (Ok None, n) else None
          end
      end
  end.
End AsyncWorker.

(** ** Input ports

    A port turns one inbound payload into calls of its node's
    [handle_input]; the port reaches the node through its back-reference, so
    the handler is a parameter here and [Node] supplies it below. *)

Module InputPort.
Section notify.
Variable handle_input : value → option Z → option string → M unit.

(** [range(0, stop, step)] for a positive [step], by iteration. *)
Fixpoint range_from (fuel i stop step : nat) : list nat :=
  match fuel with
  | 0 => []
  | S fuel' =>
      if decide (i < stop) then i :: range_from fuel' (i + step) stop step
      else []
  end.

(** [range(0, stop, step)]: a zero step is an error, a negative one
    yields nothing. *)
Definition range (stop : nat) (step : Z) : result (list nat) :=
  if decide (step = 0)%Z then Raise (ValueError "range() arg 3 must not be zero")
  else if decide (step < 0)%Z then Ok []
  else Ok (range_from stop 0 stop (Z.to_nat step)).

(** [payload[i:i + batch_size]] for [0 <= i] and [0 < batch_size]. *)
Definition slice (payload : list value) (i : nat) (batch_size : Z) : list value :=
  take (Z.to_nat batch_size) (drop i payload).

(** [BatchArgInputPort.chunks]: the successive slices, in order. *)
Definition chunks (batch_size : Z) (payload : value) : result (list value) :=
  match payload with
  | VList l =>
      match range (length l) batch_size with
      | Ok starts => Ok (map (λ i, VList (slice l i batch_size)) starts)
      | Raise e => Raise e
      end
  | VNone => Raise (TypeError "object of type 'NoneType' has no len()")
  | VInt _ => Raise (TypeError "object of type 'int' has no len()")
  end.

(** [for x in data] *)
Definition iterate (data : value) : result (list value) :=
  match data with
  | VList l => Ok l
  | VNone => Raise (TypeError "'NoneType' object is not iterable")
  | VInt _ => Raise (TypeError "'int' object is not iterable")
  end.

Definition notify (self : InputPort) (data : value) : M unit :=
  match self with
  | ArgInputPort idx => handle_input data idx None
  | MappingArgInputPort idx =>
      xs <~ lift (iterate data) ;;
      for_each xs (λ x, handle_input x idx None)
  | BatchArgInputPort batch_size idx =>
      batches <~ lift (chunks batch_size data) ;;
      for_each batches (λ batch, handle_input batch idx None)
  | KwargInputPort kwarg => handle_input data None (Some kwarg)
  end.
End notify.
End InputPort.

(** ** Node *)

Module Node.
(** [self.worker.execute], dispatched on the kind of worker. *)
Definition worker_execute (args : list value) (kw : gmap string value) : M unit :=
  w <~ gets worker ;;
  match w with
  | WSync s => SyncWorker.execute s args kw
  | WAsync a => AsyncWorker.execute a args kw
  end.

Definition handle_input (data : value) (idx : option Z) (kwarg : option string)
    : M unit :=
  match kwarg with
  | Some k =>
      pv <~ gets passive_input_values ;;
      modify (set_passive_input_values (<[k := data]> pv))
  | None =>
      match idx with
      | Some i =>
          rv <~ gets reactive_input_values ;;
          rv' <~ lift (list_setitem rv i data) ;;
          modify (set_reactive_input_values rv')
      | None => ret tt
      end ;;;
      try_except
        (rv <~ gets reactive_input_values ;;
         pv <~ gets passive_input_values ;;
         worker_execute rv pv)
        (λ e,
           log_error ("Failed to execute worker: " +:+ str e) ;;;
           log_error (format_exc e))
  end.

(** The public entry: [data = None] goes straight to [handle_input]. *)
Definition notify (data : value) (port_idx : Z) : M unit :=
  match data with
  | VNone => handle_input VNone None None
  | _ =>
      ports <~ gets reactive_input_ports ;;
      port <~ lift (list_getitem ports port_idx) ;;
      InputPort.notify handle_input port data
  end.

Definition notify_items (lst : list value) (port_idx : Z) : M unit :=
  ports <~ gets reactive_input_ports ;;
  port <~ lift (list_getitem ports port_idx) ;;
  for_each lst (λ data, InputPort.notify handle_input port data).

(** [self.worker.start()] *)
Definition start : M unit :=
  w <~ gets worker ;;
  match w with
  | WSync s => SyncWorker.start s
  | WAsync a => AsyncWorker.start a
  end.

(** *** Construction *)

(** The [reactive_input_ports] argument: a list, one port, or nothing. *)
Inductive ports_arg : Type :=
| PortsList (l : list InputPort)
| PortsSingle (p : InputPort)
| PortsNone.

(** The [node_args] argument: one upstream node or a list of them; an
    upstream node is named by its position in the graph. *)
Inductive upstream_arg : Type :=
| UpstreamOne (u : nat)
| UpstreamList (us : list nat).

(** [node_worker_class] with its arguments. *)
Inductive worker_ctor : Type :=
| MkSyncWorker
| MkAsyncWorker (cls : async_class_t) (threads : nat).

Record NodeArgs := {
  a_target_func : option pyfunc;
  a_target_class : option pyclass;
  a_target_class_args : option (list value);
  a_target_class_kwargs : option (gmap string value);
  a_reactive_input_ports : ports_arg;
  a_default_reactive_input_values : option (list value);
  a_node_args : option upstream_arg;
  a_node_kwargs : option (list (string * nat));
  a_name : option string;
  a_node_worker_class : option worker_ctor }.

Definition rbind {A B} (r : result A) (k : A → result B) : result B :=
  match r with
  | Ok a => k a
  | Raise e => Raise e
  end.

(** The registrations [node_arg.output_port.register_observer(ports[i])],
    for [i, node_arg in enumerate(node_args)], counting from [i]. *)
Fixpoint register_args (ports : list InputPort) (i : nat) (us : list nat)
    : result (list (nat * InputPort)) :=
  match us with
  | [] => Ok []
  | u :: rest =>
      match ports !! i with
      | None => Raise (IndexError "list index out of range")
      | Some p => rbind (register_args ports (S i) rest) (λ regs, Ok ((u, p) :: regs))
      end
  end.

Fixpoint register_kwargs (ports : gmap string InputPort) (kus : list (string * nat))
    : result (list (nat * InputPort)) :=
  match kus with
  | [] => Ok []
  | (k, u) :: rest =>
      match ports !! k with
      | None => Raise (KeyError k)
      | Some p => rbind (register_kwargs ports rest) (λ regs, Ok ((u, p) :: regs))
      end
  end.

Definition _build_node_worker (c : option worker_ctor) : Worker :=
  match c with
  | None | Some MkSyncWorker => WSync SyncWorker.new
  | Some (MkAsyncWorker cls threads) => WAsync (AsyncWorker.new cls threads)
  end.

(** The constructor: the new node together with the observers it
    registered on upstream output ports, or the exception that aborts it. *)
Definition __init__ (a : NodeArgs) : result (Node * list (nat * InputPort)) :=
  rbind
    (match a_target_func a, a_target_class a with
     | Some f, None => Ok (fn_info f, num_args (fn_info f))
     | _, Some c => Ok (execute_info c, (num_args (execute_info c) - 1)%Z)
     | None, None => Raise (ValueError "Provide target_func OR target_class")
     end)
    (λ '(target_info, num_reactive_input_ports),
  rbind
    (match a_reactive_input_ports a with
     | PortsList l =>
         if decide (Z.of_nat (length l) = num_reactive_input_ports) then Ok l
         else Raise AssertionError
     | PortsSingle p =>
         if is_ArgInputPort p then Ok [set_idx 0 p]
         else Ok (map (λ i, ArgInputPort (Some (Z.of_nat i)))
                      (seq 0 (Z.to_nat num_reactive_input_ports)))
     | PortsNone =>
         Ok (map (λ i, ArgInputPort (Some (Z.of_nat i)))
                 (seq 0 (Z.to_nat num_reactive_input_ports)))
     end)
    (λ ports,
  let values :=
    match a_default_reactive_input_values a with
    | Some (d :: ds) => d :: ds
    | Some [] | None => replicate (length ports) VNone
    end in
  rbind
    (match a_node_args a with
     | Some (UpstreamOne u) => register_args ports 0 [u]
     | Some (UpstreamList us) => register_args ports 0 us
     | None => Ok []
     end)
    (λ regs_args,
  let passive_ports : gmap string InputPort :=
    foldl (λ m kv, <[kv.1 := KwargInputPort kv.1]> m) ∅ (kwargs target_info) in
  let passive_values : gmap string value :=
    foldl (λ m kv, <[kv.1 := kv.2]> m) ∅ (kwargs target_info) in
  rbind
    (match a_node_kwargs a with
     | Some kus => register_kwargs passive_ports kus
     | None => Ok []
     end)
    (λ regs_kwargs,
  Ok ({| target_func := a_target_func a;
         target_class := a_target_class a;
         target_class_args := default [] (a_target_class_args a);
         target_class_kwargs := default ∅ (a_target_class_kwargs a);
         reactive_input_ports := ports;
         reactive_input_values := values;
         passive_input_ports := passive_ports;
         passive_input_values := passive_values;
         observers := [];
         name := a_name a;
         _value := VNone;
         worker := _build_node_worker (a_node_worker_class a);
         trace := [] |},
      regs_args ++ regs_kwargs))))).
End Node.

(** ** A node, its caller and its threads

    The caller (the main thread) issues calls on the node's worker one after
    the other; [stop] and [join] on an asynchronous worker take several
    steps and may block.  Any thread that can move may be the next to move. *)

Module System.
Inductive command : Type :=
| Execute (args : list value) (kw : gmap string value)
| Stop
| Join.

Inductive main_pc : Type :=
| Idle
| InStop (pc : AsyncWorker.stop_pc)
| InJoin (pc : AsyncWorker.join_pc)
| Raised (e : exn).

Record state := {
  node : Node;
  main : main_pc;
  script : list command }.

Inductive tid : Type :=
| TMain
| TWorker (j : nat)
| TResult.

Definition step_main (s : state) : option state :=
  match main s with
  | Idle =>
      match script s with
      | [] => None
      | Execute args kw :: rest =>
          match Node.worker_execute args kw (node s) with
          | (Ok _, n') => Some {| node := n'; main := Idle; script := rest |}
          | (Raise e, n') => Some {| node := n'; main := Raised e; script := rest |}
          end
      | Stop :: rest =>
          match worker (node s) with
          | WSync w =>
              Some {| node := (SyncWorker.stop w (node s)).2; main := Idle; script := rest |}
          | WAsync _ =>
              Some {| node := node s; main := InStop AsyncWorker.StopEnter; script := rest |}
          end
      | Join :: rest =>
          match worker (node s) with
          | WSync w =>
              Some {| node := node s;
                      main := Raised (AttributeError "'SyncWorker' object has no attribute 'join'");
                      script := rest |}
          | WAsync _ =>
              Some {| node := node s; main := InJoin AsyncWorker.JoinWorkerQueue; script := rest |}
          end
      end
  | InStop pc =>
      match AsyncWorker.stop pc (node s) with
      | None => None
      | Some (Ok (Some pc'), n') => Some {| node := n'; main := InStop pc'; script := script s |}
      | Some (Ok None, n') => Some {| node := n'; main := Idle; script := script s |}
      | Some (Raise e, n') => Some {| node := n'; main := Raised e; script := script s |}
      end
  | InJoin pc =>
      match AsyncWorker.join pc (node s) with
      | None => None
      | Some (Ok (Some pc'), n') => Some {| node := n'; main := InJoin pc'; script := script s |}
      | Some (Ok None, n') => Some {| node := n'; main := Idle; script := script s |}
      | Some (Raise e, n') => Some {| node := n'; main := Raised e; script := script s |}
      end
  | Raised _ => None
  end.

(** One step of thread [t]; [None] when [t] cannot move. *)
Definition step (t : tid) (s : state) : option state :=
  match t with
  | TMain => step_main s
  | TWorker j =>
      n' ← AsyncWorker._worker j (node s);
      Some {| node := n'; main := main s; script := script s |}
  | TResult =>
      n' ← AsyncWorker._result_handler (node s);
      Some {| node := n'; main := main s; script := script s |}
  end.

(** Running a schedule: the threads move in the listed order; a thread
    that cannot move when its turn comes is passed over. *)
Fixpoint run (sched : list tid) (s : state) : state :=
  match sched with
  | [] => s
  | t :: rest => run rest (default s (step t s))
  end.

(** The caller has returned from every call of its script. *)
Definition returned (s : state) : Prop := main s = Idle ∧ script s = [].

End System.

(** ** Graph *)

Inductive graph_event : Type :=
| LoggedInfo (msg : string)
| StopCalled (i : nat)        (* [node.stop()] entered for node [i] *)
| StopReturned (i : nat).     (* and returned *)

Record Graph := {
  nodes : list Node;
  is_alive : bool;
  graph_name : string;
  graph_trace : list graph_event }.

Definition is_async (n : Node) : bool :=
  match worker n with
  | WAsync _ => true
  | WSync _ => false
  end.

Module Graph.
Definition new (name : option string) : Graph :=
  {| nodes := []; is_alive := false; graph_name := default "" name; graph_trace := [] |}.

Definition log (e : graph_event) (g : Graph) : Graph :=
  {| nodes := nodes g; is_alive := is_alive g; graph_name := graph_name g;
     graph_trace := graph_trace g ++ [e] |}.

Definition set_nodes (ns : list Node) (g : Graph) : Graph :=
  {| nodes := ns; is_alive := is_alive g; graph_name := graph_name g;
     graph_trace := graph_trace g |}.

Definition set_is_alive (b : bool) (g : Graph) : Graph :=
  {| nodes := nodes g; is_alive := b; graph_name := graph_name g;
     graph_trace := graph_trace g |}.

(** [for node in self.nodes: node.start()] *)
Fixpoint start_nodes (ns : list Node) : result unit * list Node :=
  match ns with
  | [] => (Ok tt, [])
  | n :: rest =>
      match Node.start n with
      | (Ok _, n') =>
          let '(r, rest') := start_nodes rest in (r, n' :: rest')
      | (Raise e, n') => (Raise e, n' :: rest)
      end
  end.

Definition start (g : Graph) : result unit * Graph :=
  let g1 := log (LoggedInfo ("Graph " +:+ graph_name g +:+ " starting")) g in
  match start_nodes (nodes g1) with
  | (Ok _, ns) => (Ok tt, set_is_alive true (set_nodes ns g1))
  | (Raise e, ns) => (Raise e, set_nodes ns g1)
  end.

(** Control points of the caller inside [Graph.stop]. *)
Inductive stop_pc : Type :=
| StopEnter
| StopAsyncLoop (i : nat)                             (* first loop, at node [i] *)
| StopAsyncNode (i : nat) (pc : AsyncWorker.stop_pc)  (* inside [node.stop()] of node [i] *)
| StopSyncLoop (i : nat)                              (* second loop, at node [i] *)
| Returned
| Raised (e : exn).

Record state := {
  graph : Graph;
  main : stop_pc }.

Inductive tid : Type :=
| TMain
| TWorker (i j : nat)      (* execution worker [j] of node [i] *)
| TResult (i : nat).       (* result-draining worker of node [i] *)

(** One step of the caller through [stop]. *)
Definition stop (s : state) : option state :=
  let g := graph s in
  match main s with
  | StopEnter =>
      let g1 := log (LoggedInfo ("Graph " +:+ graph_name g +:+ " received stop signal")) g in
      Some {| graph := set_is_alive false g1; main := StopAsyncLoop 0 |}
  | StopAsyncLoop i =>
      match nodes g !! i with
      | None => Some {| graph := g; main := StopSyncLoop 0 |}
      | Some n =>
          if is_async n then
            Some {| graph := log (StopCalled i) g;
                    main := StopAsyncNode i AsyncWorker.StopEnter |}
          else Some {| graph := g; main := StopAsyncLoop (S i) |}
      end
  | StopAsyncNode i pc =>
      match nodes g !! i with
      | None => None
      | Some n =>
          match AsyncWorker.stop pc n with
          | None => None
          | Some (Ok (Some pc'), n') =>
              Some {| graph := set_nodes (<[i := n']> (nodes g)) g;
                      main := StopAsyncNode i pc' |}
          | Some (Ok None, n') =>
              Some {| graph := log (StopReturned i) (set_nodes (<[i := n']> (nodes g)) g);
                      main := StopAsyncLoop (S i) |}
          | Some (Raise e, n') =>
              Some {| graph := set_nodes (<[i := n']> (nodes g)) g; main := Raised e |}
          end
      end
  | StopSyncLoop i =>
      match nodes g !! i with
      | None => Some {| graph := g; main := Returned |}
      | Some n =>
          match worker n with
          | WSync w =>
              let n' := (SyncWorker.stop w n).2 in
              Some {| graph := log (StopReturned i)
                                 (set_nodes (<[i := n']> (nodes g)) (log (StopCalled i) g));
                      main := StopSyncLoop (S i) |}
          | WAsync _ => Some {| graph := g; main := StopSyncLoop (S i) |}
          end
      end
  | Returned | Raised _ => None
  end.

(** A thread of node [i] moves. *)
Definition step_node (i : nat) (f : Node → option Node) (s : state) : option state :=
  n ← nodes (graph s) !! i;
  n' ← f n;
  Some {| graph := set_nodes (<[i := n']> (nodes (graph s))) (graph s); main := main s |}.

Definition step (t : tid) (s : state) : option state :=
  match t with
  | TMain => stop s
  | TWorker i j => step_node i (AsyncWorker._worker j) s
  | TResult i => step_node i AsyncWorker._result_handler s
  end.

Fixpoint run (sched : list tid) (s : state) : state :=
  match sched with
  | [] => s
  | t :: rest => run rest (default s (step t s))
  end.
End Graph.

(** * Specification vocabulary *)

(** ** Reading a trace *)

(** The calls of the work target, in order. *)
Definition target_calls (tr : list event) : list (list value * gmap string value) :=
  omap (λ e, match e with TargetCalled a k => Some (a, k) | _ => None end) tr.

(** The results handed to the output port, in order. *)
Definition outputs (tr : list event) : list value :=
  omap (λ e, match e with OutputNotified r => Some r | _ => None end) tr.

(** What [OutputPort.notify_observers] does, as a value: the observers
    notified, up to and including the first one that raises, and the outcome. *)
Fixpoint fan_out (obs : list Observer) (data : value) : list event * result unit :=
  match obs with
  | [] => ([], Ok tt)
  | o :: rest =>
      match observer_notify o data with
      | Ok _ =>
          let '(es, r) := fan_out rest data in
          (ObserverNotified (observer_id o) data :: es, r)
      | Raise e => ([ObserverNotified (observer_id o) data], Raise e)
      end
  end.

(** The two lines [SyncWorker.execute] logs for [e]. *)
Definition sync_failure_log (e : exn) : list event :=
  [LoggedError ("SyncWorker failed to execute: " +:+ str e); LoggedError (format_exc e)].

(** The two lines [handle_input] logs for [e]. *)
Definition worker_failure_log (e : exn) : list event :=
  [LoggedError ("Failed to execute worker: " +:+ str e); LoggedError (format_exc e)].

(** The node after [handle_input] has called the worker with [args] and [kw]
    from state [n] and dealt with what the call raised. *)
Definition after_execute (args : list value) (kw : gmap string value) (n : Node) : Node :=
  match Node.worker_execute args kw n with
  | (Ok _, n') => n'
  | (Raise e, n') => set_trace (trace n' ++ worker_failure_log e) n'
  end.

(** ** Chunks of a batch port *)

(** [ceil(a / b)] *)
Definition ceil_div (a b : nat) : nat := (a + b - 1) / b.

(** Triggering the node once per payload, in order. *)
Definition trigger_all (idx : option Z) (payloads : list value) (n : Node) : Node :=
  foldl (λ n c, (Node.handle_input c idx None n).2) n payloads.

(** An index [handle_input] accepts: none, or one inside the cached vector. *)
Definition valid_idx (idx : option Z) (n : Node) : Prop :=
  match idx with
  | None => True
  | Some i => is_Some (py_index (length (reactive_input_values n)) i)
  end.

(** ** Arity *)

(** The work target given to the constructor takes [k] positional
    arguments, the instance parameter of a class-based target not counted. *)
Definition has_arity (a : Node.NodeArgs) (k : nat) : Prop :=
  match Node.a_target_func a, Node.a_target_class a with
  | Some f, None => num_args (fn_info f) = Z.of_nat k
  | _, Some c => num_args (execute_info c) = (Z.of_nat k + 1)%Z
  | None, None => False
  end.

(** The ports the constructor makes when none are supplied. *)
Definition default_ports (k : nat) : list InputPort :=
  map (λ i, ArgInputPort (Some (Z.of_nat i))) (seq 0 k).

(** ** Reading the parts of an asynchronous worker off its node *)

Definition async_of (n : Node) : AsyncWorker :=
  match worker n with
  | WAsync a => a
  | WSync _ => AsyncWorker.new Thread 0
  end.

Definition threads (n : Node) : list worker_thread :=
  default [] (worker_threads (async_of n)).

Definition drainer (n : Node) : result_pc :=
  default RGet (result_thread (async_of n)).

Definition work_queue (n : Node) : jqueue (list value * gmap string value) :=
  default (JQ.new Queue) (worker_queue (async_of n)).

Definition results_queue (n : Node) : jqueue value :=
  default (JQ.new Queue) (result_queue (async_of n)).

(** The worker is asynchronous and [start] has run: queues and threads exist. *)
Definition started (n : Node) : Prop :=
  match worker n with
  | WAsync a =>
      is_Some (worker_queue a) ∧ is_Some (result_queue a)
      ∧ is_Some (worker_threads a) ∧ is_Some (result_thread a)
  | WSync _ => False
  end.

(** Every thread of the worker has terminated. *)
Definition fully_stopped (n : Node) : Prop :=
  (∀ j t, threads n !! j = Some t → worker_terminated t = true)
  ∧ result_terminated (drainer n) = true.

(** What the caller of [stop] has already waited for at control point [pc]. *)
Definition joined_so_far (pc : AsyncWorker.stop_pc) (n : Node) : Prop :=
  match pc with
  | AsyncWorker.StopEnter | AsyncWorker.StopPutPills _ => True
  | AsyncWorker.StopJoinWorkers i =>
      ∀ j t, j < i → threads n !! j = Some t → worker_terminated t = true
  | AsyncWorker.StopPutResultPill | AsyncWorker.StopJoinResult =>
      ∀ j t, threads n !! j = Some t → worker_terminated t = true
  end.

(** ** The steps of the threads, case by case *)

(** A started asynchronous worker, part by part. *)
Definition running (N : nat) (c : async_class_t)
    (qw : jqueue (list value * gmap string value)) (qr : jqueue value)
    (ts : list worker_thread) (rpc : result_pc) : Worker :=
  WAsync {| num_threads := N; async_class := c;
            worker_queue := Some qw; result_queue := Some qr;
            worker_threads := Some ts; result_thread := Some rpc |}.

(** An execution worker with its resolved target, at a control point. *)
Definition thread (tgt : option callable) (pc : worker_pc) : worker_thread :=
  {| wt_target := tgt; wt_pc := pc |}.

(** A queue of the given class, items and count of unfinished tasks. *)
Definition queue {A} (c : queue_class) (items : list (qitem A)) (u : nat) : jqueue A :=
  {| qclass := c; qitems := items; unfinished_tasks := u |}.

(** The two lines [_worker] logs for [e]. *)
Definition async_failure_log (e : exn) : list event :=
  [LoggedError ("AsyncWorker failed to execute target: " +:+ str e);
   LoggedError (format_exc e)].

(** [worker_step j n n']: execution worker [j] takes node [n] to [n']. *)
Inductive worker_step (j : nat) (n : Node) : Node → Prop :=
| ws_start N c qw qr ts rpc tgt f :
    worker n = running N c qw qr ts rpc →
    ts !! j = Some (thread tgt WStart) →
    (Worker._get_target_func n).1 = Ok f →
    worker_step j n
      (set_worker (running N c qw qr (<[j := thread (Some f) WGet]> ts) rpc) n)
| ws_start_crash N c qw qr ts rpc tgt e :
    worker n = running N c qw qr ts rpc →
    ts !! j = Some (thread tgt WStart) →
    (Worker._get_target_func n).1 = Raise e →
    worker_step j n
      (set_worker (running N c qw qr (<[j := thread tgt (WCrashed e)]> ts) rpc) n)
| ws_get_pill N c qc rest u qr ts rpc tgt :
    worker n = running N c (queue qc (PoisonPill :: rest) u) qr ts rpc →
    ts !! j = Some (thread tgt WGet) →
    worker_step j n
      (set_worker (running N c (queue qc rest u) qr (<[j := thread tgt WGotPill]> ts) rpc) n)
| ws_get_payload N c qc args kw rest u qr ts rpc tgt :
    worker n = running N c (queue qc (Item (args, kw) :: rest) u) qr ts rpc →
    ts !! j = Some (thread tgt WGet) →
    worker_step j n
      (set_worker
         (running N c (queue qc rest u) qr (<[j := thread tgt (WGotPayload args kw)]> ts) rpc) n)
| ws_pill_done N c qc items u qr ts rpc tgt :
    worker n = running N c (queue qc items (S u)) qr ts rpc →
    ts !! j = Some (thread tgt WGotPill) →
    worker_step j n
      (set_worker (running N c (queue qc items u) qr (<[j := thread tgt WExited]> ts) rpc) n)
| ws_pill_crash N c qc items qr ts rpc tgt :
    worker n = running N c (queue qc items 0) qr ts rpc →
    ts !! j = Some (thread tgt WGotPill) →
    worker_step j n
      (set_worker
         (running N c (queue qc items 0) qr
            (<[j := thread tgt (WCrashed (ValueError "task_done() called too many times"))]> ts)
            rpc) n)
| ws_call_returns N c qw qr ts rpc f args kw r :
    worker n = running N c qw qr ts rpc →
    ts !! j = Some (thread (Some f) (WGotPayload args kw)) →
    f args kw = Ok r →
    worker_step j n
      (set_worker (running N c qw qr (<[j := thread (Some f) (WPutResult r)]> ts) rpc)
         (set_trace (trace n ++ [TargetCalled args kw]) n))
| ws_call_raises N c qw qr ts rpc f args kw e :
    worker n = running N c qw qr ts rpc →
    ts !! j = Some (thread (Some f) (WGotPayload args kw)) →
    f args kw = Raise e →
    worker_step j n
      (set_worker (running N c qw qr (<[j := thread (Some f) WGet]> ts) rpc)
         (set_trace (trace n ++ TargetCalled args kw :: async_failure_log e) n))
| ws_call_no_target N c qw qr ts rpc args kw :
    worker n = running N c qw qr ts rpc →
    ts !! j = Some (thread None (WGotPayload args kw)) →
    worker_step j n
      (set_worker (running N c qw qr (<[j := thread None WGet]> ts) rpc)
         (set_trace
            (trace n ++ async_failure_log (TypeError "'NoneType' object is not callable")) n))
| ws_put_result N c qw qc items u ts rpc tgt r :
    worker n = running N c qw (queue qc items u) ts rpc →
    ts !! j = Some (thread tgt (WPutResult r)) →
    worker_step j n
      (set_worker
         (running N c qw (queue qc (items ++ [Item r]) (S u))
            (<[j := thread tgt WTaskDone]> ts) rpc) n)
| ws_task_done N c qc items u qr ts rpc tgt :
    worker n = running N c (queue qc items (S u)) qr ts rpc →
    ts !! j = Some (thread tgt WTaskDone) →
    worker_step j n
      (set_worker (running N c (queue qc items u) qr (<[j := thread tgt WGet]> ts) rpc) n)
| ws_task_done_crash N c qc items qr ts rpc tgt :
    worker n = running N c (queue qc items 0) qr ts rpc →
    ts !! j = Some (thread tgt WTaskDone) →
    worker_step j n
      (set_worker
         (running N c (queue qc items 0) qr
            (<[j := thread tgt (WCrashed (ValueError "task_done() called too many times"))]> ts)
            rpc) n).

(** [result_step n n']: the result-draining worker takes [n] to [n']. *)
Inductive result_step (n : Node) : Node → Prop :=
| rs_get_pill N c qw qc rest u ts :
    worker n = running N c qw (queue qc (PoisonPill :: rest) u) ts RGet →
    result_step n (set_worker (running N c qw (queue qc rest u) ts RGotPill) n)
| rs_get_result N c qw qc r rest u ts :
    worker n = running N c qw (queue qc (Item r :: rest) u) ts RGet →
    result_step n (set_worker (running N c qw (queue qc rest u) ts (RGotResult r)) n)
| rs_pill_done N c qw qc items u ts :
    worker n = running N c qw (queue qc items (S u)) ts RGotPill →
    result_step n (set_worker (running N c qw (queue qc items u) ts RExited) n)
| rs_pill_crash N c qw qc items ts :
    worker n = running N c qw (queue qc items 0) ts RGotPill →
    result_step n
      (set_worker
         (running N c qw (queue qc items 0) ts
            (RCrashed (ValueError "task_done() called too many times"))) n)
| rs_handled N c qw qr ts r es :
    worker n = running N c qw qr ts (RGotResult r) →
    fan_out (observers n) r = (es, Ok tt) →
    result_step n
      (set_worker (running N c qw qr ts RTaskDone)
         (set_trace (trace n ++ OutputNotified r :: es) (set__value r n)))
| rs_observer_raises N c qw qr ts r es e :
    worker n = running N c qw qr ts (RGotResult r) →
    fan_out (observers n) r = (es, Raise e) →
    result_step n
      (set_worker (running N c qw qr ts (RCrashed e))
         (set_trace (trace n ++ OutputNotified r :: es) (set__value r n)))
| rs_task_done N c qw qc items u ts :
    worker n = running N c qw (queue qc items (S u)) ts RTaskDone →
    result_step n (set_worker (running N c qw (queue qc items u) ts RGet) n)
| rs_task_done_crash N c qw qc items ts :
    worker n = running N c qw (queue qc items 0) ts RTaskDone →
    result_step n
      (set_worker
         (running N c qw (queue qc items 0) ts
            (RCrashed (ValueError "task_done() called too many times"))) n).

(** [stop_step pc n pc' n']: inside [stop], the caller moves from [pc] to
    [pc'] ([None]: it returns). *)
Inductive stop_step (n : Node) :
    AsyncWorker.stop_pc → option AsyncWorker.stop_pc → Node → Prop :=
| ss_enter N c qw qr ts rpc :
    worker n = running N c qw qr ts rpc →
    stop_step n AsyncWorker.StopEnter (Some (AsyncWorker.StopPutPills (length ts))) n
| ss_pills_done :
    started n →
    stop_step n (AsyncWorker.StopPutPills 0) (Some (AsyncWorker.StopJoinWorkers 0)) n
| ss_put_pill N c qc items u qr ts rpc k :
    worker n = running N c (queue qc items u) qr ts rpc →
    stop_step n (AsyncWorker.StopPutPills (S k)) (Some (AsyncWorker.StopPutPills k))
      (set_worker (running N c (queue qc (items ++ [PoisonPill]) (S u)) qr ts rpc) n)
| ss_joined_worker i t :
    started n →
    threads n !! i = Some t → worker_terminated t = true →
    stop_step n (AsyncWorker.StopJoinWorkers i) (Some (AsyncWorker.StopJoinWorkers (S i))) n
| ss_joined_all i :
    started n →
    threads n !! i = None →
    stop_step n (AsyncWorker.StopJoinWorkers i) (Some AsyncWorker.StopPutResultPill) n
| ss_put_result_pill N c qw qc items u ts rpc :
    worker n = running N c qw (queue qc items u) ts rpc →
    stop_step n AsyncWorker.StopPutResultPill (Some AsyncWorker.StopJoinResult)
      (set_worker (running N c qw (queue qc (items ++ [PoisonPill]) (S u)) ts rpc) n)
| ss_joined_result :
    started n →
    result_terminated (drainer n) = true →
    stop_step n AsyncWorker.StopJoinResult None n.

(** ** Graph shutdown *)

(** The stop events of a graph trace, log lines left out. *)
Definition stops (tr : list graph_event) : list graph_event :=
  omap (λ e, match e with LoggedInfo _ => None | _ => Some e end) tr.

(** The stops of the nodes of kind [want] ([true]: asynchronous), each
    called and returned, in list order; [kinds] tells the kind of every node. *)
Definition stops_of (want : bool) (kinds : list bool) : list graph_event :=
  concat (imap (λ i b, if bool_decide (b = want) then [StopCalled i; StopReturned i] else [])
               kinds).

(** A synchronous worker after [stop]. *)
Definition sync_stopped (n : Node) : Prop := worker n = WSync SyncWorker.new.

(** The stop events [Graph.stop] has produced when its caller is at [pc]. *)
Definition stop_progress (kinds : list bool) (pc : Graph.stop_pc) : list graph_event :=
  match pc with
  | Graph.StopEnter | Graph.Raised _ => []
  | Graph.StopAsyncLoop i => stops_of true (take i kinds)
  | Graph.StopAsyncNode i _ => stops_of true (take i kinds) ++ [StopCalled i]
  | Graph.StopSyncLoop i => stops_of true kinds ++ stops_of false (take i kinds)
  | Graph.Returned => stops_of true kinds ++ stops_of false kinds
  end.

(** The nodes [Graph.stop] is done with when its caller is at [pc]. *)
Definition nodes_progress (pc : Graph.stop_pc) (ns : list Node) : Prop :=
  match pc with
  | Graph.StopEnter => True
  | Graph.StopAsyncLoop i =>
      ∀ j n, j < i → ns !! j = Some n → is_async n = true → fully_stopped n
  | Graph.StopAsyncNode i pc' =>
      (∀ j n, j < i → ns !! j = Some n → is_async n = true → fully_stopped n)
      ∧ ∃ n, ns !! i = Some n ∧ is_async n = true ∧ joined_so_far pc' n
  | Graph.StopSyncLoop i =>
      (∀ j n, ns !! j = Some n → is_async n = true → fully_stopped n)
      ∧ (∀ j n, j < i → ns !! j = Some n → is_async n = false → sync_stopped n)
  | Graph.Returned =>
      (∀ j n, ns !! j = Some n → is_async n = true → fully_stopped n)
      ∧ (∀ j n, ns !! j = Some n → is_async n = false → sync_stopped n)
  | Graph.Raised _ => False
  end.

(** What holds of the graph throughout [Graph.stop], [g0] being the graph
    at the call. *)
Definition graph_inv (g0 : Graph) (s : Graph.state) : Prop :=
  is_async <$> nodes (Graph.graph s) = is_async <$> nodes g0
  ∧ (∀ i n, nodes (Graph.graph s) !! i = Some n → is_async n = true → started n)
  ∧ stops (graph_trace (Graph.graph s)) =
      stops (graph_trace g0) ++ stop_progress (is_async <$> nodes g0) (Graph.main s)
  ∧ (Graph.main s = Graph.StopEnter ∨ is_alive (Graph.graph s) = false)
  ∧ nodes_progress (Graph.main s) (nodes (Graph.graph s)).

(** ** Accounting for pills, payloads and results *)

(** The pills among the items of a queue. *)
Definition pills {A} (q : list (qitem A)) : nat :=
  sum_list_with (λ x, match x with PoisonPill => 1 | Item _ => 0 end) q.

(** The items of a queue that are not pills, in order. *)
Definition payloads {A} (q : list (qitem A)) : list A :=
  omap (λ x, match x with Item a => Some a | PoisonPill => None end) q.

(** No payload sits behind a pill. *)
Fixpoint pills_last {A} (q : list (qitem A)) : Prop :=
  match q with
  | [] => True
  | PoisonPill :: rest => payloads rest = []
  | Item _ :: rest => pills_last rest
  end.

(** An execution worker that has taken its pill off the work queue. *)
Definition took_pill (t : worker_thread) : nat :=
  match wt_pc t with
  | WGotPill | WExited => 1
  | _ => 0
  end.

(** An execution worker holding a work item it has not yet acknowledged. *)
Definition holding (t : worker_thread) : nat :=
  match wt_pc t with
  | WGotPill | WGotPayload _ _ | WPutResult _ | WTaskDone => 1
  | _ => 0
  end.

(** The payload an execution worker has dequeued and not yet called. *)
Definition thread_payloads (t : worker_thread) : list (list value * gmap string value) :=
  match wt_pc t with
  | WGotPayload args kw => [(args, kw)]
  | _ => []
  end.

(** The result an execution worker has computed and not yet enqueued. *)
Definition thread_results (t : worker_thread) : list value :=
  match wt_pc t with
  | WPutResult r => [r]
  | _ => []
  end.

(** The same three for the result-draining worker. *)
Definition drainer_took_pill (pc : result_pc) : nat :=
  match pc with
  | RGotPill | RExited => 1
  | _ => 0
  end.

Definition drainer_holding (pc : result_pc) : nat :=
  match pc with
  | RGotPill | RGotResult _ | RTaskDone => 1
  | _ => 0
  end.

Definition drainer_results (pc : result_pc) : list value :=
  match pc with
  | RGotResult r => [r]
  | _ => []
  end.

(** The invocations the caller has still to submit. *)
Definition script_payloads (script : list System.command)
    : list (list value * gmap string value) :=
  omap (λ c, match c with System.Execute a k => Some (a, k) | _ => None end) script.

(** The script of a caller that submits [ps] and then stops the worker. *)
Definition submit_then_stop (ps : list (list value * gmap string value))
    : list System.command :=
  ((λ p, System.Execute p.1 p.2) <$> ps) ++ [System.Stop].

(** The pills [stop] has put on the work queue so far, of [N] in all. *)
Definition pills_put (N : nat) (s : System.state) : nat :=
  match System.main s with
  | System.Idle => match System.script s with [] => N | _ => 0 end
  | System.InStop AsyncWorker.StopEnter => 0
  | System.InStop (AsyncWorker.StopPutPills k) => N - k
  | System.InStop _ => N
  | _ => 0
  end.

(** The pills [stop] has put on the result queue so far. *)
Definition result_pills_put (s : System.state) : nat :=
  match System.main s with
  | System.Idle => match System.script s with [] => 1 | _ => 0 end
  | System.InStop AsyncWorker.StopJoinResult => 1
  | _ => 0
  end.

(** Where the caller stands. *)
Definition caller_progress (N : nat) (s : System.state) : Prop :=
  match System.main s with
  | System.Idle =>
      (∃ ps, System.script s = submit_then_stop ps)
      ∨ (System.script s = [] ∧ fully_stopped (System.node s))
  | System.InStop pc =>
      System.script s = [] ∧ joined_so_far pc (System.node s)
      ∧ match pc with AsyncWorker.StopPutPills k => k ≤ N | _ => True end
  | _ => False
  end.

(** The shutdown protocol of [stop], as it shows in every state of a run
    that submits work and then stops a worker with [N] execution workers. *)
Record stop_protocol (N : nat) (s : System.state) : Prop := {
  sp_started : started (System.node s);
  sp_threads : length (threads (System.node s)) = N;
  sp_work_unfinished :
    sum_list_with holding (threads (System.node s))
      + length (qitems (work_queue (System.node s)))
    ≤ unfinished_tasks (work_queue (System.node s));
  sp_result_unfinished :
    drainer_holding (drainer (System.node s))
      + length (qitems (results_queue (System.node s)))
    ≤ unfinished_tasks (results_queue (System.node s));
  sp_pills :
    pills (qitems (work_queue (System.node s)))
      + sum_list_with took_pill (threads (System.node s))
    = pills_put N s;
  sp_result_pills :
    pills (qitems (results_queue (System.node s)))
      + drainer_took_pill (drainer (System.node s))
    = result_pills_put s;
  sp_caller : caller_progress N s }.

(** ** Draining: every submitted invocation is delivered *)

(** The result of calling [f] on payload [p] ([None] where it raises). *)
Definition val_of (f : callable) (p : list value * gmap string value) : value :=
  match f p.1 p.2 with
  | Ok r => r
  | Raise _ => VNone
  end.

(** No observer raises on [r]. *)
Definition accepted (obs : list Observer) (r : value) : Prop :=
  Forall (λ o, observer_notify o r = Ok tt) obs.

(** The target returns on [p], and no observer raises on what it returns. *)
Definition succeeds (f : callable) (obs : list Observer)
    (p : list value * gmap string value) : Prop :=
  ∃ r, f p.1 p.2 = Ok r ∧ accepted obs r.

(** The delivery events of a trace: output notifications and the observer
    notifications of their fan-out. *)
Definition deliveries (tr : list event) : list event :=
  omap (λ e, match e with
             | OutputNotified _ | ObserverNotified _ _ => Some e
             | _ => None
             end) tr.

(** The delivery events of handing [rs] to the output port one after the
    other, every observer being notified of each. *)
Definition full_fan_out (obs : list Observer) (rs : list value) : list event :=
  rs ≫= λ r, OutputNotified r :: ((λ o, ObserverNotified (observer_id o) r) <$> obs).

(** An execution worker that has not crashed and, past its first step,
    has resolved the target [f]. *)
Definition thread_ok (f : callable) (t : worker_thread) : Prop :=
  match wt_pc t with
  | WStart => True
  | WCrashed _ => False
  | _ => wt_target t = Some f
  end.

(** The result-draining worker has not crashed. *)
Definition drainer_ok (pc : result_pc) : Prop :=
  match pc with
  | RCrashed _ => False
  | _ => True
  end.

(** What holds throughout a run that submits [all] and then stops, when
    the target [f] returns on each of them and no observer in [obs] raises:
    every submitted invocation is accounted for exactly once, on its way from
    the caller's script to the output port. *)
Record drain_inv (f : callable) (obs : list Observer) (v0 : value)
    (all : list (list value * gmap string value)) (s : System.state) : Prop := {
  di_observers : observers (System.node s) = obs;
  di_target : (Worker._get_target_func (System.node s)).1 = Ok f;
  di_threads : Forall (thread_ok f) (threads (System.node s));
  di_drainer : drainer_ok (drainer (System.node s));
  di_work_sorted : pills_last (qitems (work_queue (System.node s)));
  di_result_sorted : pills_last (qitems (results_queue (System.node s)));
  di_no_work_after_pill :
    0 < sum_list_with took_pill (threads (System.node s)) →
    payloads (qitems (work_queue (System.node s))) = [];
  di_no_result_after_pill :
    0 < drainer_took_pill (drainer (System.node s)) →
    payloads (qitems (results_queue (System.node s))) = [];
  di_conserved :
    (val_of f <$> (script_payloads (System.script s)
                   ++ payloads (qitems (work_queue (System.node s)))
                   ++ (threads (System.node s) ≫= thread_payloads)))
    ++ (threads (System.node s) ≫= thread_results)
    ++ payloads (qitems (results_queue (System.node s)))
    ++ drainer_results (drainer (System.node s))
    ++ outputs (trace (System.node s))
    ≡ₚ val_of f <$> all;
  di_will_succeed :
    Forall (succeeds f obs)
      (script_payloads (System.script s)
       ++ payloads (qitems (work_queue (System.node s)))
       ++ (threads (System.node s) ≫= thread_payloads));
  di_will_deliver :
    Forall (accepted obs)
      ((threads (System.node s) ≫= thread_results)
       ++ payloads (qitems (results_queue (System.node s)))
       ++ drainer_results (drainer (System.node s)));
  di_deliveries :
    deliveries (trace (System.node s)) = full_fan_out obs (outputs (trace (System.node s)));
  di_value :
    _value (System.node s) = default v0 (last (outputs (trace (System.node s)))) }.

(** A node whose worker has just been started, observed from then on, and a
    caller about to submit [ps] and then stop the worker. *)
Definition submitted (n0 : Node) (ps : list (list value * gmap string value))
    : System.state :=
  {| System.node := set_trace [] (Node.start n0).2;
     System.main := System.Idle;
     System.script := submit_then_stop ps |}.

(** ** A bound on the moves that are left *)

(** What an execution worker at a control point can still do on its own. *)
Definition worker_weight (t : worker_thread) : nat :=
  match wt_pc t with
  | WStart => 2
  | WGet => 1
  | WGotPill => 1
  | WGotPayload _ _ => 8
  | WPutResult _ => 7
  | WTaskDone => 2
  | WExited | WCrashed _ => 0
  end.

(** The same for the result-draining worker. *)
Definition drainer_weight (pc : result_pc) : nat :=
  match pc with
  | RGet => 1
  | RGotPill => 1
  | RGotResult _ => 3
  | RTaskDone => 2
  | RExited | RCrashed _ => 0
  end.

(** What the caller has still to do inside [stop], with [N] execution
    workers: every pill it is about to put counts as a queued item. *)
Definition stop_weight (N : nat) (pc : AsyncWorker.stop_pc) : nat :=
  match pc with
  | AsyncWorker.StopEnter => 11 * N + 9
  | AsyncWorker.StopPutPills k => 10 * k + N + 8
  | AsyncWorker.StopJoinWorkers i => (N - i) + 7
  | AsyncWorker.StopPutResultPill => 6
  | AsyncWorker.StopJoinResult => 1
  end.

(** What a call the caller has still to make will cost. *)
Definition command_weight (N : nat) (c : System.command) : nat :=
  match c with
  | System.Execute _ _ => 10
  | System.Stop => 11 * N + 10
  | System.Join => 3
  end.

(** What the call the caller is in has still to do. *)
Definition caller_weight (N : nat) (m : System.main_pc) : nat :=
  match m with
  | System.Idle | System.Raised _ => 0
  | System.InStop pc => stop_weight N pc
  | System.InJoin AsyncWorker.JoinWorkerQueue => 2
  | System.InJoin AsyncWorker.JoinResultQueue => 1
  end.

(** A number that every move of every thread makes smaller: a queued work
    item counts 9, a queued result 4. *)
Definition work_left (s : System.state) : nat :=
  let n := System.node s in
  let N := length (threads n) in
  caller_weight N (System.main s)
  + sum_list_with (command_weight N) (System.script s)
  + sum_list_with worker_weight (threads n)
  + drainer_weight (drainer n)
  + 9 * length (qitems (work_queue n))
  + 4 * length (qitems (results_queue n)).

(** The moves a schedule makes from [s]: the turns that are not passed over. *)
Fixpoint moves (sched : list System.tid) (s : System.state) : nat :=
  match sched with
  | [] => 0
  | t :: rest =>
      match System.step t s with
      | Some s' => S (moves rest s')
      | None => moves rest s
      end
  end.

(** ** [join] after a failed invocation *)

(** A caller that submits one invocation and then joins. *)
Definition submit_then_join (n0 : Node) (args : list value) (kw : gmap string value)
    : System.state :=
  {| System.node := (Node.start n0).2;
     System.main := System.Idle;
     System.script := [System.Execute args kw; System.Join] |}.

(** What an execution worker can be doing while the only work item ever
    submitted is [(args, kw)], on which the target raises. *)
Definition only_fails (f : callable) (args : list value) (kw : gmap string value)
    (t : worker_thread) : Prop :=
  match wt_pc t with
  | WStart => True
  | WGet => wt_target t = Some f
  | WGotPayload a k => wt_target t = Some f ∧ a = args ∧ k = kw
  | _ => False
  end.

(** What holds throughout a run that submits [(args, kw)], on which the
    target raises, and then joins. *)
Record join_blocked_inv (f : callable) (args : list value) (kw : gmap string value)
    (s : System.state) : Prop := {
  jb_started : started (System.node s);
  jb_target : (Worker._get_target_func (System.node s)).1 = Ok f;
  jb_threads : Forall (only_fails f args kw) (threads (System.node s));
  jb_work : Forall (λ x, x = Item (args, kw)) (qitems (work_queue (System.node s)));
  jb_results : qitems (results_queue (System.node s)) = [];
  jb_drainer : drainer (System.node s) = RGet;
  jb_caller :
    match System.main s, System.script s with
    | System.Idle, [System.Execute a k; System.Join] =>
        a = args ∧ k = kw ∧ unfinished_tasks (work_queue (System.node s)) = 0
    | System.Idle, [System.Join] | System.InJoin AsyncWorker.JoinWorkerQueue, [] =>
        unfinished_tasks (work_queue (System.node s)) = 1
    | _, _ => False
    end }.

(** [join] has not returned: it is still to be called, or blocks on the work
    queue. *)
Definition join_pending (s : System.state) : Prop :=
  System.Join ∈ System.script s
  ∨ System.main s = System.InJoin AsyncWorker.JoinWorkerQueue.

(** ** Graph shutdown, from the call of [stop] *)

(** Every asynchronous worker of the graph has been started. *)
Definition async_started (g : Graph) : Prop :=
  ∀ i n, nodes g !! i = Some n → is_async n = true → started n.

(** The graph at the call of [stop]. *)
Definition stopping (g : Graph) : Graph.state :=
  {| Graph.graph := g; Graph.main := Graph.StopEnter |}.

(** The worker has not been started. *)
Definition unstarted (n : Node) : Prop :=
  match worker n with
  | WSync w => isStarted w = false
  | WAsync a => worker_queue a = None
  end.

(** What is logged when an unstarted worker is asked to execute. *)
Definition unstarted_log (n : Node) : list event :=
  match worker n with
  | WSync _ =>
      sync_failure_log (Exception "SyncWorker.execute called, even though it is not started.")
  | WAsync _ =>
      worker_failure_log (AttributeError "'NoneType' object has no attribute 'put'")
  end.

(** The node has a work target to resolve: a function or a class. *)
Definition can_resolve (n : Node) : Prop :=
  is_Some (target_func n) ∨ is_Some (target_class n).

(** A node right after [start]: a synchronous worker holds its resolved
    target; an asynchronous one has empty queues of the class that goes
    with its backing, its execution workers at the top of [_worker] and
    its result-draining worker waiting. *)
Definition just_started (n : Node) : Prop :=
  match worker n with
  | WSync w => isStarted w = true ∧ Ok <$> target w = Some (Worker._get_target_func n).1
  | WAsync a =>
      started n
      ∧ threads n = replicate (num_threads a) (thread None WStart)
      ∧ drainer n = RGet
      ∧ work_queue n = JQ.new (_get_queue_class (async_class a))
      ∧ results_queue n = JQ.new (_get_queue_class (async_class a))
  end.

(** What [FunctionInfo] reports about the target the constructor is given. *)
Definition target_info_of (a : Node.NodeArgs) : option FunctionInfo :=
  match Node.a_target_func a, Node.a_target_class a with
  | Some f, None => Some (fn_info f)
  | _, Some c => Some (execute_info c)
  | None, None => None
  end.

(** The upstream nodes given positionally. *)
Definition upstream_nodes (a : Node.NodeArgs) : list nat :=
  match Node.a_node_args a with
  | Some (Node.UpstreamOne u) => [u]
  | Some (Node.UpstreamList us) => us
  | None => []
  end.

(** The script of a caller that submits [ps] and then joins. *)
Definition submit_all_then_join (ps : list (list value * gmap string value))
    : list System.command :=
  ((λ p, System.Execute p.1 p.2) <$> ps) ++ [System.Join].

(** A node whose worker has just been started, observed from then on, and a
    caller about to submit [ps] and then join. *)
Definition joining (n0 : Node) (ps : list (list value * gmap string value))
    : System.state :=
  {| System.node := set_trace [] (Node.start n0).2;
     System.main := System.Idle;
     System.script := submit_all_then_join ps |}.

(** [join] only looks at the queues: as far as the node goes, a caller
    inside [join] is a caller that has not yet called [stop]. *)
Definition before_stop (s : System.state) : System.state :=
  {| System.node := System.node s;
     System.main := System.Idle;
     System.script := submit_then_stop (script_payloads (System.script s)) |}.

(** The counts of unfinished tasks while no invocation fails and no pill is
    around, and what the caller of [join] has seen of them. *)
Record join_accounts (s : System.state) : Prop := {
  ja_work :
    unfinished_tasks (work_queue (System.node s))
    = sum_list_with holding (threads (System.node s))
      + length (qitems (work_queue (System.node s)));
  ja_result :
    unfinished_tasks (results_queue (System.node s))
    = drainer_holding (drainer (System.node s))
      + length (qitems (results_queue (System.node s)));
  ja_caller :
    match System.main s with
    | System.Idle =>
        (∃ ps, System.script s = submit_all_then_join ps)
        ∨ (System.script s = []
           ∧ unfinished_tasks (work_queue (System.node s)) = 0
           ∧ unfinished_tasks (results_queue (System.node s)) = 0)
    | System.InJoin AsyncWorker.JoinWorkerQueue => System.script s = []
    | System.InJoin AsyncWorker.JoinResultQueue =>
        System.script s = [] ∧ unfinished_tasks (work_queue (System.node s)) = 0
    | _ => False
    end }.

(** What holds throughout a run that submits [all] and then joins, when the
    target [f] returns on each of them and no observer in [obs] raises. *)
Definition join_inv (f : callable) (obs : list Observer) (v0 : value)
    (all : list (list value * gmap string value)) (N : nat) (s : System.state) : Prop :=
  stop_protocol N (before_stop s)
  ∧ drain_inv f obs v0 all (before_stop s)
  ∧ join_accounts s.

(** What the target returns on a payload, if it returns. *)
Definition result_of (f : callable) (p : list value * gmap string value) : option value :=
  match f p.1 p.2 with
  | Ok r => Some r
  | Raise _ => None
  end.

(** The results of the payloads on which the target returns, in order. *)
Definition results_of (f : callable) (ps : list (list value * gmap string value))
    : list value :=
  omap (result_of f) ps.

(** A caller that goes through an arbitrary script of calls on a node whose
    worker has just been started. *)
Definition scripted (n0 : Node) (script : list System.command) : System.state :=
  {| System.node := set_trace [] (Node.start n0).2;
     System.main := System.Idle;
     System.script := script |}.

(** With a single execution worker, every result is in its place: those
    delivered, then the one being delivered, those queued, the one computed,
    and then what the payloads still on their way will give. *)
Record fifo_inv (f : callable) (all : list (list value * gmap string value))
    (s : System.state) : Prop := {
  ff_started : started (System.node s);
  ff_target : (Worker._get_target_func (System.node s)).1 = Ok f;
  ff_single :
    ∃ t, threads (System.node s) = [t] ∧ (wt_pc t = WStart ∨ wt_target t = Some f);
  ff_order :
    outputs (trace (System.node s))
    ++ drainer_results (drainer (System.node s))
    ++ payloads (qitems (results_queue (System.node s)))
    ++ (threads (System.node s) ≫= thread_results)
    ++ results_of f ((threads (System.node s) ≫= thread_payloads)
                     ++ payloads (qitems (work_queue (System.node s)))
                     ++ script_payloads (System.script s))
    = results_of f all;
  ff_calls :
    target_calls (trace (System.node s))
    ++ (threads (System.node s) ≫= thread_payloads)
    ++ payloads (qitems (work_queue (System.node s)))
    ++ script_payloads (System.script s)
    = all }.

(** No observer raises on what the target returns on [p], if it returns. *)
Definition deliverable (f : callable) (obs : list Observer)
    (p : list value * gmap string value) : Prop :=
  ∀ r, f p.1 p.2 = Ok r → accepted obs r.

(** What holds throughout a run that submits [all] and then stops, when no
    observer in [obs] raises on a result: every submitted invocation is
    called once, and what it returns, if it returns, is accounted for exactly
    once on its way to the output port. *)
Record flow_inv (f : callable) (obs : list Observer) (v0 : value)
    (all : list (list value * gmap string value)) (s : System.state) : Prop := {
  fl_observers : observers (System.node s) = obs;
  fl_target : (Worker._get_target_func (System.node s)).1 = Ok f;
  fl_threads : Forall (thread_ok f) (threads (System.node s));
  fl_drainer : drainer_ok (drainer (System.node s));
  fl_work_sorted : pills_last (qitems (work_queue (System.node s)));
  fl_result_sorted : pills_last (qitems (results_queue (System.node s)));
  fl_no_work_after_pill :
    0 < sum_list_with took_pill (threads (System.node s)) →
    payloads (qitems (work_queue (System.node s))) = [];
  fl_no_result_after_pill :
    0 < drainer_took_pill (drainer (System.node s)) →
    payloads (qitems (results_queue (System.node s))) = [];
  fl_conserved :
    results_of f (script_payloads (System.script s)
                  ++ payloads (qitems (work_queue (System.node s)))
                  ++ (threads (System.node s) ≫= thread_payloads))
    ++ (threads (System.node s) ≫= thread_results)
    ++ payloads (qitems (results_queue (System.node s)))
    ++ drainer_results (drainer (System.node s))
    ++ outputs (trace (System.node s))
    ≡ₚ results_of f all;
  fl_called :
    script_payloads (System.script s)
    ++ payloads (qitems (work_queue (System.node s)))
    ++ (threads (System.node s) ≫= thread_payloads)
    ++ target_calls (trace (System.node s))
    ≡ₚ all;
  fl_deliverable :
    Forall (deliverable f obs)
      (script_payloads (System.script s)
       ++ payloads (qitems (work_queue (System.node s)))
       ++ (threads (System.node s) ≫= thread_payloads));
  fl_will_deliver :
    Forall (accepted obs)
      ((threads (System.node s) ≫= thread_results)
       ++ payloads (qitems (results_queue (System.node s)))
       ++ drainer_results (drainer (System.node s)));
  fl_deliveries :
    deliveries (trace (System.node s)) = full_fan_out obs (outputs (trace (System.node s)));
  fl_value :
    _value (System.node s) = default v0 (last (outputs (trace (System.node s)))) }.

(** ** Sample programs *)

(** A target of two positional parameters. *)
Definition arity_two : pyfunc :=
  {| fn_call := λ _ _, Ok VNone; fn_info := {| num_args := 2; kwargs := [] |} |}.

(** The constructor called with a target function and, at most, defaults. *)
Definition plain_args (f : pyfunc) (defaults : option (list value)) : Node.NodeArgs :=
  {| Node.a_target_func := Some f; Node.a_target_class := None;
     Node.a_target_class_args := None; Node.a_target_class_kwargs := None;
     Node.a_reactive_input_ports := Node.PortsNone;
     Node.a_default_reactive_input_values := defaults;
     Node.a_node_args := None; Node.a_node_kwargs := None;
     Node.a_name := None; Node.a_node_worker_class := None |}.

(** A target that raises on every input. *)
Definition always_raises : callable := λ _ _, Raise (ValueError "bad input").

(** A node of one reactive port with an asynchronous worker of [threads]
    execution workers, not yet started. *)
Definition async_node (f : callable) (threads : nat) (obs : list Observer) : Node :=
  {| target_func := Some {| fn_call := f; fn_info := {| num_args := 1; kwargs := [] |} |};
     target_class := None; target_class_args := []; target_class_kwargs := ∅;
     reactive_input_ports := [ArgInputPort (Some 0%Z)];
     reactive_input_values := [VNone];
     passive_input_ports := ∅; passive_input_values := ∅;
     observers := obs; name := None; _value := VNone;
     worker := WAsync (AsyncWorker.new Thread threads);
     trace := [] |}.

(** The caller, two execution workers and the result-draining worker take
    turns, [rounds] times. *)
Definition round_robin (rounds : nat) : list System.tid :=
  concat (replicate rounds [System.TMain; System.TWorker 0; System.TWorker 1; System.TResult]).

(** A target that doubles its one integer argument. *)
Definition double : callable := λ args _,
  match args with
  | [VInt z] => Ok (VInt (2 * z))
  | _ => Raise (TypeError "unsupported operand")
  end.

(** An observer that takes everything. *)
Definition quiet_observer (id : nat) : Observer :=
  {| observer_id := id; observer_notify := λ _, Ok tt |}.

(** An observer that cannot take the value [bad], as a mapping port cannot
    iterate a number. *)
Definition picky_observer (id : nat) (bad : Z) : Observer :=
  {| observer_id := id;
     observer_notify := λ v,
       match v with
       | VInt z => if bool_decide (z = bad) then Raise (TypeError "object is not iterable") else Ok tt
       | _ => Ok tt
       end |}.

(** Three invocations, of 1, 2 and 3. *)
Definition one_two_three : list (list value * gmap string value) :=
  [([VInt 1], ∅); ([VInt 2], ∅); ([VInt 3], ∅)].

(** A node of one reactive port with a synchronous worker, not yet started. *)
Definition sync_node (f : callable) : Node :=
  set_worker (WSync SyncWorker.new) (async_node f 0 []).

(** An asynchronous node followed by a synchronous one. *)
Definition pipeline : Graph :=
  Graph.set_nodes [async_node double 1 []; sync_node double] (Graph.new (Some "g")).



(** The target of the fault-isolation example: fails on zero. *)
Definition reciprocal_scale : callable := λ args _,
  match args with
  | [VInt 0%Z] => Raise (ValueError "division by zero")
  | [VInt z] => Ok (VInt (100 / z))
  | _ => Raise (TypeError "unsupported operand")
  end.

(** A started node with a synchronous worker, observed from then on. *)
Definition started_sync_node (f : callable) (obs : list Observer) : Node :=
  set_trace [] (Node.start (set_worker (WSync SyncWorker.new) (async_node f 0 obs))).2.

(** Its worker. *)
Definition started_sync (f : callable) : SyncWorker :=
  {| target := Some f; isStarted := true |}.

(** A started synchronous node of one reactive port. *)
Definition batch_node : Node :=
  set_reactive_input_values [VNone]
    (started_sync_node (λ _ _, Ok VNone) []).

(** A node built by the constructor from a target of two parameters, then
    started. *)
Definition two_port_node : Node :=
  match Node.__init__ (plain_args arity_two None) with
  | Ok (n, _) => (Node.start n).2
  | Raise _ => sync_node double
  end.

(** The constructor called with a target function and upstream nodes. *)
Definition wired_args (f : pyfunc) (us : list nat) : Node.NodeArgs :=
  {| Node.a_target_func := Some f; Node.a_target_class := None;
     Node.a_target_class_args := None; Node.a_target_class_kwargs := None;
     Node.a_reactive_input_ports := Node.PortsNone;
     Node.a_default_reactive_input_values := None;
     Node.a_node_args := Some (Node.UpstreamList us); Node.a_node_kwargs := None;
     Node.a_name := None; Node.a_node_worker_class := None |}.

(** [add(a, b=10)] *)
Definition add_func : pyfunc :=
  {| fn_call := λ args kw,
       match args, kw !! "b" with
       | [VInt a], Some (VInt b) => Ok (VInt (a + b))
       | _, _ => Raise (TypeError "unsupported operand")
       end;
     fn_info := {| num_args := 1; kwargs := [("b", VInt 10)] |} |}.

(** The constructor called with a target function and upstream nodes by
    keyword. *)
Definition keyword_wired_args (f : pyfunc) (kus : list (string * nat)) : Node.NodeArgs :=
  {| Node.a_target_func := Some f; Node.a_target_class := None;
     Node.a_target_class_args := None; Node.a_target_class_kwargs := None;
     Node.a_reactive_input_ports := Node.PortsNone;
     Node.a_default_reactive_input_values := None;
     Node.a_node_args := None; Node.a_node_kwargs := Some kus;
     Node.a_name := None; Node.a_node_worker_class := None |}.

(** The constructor called with a target function and one port, not in a
    list. *)
Definition single_port_args (f : pyfunc) (p : InputPort) : Node.NodeArgs :=
  {| Node.a_target_func := Some f; Node.a_target_class := None;
     Node.a_target_class_args := None; Node.a_target_class_kwargs := None;
     Node.a_reactive_input_ports := Node.PortsSingle p;
     Node.a_default_reactive_input_values := None;
     Node.a_node_args := None; Node.a_node_kwargs := None;
     Node.a_name := None; Node.a_node_worker_class := None |}.

(** The node of [add(a, b=10)], constructed and started. *)
Definition add_node : Node :=
  match Node.__init__ (plain_args add_func None) with
  | Ok (n, _) => (Node.start n).2
  | Raise _ => sync_node double
  end.

(** One execution worker, a caller and the result-draining worker take
    turns, the caller last. *)
Definition worker_first (rounds : nat) : list System.tid :=
  concat (replicate rounds [System.TWorker 0; System.TResult; System.TMain]).

(** * Theorems *)

(** ** Calls of the synchronous worker *)

Lemma set_trace_set_trace t1 t2 n : set_trace t1 (set_trace t2 n) = set_trace t1 n.
Proof. reflexivity. Qed.

Lemma set_trace_id n : set_trace (trace n) n = n.
Proof. by destruct n. Qed.

Lemma notify_observers_eq obs d n :
  OutputPort.notify_observers obs d n =
  ((fan_out obs d).2, set_trace (trace n ++ (fan_out obs d).1) n).
Proof.
  revert n. induction obs as [|o obs IH]; intros n; simpl.
  - unfold ret. by rewrite app_nil_r, set_trace_id.
  - unfold bind, modify, lift. simpl.
    destruct (observer_notify o d) as [[]|e]; simpl.
    + rewrite IH. destruct (fan_out obs d) as [es r]; simpl.
      unfold emit. simpl. by rewrite <- app_assoc.
    + done.
Qed.

Lemma _handle_result_eq r n :
  Worker._handle_result r n =
  ((fan_out (observers n) r).2,
   set_trace (trace n ++ OutputNotified r :: (fan_out (observers n) r).1) (set__value r n)).
Proof.
  unfold Worker._handle_result, OutputPort.notify, set_value, bind, modify, gets. simpl.
  rewrite notify_observers_eq. simpl. by rewrite <- app_assoc.
Qed.

Ltac node_eq :=
  unfold emit, set_trace, set__value, set_worker, set_reactive_input_values,
    set_passive_input_values; simpl;
  f_equal; rewrite <- ?app_assoc, ?app_nil_r; try done.

Ltac run_m :=
  repeat (progress (unfold try_except, bind, modify, lift, log_error, gets, ret, raise,
                      set_value, get_value; simpl)).

Lemma SyncWorker_execute_started f args kw n :
  SyncWorker.execute {| target := Some f; isStarted := true |} args kw n =
  (Ok tt,
   match f args kw with
   | Raise e => set_trace (trace n ++ TargetCalled args kw :: sync_failure_log e) n
   | Ok r =>
       let '(es, out) := fan_out (observers n) r in
       set_trace (trace n ++ TargetCalled args kw :: OutputNotified r :: es ++
                    match out with Ok _ => [] | Raise e => sync_failure_log e end)
         (set__value r n)
   end).
Proof.
  unfold SyncWorker.execute, Worker.call. run_m.
  destruct (f args kw) as [r|e]; run_m.
  - rewrite _handle_result_eq. simpl.
    destruct (fan_out (observers n) r) as [es [[]|e]]; run_m; f_equal; node_eq.
  - f_equal. node_eq.
Qed.

Lemma SyncWorker_execute_unstarted t args kw n :
  SyncWorker.execute {| target := t; isStarted := false |} args kw n =
  (Ok tt,
   set_trace (trace n ++ sync_failure_log
     (Exception "SyncWorker.execute called, even though it is not started.")) n).
Proof. unfold SyncWorker.execute. run_m. f_equal. node_eq. Qed.

(** ** What [handle_input] does after caching *)

Lemma fan_out_all_ok obs r :
  Forall (λ o, observer_notify o r = Ok tt) obs →
  fan_out obs r = (map (λ o, ObserverNotified (observer_id o) r) obs, Ok tt).
Proof.
  induction 1 as [|o obs Ho _ IH]; simpl; [done|]. by rewrite Ho, IH.
Qed.

Lemma fan_out_raises obs r o e :
  o ∈ obs → observer_notify o r = Raise e → ∃ e', (fan_out obs r).2 = Raise e'.
Proof.
  induction obs as [|o' obs IH]; intros Hin Ho; [by apply elem_of_nil in Hin|].
  simpl. destruct (observer_notify o' r) as [[]|e'] eqn:Ho'; [|by eexists].
  apply elem_of_cons in Hin as [->|Hin]; [congruence|].
  destruct (IH Hin Ho) as [e' He']. exists e'.
  by destruct (fan_out obs r).
Qed.

Lemma target_calls_app t1 t2 : target_calls (t1 ++ t2) = target_calls t1 ++ target_calls t2.
Proof. apply omap_app. Qed.

Lemma outputs_app t1 t2 : outputs (t1 ++ t2) = outputs t1 ++ outputs t2.
Proof. apply omap_app. Qed.

Lemma target_calls_fan_out obs r : target_calls (fan_out obs r).1 = [].
Proof.
  induction obs as [|o obs IH]; simpl; [done|].
  destruct (observer_notify o r); [|done].
  by destruct (fan_out obs r).
Qed.

Lemma handle_input_trigger data idx n :
  Node.handle_input data idx None n =
  match idx with
  | Some i =>
      match list_setitem (reactive_input_values n) i data with
      | Ok vals =>
          (Ok tt, after_execute vals (passive_input_values n)
                    (set_reactive_input_values vals n))
      | Raise e => (Raise e, n)
      end
  | None => (Ok tt, after_execute (reactive_input_values n) (passive_input_values n) n)
  end.
Proof.
  unfold Node.handle_input, after_execute. destruct idx as [i|]; run_m.
  - destruct (list_setitem _ _ _) as [vals|e]; run_m; [|done].
    destruct (Node.worker_execute _ _ _) as [[[]|e] n']; [done|].
    f_equal. node_eq.
  - destruct (Node.worker_execute _ _ _) as [[[]|e] n']; [done|].
    f_equal. node_eq.
Qed.

Lemma list_setitem_in_range {A} (l : list A) (i : Z) (x : A) :
  (0 ≤ i < Z.of_nat (length l))%Z →
  list_setitem l i x = Ok (<[Z.to_nat i := x]> l).
Proof.
  intros Hi. unfold list_setitem, py_index. by rewrite decide_True.
Qed.

(** What the call of the worker does, by kind of worker. *)
Lemma after_execute_sync n w f args kw :
  worker n = WSync w → isStarted w = true → target w = Some f →
  target_calls (trace (after_execute args kw n)) = target_calls (trace n) ++ [(args, kw)]
  ∧ reactive_input_values (after_execute args kw n) = reactive_input_values n
  ∧ passive_input_values (after_execute args kw n) = passive_input_values n.
Proof.
  intros Hw Hs Ht. unfold after_execute, Node.worker_execute. run_m. rewrite Hw.
  destruct w as [t s]; simpl in *; subst.
  rewrite SyncWorker_execute_started.
  destruct (f args kw) as [r|e]; simpl.
  - destruct (fan_out (observers n) r) as [es out] eqn:Hf; simpl.
    split; [|done].
    rewrite target_calls_app. f_equal. simpl. f_equal.
    change (target_calls (es ++ match out with Ok _ => [] | Raise e => sync_failure_log e end) = []).
    rewrite target_calls_app.
    pose proof (target_calls_fan_out (observers n) r) as H. rewrite Hf in H. simpl in H.
    rewrite H. by destruct out.
  - split; [|done]. by rewrite target_calls_app.
Qed.

Lemma after_execute_async n a q args kw :
  worker n = WAsync a → worker_queue a = Some q →
  after_execute args kw n =
  set_worker (WAsync (set_worker_queue (JQ.put (Item (args, kw)) q) a)) n.
Proof.
  intros Hw Hq. unfold after_execute, Node.worker_execute, AsyncWorker.execute.
  run_m. rewrite Hw, Hq. by run_m.
Qed.

(** ** Batch ports *)

Arguments Node.handle_input : simpl never.

Arguments Node.worker_execute : simpl never.

Arguments SyncWorker.execute : simpl never.

Lemma ceil_div_step d s : 0 < s → 0 < d → ceil_div d s = S (ceil_div (d - s) s).
Proof.
  intros Hs Hd. unfold ceil_div.
  replace (d + s - 1) with ((d - 1) + 1 * s) by lia.
  rewrite Nat.div_add by lia.
  destruct (decide (s ≤ d)) as [Hle|Hlt].
  - replace (d - s + s - 1) with (d - 1) by lia. lia.
  - replace (d - s + s - 1) with (s - 1) by lia.
    rewrite !Nat.div_small by lia. lia.
Qed.

Lemma ceil_div_0 s : 0 < s → ceil_div 0 s = 0.
Proof. intros Hs. unfold ceil_div. apply Nat.div_small. lia. Qed.

Lemma ceil_div_covers d s : 0 < s → d ≤ ceil_div d s * s.
Proof.
  intros Hs. unfold ceil_div.
  pose proof (Nat.div_mod_eq (d + s - 1) s) as H.
  pose proof (Nat.mod_upper_bound (d + s - 1) s ltac:(lia)) as H'.
  nia.
Qed.

Lemma ceil_div_tight d s : 0 < s → 0 < d → (ceil_div d s - 1) * s < d.
Proof.
  intros Hs Hd. unfold ceil_div.
  pose proof (Nat.div_mod_eq (d + s - 1) s) as H.
  pose proof (Nat.mod_upper_bound (d + s - 1) s ltac:(lia)) as H'.
  nia.
Qed.

Lemma range_from_spec fuel i stop step :
  0 < step → stop - i ≤ fuel →
  InputPort.range_from fuel i stop step =
  map (λ j, i + j * step) (seq 0 (ceil_div (stop - i) step)).
Proof.
  intros Hs. revert i. induction fuel as [|fuel IH]; intros i Hf; simpl.
  - replace (stop - i) with 0 by lia. by rewrite ceil_div_0.
  - case_decide as Hi.
    + rewrite ceil_div_step by lia. simpl. f_equal; [lia|].
      rewrite IH by lia. rewrite <- seq_shift, map_map.
      replace (stop - i - step) with (stop - (i + step)) by lia.
      apply map_ext. intros j. lia.
    + replace (stop - i) with 0 by lia. by rewrite ceil_div_0.
Qed.

Lemma chunks_eq (s : Z) (l : list value) :
  (1 ≤ s)%Z →
  InputPort.chunks s (VList l) =
  Ok (map (λ j, VList (take (Z.to_nat s) (drop (j * Z.to_nat s) l)))
          (seq 0 (ceil_div (length l) (Z.to_nat s)))).
Proof.
  intros Hs. unfold InputPort.chunks, InputPort.range, InputPort.slice.
  rewrite decide_False by lia. rewrite decide_False by lia.
  rewrite range_from_spec by lia. rewrite Nat.sub_0_r, map_map. done.
Qed.

Lemma chunks_concat (s m : nat) (l : list value) :
  length l ≤ m * s →
  concat (map (λ j, take s (drop (j * s) l)) (seq 0 m)) = l.
Proof.
  revert l. induction m as [|m IH]; intros l Hl; simpl.
  - destruct l; [done|simpl in Hl; lia].
  - rewrite <- seq_shift, map_map.
    transitivity (take s l ++ drop s l); [|apply take_drop].
    f_equal.
    rewrite <- (IH (drop s l)) by (rewrite length_drop; lia).
    f_equal. apply map_ext. intros j. rewrite drop_drop. by do 2 f_equal.
Qed.

Lemma set__value_id n : set__value (_value n) n = n.
Proof. by destruct n. Qed.

Lemma sync_execute_frame w args kw n :
  ∃ tr v, SyncWorker.execute w args kw n = (Ok tt, set_trace (trace n ++ tr) (set__value v n)).
Proof.
  destruct w as [[f|] [|]].
  - rewrite SyncWorker_execute_started.
    destruct (f args kw) as [r|e].
    + destruct (fan_out _ _) as [es out]. by eexists _, _.
    + eexists _, (_value n). by rewrite set__value_id.
  - rewrite SyncWorker_execute_unstarted.
    eexists _, (_value n). by rewrite set__value_id.
  - unfold SyncWorker.execute, Worker.call. run_m.
    eexists [_; _], (_value n). f_equal. node_eq.
  - rewrite SyncWorker_execute_unstarted.
    eexists _, (_value n). by rewrite set__value_id.
Qed.

Lemma after_execute_inputs args kw n :
  reactive_input_values (after_execute args kw n) = reactive_input_values n
  ∧ passive_input_values (after_execute args kw n) = passive_input_values n.
Proof.
  unfold after_execute, Node.worker_execute. run_m.
  destruct (worker n) as [w|a].
  - destruct (sync_execute_frame w args kw n) as (tr & v & ->). done.
  - unfold AsyncWorker.execute. destruct (worker_queue a); by run_m.
Qed.

Lemma handle_input_valid c idx n :
  valid_idx idx n →
  ∃ n', Node.handle_input c idx None n = (Ok tt, n')
        ∧ length (reactive_input_values n') = length (reactive_input_values n).
Proof.
  intros Hv. rewrite handle_input_trigger. destruct idx as [i|]; simpl in Hv.
  - unfold list_setitem. destruct Hv as [p ->].
    eexists. split; [done|].
    rewrite (proj1 (after_execute_inputs _ _ _)). simpl. apply length_insert.
  - eexists. split; [done|]. by rewrite (proj1 (after_execute_inputs _ _ _)).
Qed.

Lemma for_each_handle_input idx cs n :
  valid_idx idx n →
  for_each cs (λ c, Node.handle_input c idx None) n = (Ok tt, trigger_all idx cs n).
Proof.
  revert n. induction cs as [|c cs IH]; intros n Hv; simpl; [done|].
  unfold bind. destruct (handle_input_valid c idx n Hv) as (n' & Hn' & Hlen).
  rewrite Hn'. simpl. apply IH.
  destruct idx; [|done]. simpl in *. by rewrite Hlen.
Qed.

Lemma trigger_all_sync (i : Z) cs n w f :
  worker n = WSync w → isStarted w = true → target w = Some f →
  (0 ≤ i < Z.of_nat (length (reactive_input_values n)))%Z →
  target_calls (trace (trigger_all (Some i) cs n)) =
  target_calls (trace n) ++
    map (λ c, (<[Z.to_nat i := c]> (reactive_input_values n), passive_input_values n)) cs.
Proof.
  revert n. induction cs as [|c cs IH]; intros n Hw Hs Ht Hi; simpl.
  - by rewrite app_nil_r.
  - rewrite handle_input_trigger, list_setitem_in_range by done. simpl.
    set (vals := <[Z.to_nat i := c]> (reactive_input_values n)).
    set (n1 := set_reactive_input_values vals n).
    destruct (after_execute_sync n1 w f vals (passive_input_values n)) as (Hc & Hr & Hp);
      try done.
    assert (Hw2 : worker (after_execute vals (passive_input_values n) n1) = WSync w).
    { unfold after_execute, Node.worker_execute. run_m. rewrite Hw.
      destruct (sync_execute_frame w vals (passive_input_values n) n1) as (tr & v & ->).
      done. }
    rewrite IH; try done.
    + rewrite Hc, Hr, Hp. simpl. rewrite <- app_assoc. simpl. do 2 f_equal.
      apply map_ext. intros c'. unfold vals. by rewrite list_insert_insert_eq.
    + rewrite Hr. simpl. unfold vals. by rewrite length_insert.
Qed.

(** C5 (batch chunking): a [BatchArgInputPort] of size [s >= 1] cuts a
    payload of length [L] into [ceil (L / s)] contiguous chunks, chunk [j]
    being the [s] items from position [j * s]; their concatenation is the
    payload, every chunk has between one and [s] items, and only the last
    may have fewer than [s].  [notify] calls [handle_input] once per chunk,
    in payload order, so a started synchronous worker calls its target once
    per chunk, in that order, with the chunk at the port's index. *)
Theorem batch_port_chunks_in_order (s : Z) (idx : option Z) (l : list value) (n : Node) :
  (1 ≤ s)%Z → valid_idx idx n →
  let size := Z.to_nat s in
  let cs := map (λ j, take size (drop (j * size) l)) (seq 0 (ceil_div (length l) size)) in
  InputPort.chunks s (VList l) = Ok (map VList cs)
  ∧ length cs = ceil_div (length l) size
  ∧ concat cs = l
  ∧ (∀ j c, cs !! j = Some c →
       1 ≤ length c ≤ size ∧ (S j < length cs → length c = size))
  ∧ InputPort.notify Node.handle_input (BatchArgInputPort s idx) (VList l) n =
      (Ok tt, trigger_all idx (map VList cs) n)
  ∧ (∀ i w f, idx = Some i → (0 ≤ i)%Z →
       worker n = WSync w → isStarted w = true → target w = Some f →
       target_calls (trace (trigger_all idx (map VList cs) n)) =
       target_calls (trace n) ++
         map (λ c, (<[Z.to_nat i := VList c]> (reactive_input_values n),
                    passive_input_values n)) cs).
Proof.
  intros Hs Hv size cs.
  assert (Hsize : 0 < size) by (unfold size; lia).
  assert (Hch : InputPort.chunks s (VList l) = Ok (map VList cs)).
  { rewrite chunks_eq by done. unfold cs. by rewrite map_map. }
  assert (Hlen : length cs = ceil_div (length l) size).
  { unfold cs. by rewrite length_map, length_seq. }
  split_and!; try done.
  - apply chunks_concat. by apply ceil_div_covers.
  - intros j c Hj. rewrite Hlen.
    unfold cs in Hj. change (map ?f ?l) with (f <$> l) in Hj.
    rewrite list_lookup_fmap in Hj.
    destruct (seq 0 _ !! j) as [j'|] eqn:Hseq; [|done].
    apply lookup_seq in Hseq as [-> Hlt]. simpl in Hj. injection Hj as <-.
    rewrite length_take, length_drop.
    pose proof (ceil_div_tight (length l) size Hsize) as Ht.
    destruct (decide (0 < length l)) as [Hpos|Hz];
      [|replace (length l) with 0 in Hlt by lia; rewrite ceil_div_0 in Hlt; lia].
    specialize (Ht Hpos). split; [nia|]. intros Hj. nia.
  - cbv [InputPort.notify bind lift]. rewrite Hch.
    by apply for_each_handle_input.
  - intros i w f -> Hi Hw Hst Ht.
    simpl in Hv. destruct Hv as [p Hp]. unfold py_index in Hp.
    case_decide as Hr; [|case_decide; [lia|done]].
    rewrite (trigger_all_sync i _ n w f) by done.
    by rewrite map_map.
Qed.

(** ** Input events and synchronous execution *)

(** C6 (keyword no-trigger): for every node and every keyword input event
    with value [y] on key [k], [handle_input] (reached directly or through
    the [KwargInputPort] of [k]) overwrites the cached passive value of [k]
    and nothing else: every other passive value, the cached reactive vector,
    the node's value, the worker with its queues, and the observers are as
    before, and the trace is as before: no target was called and no
    observer notified. *)
Theorem handle_input_kwarg_only_caches (n : Node) (y : value) (idx : option Z) (k : string) :
  ∃ n',
    Node.handle_input y idx (Some k) n = (Ok tt, n')
    ∧ InputPort.notify Node.handle_input (KwargInputPort k) y n = (Ok tt, n')
    ∧ passive_input_values n' !! k = Some y
    ∧ (∀ k', k' ≠ k → passive_input_values n' !! k' = passive_input_values n !! k')
    ∧ reactive_input_values n' = reactive_input_values n
    ∧ _value n' = _value n
    ∧ worker n' = worker n
    ∧ observers n' = observers n
    ∧ trace n' = trace n.
Proof.
  exists (set_passive_input_values (<[k := y]> (passive_input_values n)) n).
  repeat split; simpl.
  - apply lookup_insert_eq.
  - intros k' Hk'. by apply lookup_insert_ne.
Qed.

(** C3 (last value wins): for every node and every input event carrying [x]
    at an index [i] inside the cached reactive vector, [handle_input]
    (reached directly or through the [ArgInputPort] of that index)
    overwrites the cached value at [i] and no other, leaves the passive map
    alone, and then has the worker execute once with the whole updated
    vector as positional arguments and the whole passive map as keywords,
    whatever the other indices hold: a started synchronous worker calls its
    target with exactly those arguments; an asynchronous worker puts exactly
    that payload on its work queue.  What the call raises is logged, and
    [handle_input] returns. *)
Theorem handle_input_reactive_last_value_wins (n : Node) (x : value) (i : Z) :
  (0 ≤ i < Z.of_nat (length (reactive_input_values n)))%Z →
  let vals := <[Z.to_nat i := x]> (reactive_input_values n) in
  let n1 := set_reactive_input_values vals n in
  let n2 := after_execute vals (passive_input_values n) n1 in
  vals !! Z.to_nat i = Some x
  ∧ (∀ j, j ≠ Z.to_nat i → vals !! j = reactive_input_values n !! j)
  ∧ passive_input_values n1 = passive_input_values n
  ∧ Node.handle_input x (Some i) None n = (Ok tt, n2)
  ∧ InputPort.notify Node.handle_input (ArgInputPort (Some i)) x n = (Ok tt, n2)
  ∧ reactive_input_values n2 = vals
  ∧ passive_input_values n2 = passive_input_values n
  ∧ (∀ w f, worker n = WSync w → isStarted w = true → target w = Some f →
       target_calls (trace n2) = target_calls (trace n) ++ [(vals, passive_input_values n)])
  ∧ (∀ a q, worker n = WAsync a → worker_queue a = Some q →
       n2 = set_worker
              (WAsync (set_worker_queue (JQ.put (Item (vals, passive_input_values n)) q) a)) n1).
Proof.
  intros Hi vals n1 n2.
  assert (Hn : Node.handle_input x (Some i) None n = (Ok tt, n2)).
  { rewrite handle_input_trigger. by rewrite list_setitem_in_range. }
  split_and!; try done.
  - apply list_lookup_insert_eq. lia.
  - intros j Hj. by apply list_lookup_insert_ne.
  - exact (proj1 (after_execute_inputs vals (passive_input_values n) n1)).
  - exact (proj2 (after_execute_inputs vals (passive_input_values n) n1)).
  - intros w f Hw Hs Ht.
    by destruct (after_execute_sync n1 w f vals (passive_input_values n)) as (H1 & _).
  - intros a q Hw Hq. by apply after_execute_async.
Qed.

Lemma handle_input_reactive_last_value_wins_witness :
  let n := {| target_func := None; target_class := None; target_class_args := [];
              target_class_kwargs := ∅; reactive_input_ports := [];
              reactive_input_values := [VInt 10; VInt 20];
              passive_input_ports := ∅; passive_input_values := ∅;
              observers := []; name := None; _value := VNone;
              worker := WSync {| target := Some (λ _ _, Ok VNone); isStarted := true |};
              trace := [] |} in
  target_calls (trace (Node.handle_input (VInt 7) (Some 1%Z) None n).2)
  = [([VInt 10; VInt 7], ∅)].
Proof.
  intros n.
  destruct (handle_input_reactive_last_value_wins n (VInt 7) 1%Z)
    as (_ & _ & _ & H & _ & _ & _ & Hs & _).
  { simpl. lia. }
  rewrite H. simpl.
  exact (Hs _ _ eq_refl eq_refl eq_refl).
Defined.

(** C10: for every node, [notify] with no data goes through no input port
    and is [handle_input] with neither index nor keyword: the cached
    reactive vector and the cached passive map are unchanged, and the
    worker executes once with exactly these: a started synchronous worker
    calls its target with them; an asynchronous worker puts them on its
    work queue as one payload. *)
Theorem notify_none_triggers_without_caching (n : Node) (port_idx : Z) :
  let n2 := after_execute (reactive_input_values n) (passive_input_values n) n in
  Node.notify VNone port_idx n = (Ok tt, n2)
  ∧ Node.notify VNone port_idx n = Node.handle_input VNone None None n
  ∧ reactive_input_values n2 = reactive_input_values n
  ∧ passive_input_values n2 = passive_input_values n
  ∧ (∀ w f, worker n = WSync w → isStarted w = true → target w = Some f →
       target_calls (trace n2) =
         target_calls (trace n) ++ [(reactive_input_values n, passive_input_values n)])
  ∧ (∀ a q, worker n = WAsync a → worker_queue a = Some q →
       n2 = set_worker
              (WAsync (set_worker_queue
                 (JQ.put (Item (reactive_input_values n, passive_input_values n)) q) a)) n).
Proof.
  intros n2. split_and!.
  - unfold Node.notify. by rewrite handle_input_trigger.
  - done.
  - apply after_execute_inputs.
  - apply after_execute_inputs.
  - intros w f Hw Hs Ht.
    by destruct (after_execute_sync n w f (reactive_input_values n) (passive_input_values n))
      as (H1 & _).
  - intros a q Hw Hq. by apply after_execute_async.
Qed.

(** C4 (fault isolation): for every started synchronous worker and every
    invocation on which the target raises, [execute] returns normally,
    having logged the message and then the traceback; the node's value is
    unchanged and the output port is notified of nothing.  A later
    invocation on which the target returns [r] sets the value to [r] and
    notifies the output port of [r], which fans out to every observer. *)
Theorem sync_execute_target_raises (n : Node) (w : SyncWorker) (f : callable)
    (args : list value) (kw : gmap string value) (e : exn) :
  isStarted w = true → target w = Some f →
  f args kw = Raise e →
  ∃ n1,
    SyncWorker.execute w args kw n = (Ok tt, n1)
    ∧ _value n1 = _value n
    ∧ observers n1 = observers n
    ∧ trace n1 = trace n ++ [TargetCalled args kw;
                             LoggedError ("SyncWorker failed to execute: " +:+ str e);
                             LoggedError (format_exc e)]
    ∧ outputs (trace n1) = outputs (trace n)
    ∧ ∀ args' kw' r, f args' kw' = Ok r →
        ∃ n2 es,
          SyncWorker.execute w args' kw' n1 = (Ok tt, n2)
          ∧ _value n2 = r
          ∧ trace n2 = trace n1 ++ TargetCalled args' kw' :: OutputNotified r :: es
          ∧ (Forall (λ o, observer_notify o r = Ok tt) (observers n) →
             es = map (λ o, ObserverNotified (observer_id o) r) (observers n)).
Proof.
  intros Hs Ht Hf. destruct w as [t s]; simpl in *; subst.
  eexists. split; [by rewrite SyncWorker_execute_started, Hf|].
  split_and!; try done.
  - simpl. by rewrite outputs_app, app_nil_r.
  - intros args' kw' r Hr.
    rewrite SyncWorker_execute_started, Hr.
    destruct (fan_out _ r) as [es out] eqn:Hfo.
    eexists _, _. split_and!; try done.
    intros Hall. simpl in Hfo. rewrite (fan_out_all_ok _ _ Hall) in Hfo.
    injection Hfo as <- <-. by rewrite app_nil_r.
Qed.

(** C9: for every started synchronous worker whose target returns [r] on
    the invocation while some observer raises on [r], [execute] still
    returns normally: the exception of the fan-out is logged, message and
    traceback, and goes no further.  The node's value is already [r], and
    the output port was notified of [r] before the fan-out failed. *)
Theorem sync_execute_observer_raises (n : Node) (w : SyncWorker) (f : callable)
    (args : list value) (kw : gmap string value) (r : value) (o : Observer) (e : exn) :
  isStarted w = true → target w = Some f →
  f args kw = Ok r →
  o ∈ observers n → observer_notify o r = Raise e →
  ∃ n1 e' es,
    SyncWorker.execute w args kw n = (Ok tt, n1)
    ∧ _value n1 = r
    ∧ fan_out (observers n) r = (es, Raise e')
    ∧ trace n1 = trace n ++ TargetCalled args kw :: OutputNotified r :: es ++
                   [LoggedError ("SyncWorker failed to execute: " +:+ str e');
                    LoggedError (format_exc e')].
Proof.
  intros Hs Ht Hf Hin Ho. destruct w as [t s]; simpl in *; subst.
  destruct (fan_out_raises _ _ _ _ Hin Ho) as [e' He'].
  destruct (fan_out (observers n) r) as [es out] eqn:Hfo. simpl in He'. subst out.
  eexists _, e', es. rewrite SyncWorker_execute_started, Hf, Hfo. done.
Qed.

(** ** Construction *)

Lemma rbind_Ok {A B} (r : result A) (k : A → result B) b :
  Node.rbind r k = Ok b → ∃ a, r = Ok a ∧ k a = Ok b.
Proof. destruct r; simpl; [eauto|done]. Qed.

(** C7 (arity), with the cached vector as the constructor really sets it.
    A node is constructed from a work target of positional arity [k], the
    instance parameter of a class-based target not counted.
    - Without a port list, a construction that succeeds gives exactly [k]
      reactive input ports, the [ArgInputPort]s of indices [0 .. k-1], and
      one does succeed when no upstream nodes are given; the cached
      reactive vector is the supplied default list itself when that list is
      not empty, whatever its length, and [k] nulls otherwise.
    - With a port list whose length is not [k] construction aborts with an
      [AssertionError]; when it succeeds the list has length [k], is taken
      as given, and without defaults the cached vector is [k] nulls. *)
Theorem init_ports_match_arity (a : Node.NodeArgs) (k : nat) :
  has_arity a k →
  (Node.a_reactive_input_ports a = Node.PortsNone →
     (∀ n regs, Node.__init__ a = Ok (n, regs) →
        reactive_input_ports n = default_ports k
        ∧ length (reactive_input_ports n) = k
        ∧ (∀ i p, reactive_input_ports n !! i = Some p → p = ArgInputPort (Some (Z.of_nat i)))
        ∧ reactive_input_values n =
            match Node.a_default_reactive_input_values a with
            | Some (d :: ds) => d :: ds
            | _ => replicate k VNone
            end)
     ∧ (Node.a_node_args a = None → Node.a_node_kwargs a = None →
        ∃ n, Node.__init__ a = Ok (n, [])))
  ∧ (∀ l, Node.a_reactive_input_ports a = Node.PortsList l →
       (length l ≠ k → Node.__init__ a = Raise AssertionError)
       ∧ (∀ n regs, Node.__init__ a = Ok (n, regs) →
            length l = k
            ∧ reactive_input_ports n = l
            ∧ (Node.a_default_reactive_input_values a = None →
               reactive_input_values n = replicate k VNone))).
Proof.
  intros Har.
  assert (Hinfo : ∃ info,
    match Node.a_target_func a, Node.a_target_class a with
    | Some f, None => Ok (fn_info f, num_args (fn_info f))
    | _, Some c => Ok (execute_info c, (num_args (execute_info c) - 1)%Z)
    | None, None => Raise (ValueError "Provide target_func OR target_class")
    end = Ok (info, Z.of_nat k)).
  { unfold has_arity in Har.
    destruct (Node.a_target_func a) as [f|], (Node.a_target_class a) as [c|];
      try done; eexists; f_equal; f_equal; lia. }
  destruct Hinfo as [info Hinfo].
  assert (Hlen : length (default_ports k) = k).
  { unfold default_ports. by rewrite length_map, length_seq. }
  split.
  - intros Hports. split.
    + intros n regs Hn. unfold Node.__init__ in Hn. rewrite Hinfo, Hports in Hn.
      simpl in Hn. rewrite Nat2Z.id in Hn.
      apply rbind_Ok in Hn as (r1 & _ & Hn).
      apply rbind_Ok in Hn as (r2 & _ & Hn).
      injection Hn as <- _. simpl. fold (default_ports k). rewrite Hlen.
      split_and!; try done.
      intros i p Hp. unfold default_ports in Hp.
      change (map ?f ?l) with (f <$> l) in Hp. rewrite list_lookup_fmap in Hp.
      destruct (seq 0 k !! i) as [i'|] eqn:Hi; [|done].
      apply lookup_seq in Hi as [-> _]. simpl in Hp. by injection Hp as <-.
    + intros Hargs Hkw. unfold Node.__init__. rewrite Hinfo, Hports, Hargs, Hkw. simpl.
      by eexists.
  - intros l Hports. split.
    + intros Hne. unfold Node.__init__. rewrite Hinfo, Hports. simpl.
      rewrite decide_False by lia. done.
    + intros n regs Hn. unfold Node.__init__ in Hn. rewrite Hinfo, Hports in Hn.
      simpl in Hn. case_decide as Hl; [|done]. simpl in Hn.
      apply rbind_Ok in Hn as (r1 & _ & Hn).
      apply rbind_Ok in Hn as (r2 & _ & Hn).
      injection Hn as <- _. simpl.
      split_and!; [lia|done|]. intros ->. f_equal. lia.
Qed.

Lemma init_ports_match_arity_witness :
  has_arity (plain_args arity_two None) 2
  ∧ ∃ n, Node.__init__ (plain_args arity_two None) = Ok (n, [])
         ∧ reactive_input_ports n = [ArgInputPort (Some 0%Z); ArgInputPort (Some 1%Z)]
         ∧ reactive_input_values n = [VNone; VNone].
Proof.
  assert (H : has_arity (plain_args arity_two None) 2) by reflexivity.
  split; [exact H|].
  destruct (init_ports_match_arity _ _ H) as [Hnone _].
  destruct (Hnone eq_refl) as [Hok Hex].
  destruct (Hex eq_refl eq_refl) as [n Hn].
  exists n. destruct (Hok n [] Hn) as (Hp & _ & _ & Hv).
  split; [exact Hn|]. split; [exact Hp|exact Hv].
Defined.

Lemma init_short_defaults_counterexample :
  ∃ n, Node.__init__ (plain_args arity_two (Some [VInt 5])) = Ok (n, [])
       ∧ length (reactive_input_ports n) = 2
       ∧ reactive_input_values n = [VInt 5]
       ∧ length (reactive_input_values n) = 1.
Proof. eexists. split; [reflexivity|]. done. Qed.

(** ** The threads of an asynchronous worker, step by step *)

(** Destructs the worker of node [n] down to its queues and threads. *)
Ltac open_worker n :=
  let w := fresh "w" in let N := fresh "N" in let c := fresh "cls" in
  let qw := fresh "qw" in let qr := fresh "qr" in
  let ts := fresh "ts" in let rpc := fresh "rpc" in
  let Hw := fresh "Hw" in
  destruct (worker n) as [w|[N c [qw|] [qr|] [ts|] [rpc|]]] eqn:Hw.

Ltac absurd_started :=
  solve [ exfalso; simpl in *;
          repeat match goal with
                 | H : False |- _ => destruct H
                 | H : _ ∧ _ |- _ => destruct H
                 | H : is_Some None |- _ => destruct H; discriminate
                 end ].

Ltac unfold_view :=
  unfold started, fully_stopped, threads, drainer, work_queue, results_queue, async_of in *.

Lemma _get_target_func_pair n :
  Worker._get_target_func n = ((Worker._get_target_func n).1, n).
Proof.
  unfold Worker._get_target_func. run_m.
  destruct (target_func n); [done|]. by destruct (target_class n).
Qed.

Lemma started_running n :
  started n → ∃ N c qw qr ts rpc, worker n = running N c qw qr ts rpc.
Proof.
  unfold started. open_worker n; intros Hs; try absurd_started.
  by eexists _, _, _, _, _, _.
Qed.

Lemma _worker_step j n n' :
  started n → AsyncWorker._worker j n = Some n' → worker_step j n n'.
Proof.
  intros Hs H. destruct (started_running n Hs) as (N & c & qw & qr & ts & rpc & Hw).
  unfold AsyncWorker._worker in H. rewrite Hw in H. unfold running in H. simpl in H.
  destruct (ts !! j) as [[tgt pc]|] eqn:Hj; simpl in H; [|done].
  destruct pc; simpl in H.
  - rewrite _get_target_func_pair in H.
    destruct ((Worker._get_target_func n).1) as [f|e] eqn:Hf; simplify_eq.
    + unfold set_thread. simpl. by eapply ws_start.
    + unfold set_thread. simpl. by eapply ws_start_crash.
  - destruct qw as [qc [|[|[args kw]] rest] u]; simpl in H; simplify_eq; unfold set_thread; simpl.
    + by eapply ws_get_pill.
    + by eapply ws_get_payload.
  - destruct qw as [qc items [|u]]; simpl in H; simplify_eq; unfold set_thread; simpl.
    + by eapply ws_pill_crash.
    + by eapply ws_pill_done.
  - destruct tgt as [f|]; simpl in H.
    + unfold Worker.call in H. run_m. simpl in H.
      destruct (f args kw) as [r|e] eqn:Hf; simpl in H; simplify_eq; unfold set_thread; simpl.
      * by eapply ws_call_returns.
      * replace (set_worker _ _) with
          (set_worker (running N c qw qr (<[j := thread (Some f) WGet]> ts) rpc)
             (set_trace (trace n ++ TargetCalled args kw :: async_failure_log e) n))
          by (unfold running, thread; node_eq).
        by eapply ws_call_raises.
    + simplify_eq. unfold set_thread. simpl.
      replace (set_worker _ _) with
        (set_worker (running N c qw qr (<[j := thread None WGet]> ts) rpc)
           (set_trace
              (trace n ++ async_failure_log (TypeError "'NoneType' object is not callable")) n))
        by (unfold running, thread; node_eq).
      by eapply ws_call_no_target.
  - destruct qr as [qc items u]. simplify_eq. unfold set_thread. simpl.
    by eapply ws_put_result.
  - destruct qw as [qc items [|u]]; simpl in H; simplify_eq; unfold set_thread; simpl.
    + by eapply ws_task_done_crash.
    + by eapply ws_task_done.
  - done.
  - done.
Qed.

Lemma _result_handler_step n n' :
  started n → AsyncWorker._result_handler n = Some n' → result_step n n'.
Proof.
  intros Hs H. destruct (started_running n Hs) as (N & c & qw & qr & ts & rpc & Hw).
  unfold AsyncWorker._result_handler in H. rewrite Hw in H. unfold running in H. simpl in H.
  destruct rpc; simpl in H.
  - destruct qr as [qc [|[|r] rest] u]; simpl in H; simplify_eq.
    + by eapply rs_get_pill.
    + by eapply rs_get_result.
  - destruct qr as [qc items [|u]]; simpl in H; simplify_eq.
    + by eapply rs_pill_crash.
    + by eapply rs_pill_done.
  - rewrite _handle_result_eq in H.
    destruct (fan_out (observers n) r) as [es [[]|e]] eqn:Hf; simpl in H; simplify_eq.
    + by eapply rs_handled.
    + by eapply rs_observer_raises.
  - destruct qr as [qc items [|u]]; simpl in H; simplify_eq.
    + by eapply rs_task_done_crash.
    + by eapply rs_task_done.
  - done.
  - done.
Qed.

Lemma stop_started pc n r n' :
  started n → AsyncWorker.stop pc n = Some (r, n') →
  ∃ pc', r = Ok pc' ∧ stop_step n pc pc' n'.
Proof.
  intros Hs H. destruct (started_running n Hs) as (N & c & qw & qr & ts & rpc & Hw).
  unfold AsyncWorker.stop in H. rewrite Hw in H. unfold running in H. simpl in H.
  destruct pc as [|[|k]|i| |]; simpl in H.
  - simplify_eq. eexists. split; [done|]. by eapply ss_enter.
  - simplify_eq. eexists. split; [done|]. by eapply ss_pills_done.
  - simplify_eq. eexists. split; [done|]. destruct qw. by eapply ss_put_pill.
  - destruct (ts !! i) as [t|] eqn:Hi; simpl in H.
    + destruct (worker_terminated t) eqn:Ht; simplify_eq.
      eexists. split; [done|]. eapply ss_joined_worker; [done| |done].
      unfold threads, async_of. by rewrite Hw.
    + simplify_eq. eexists. split; [done|]. eapply ss_joined_all; [done|].
      unfold threads, async_of. by rewrite Hw.
  - simplify_eq. eexists. split; [done|]. destruct qr. by eapply ss_put_result_pill.
  - destruct (result_terminated rpc) eqn:Ht; simplify_eq.
    eexists. split; [done|]. eapply ss_joined_result; [done|].
    unfold drainer, async_of. by rewrite Hw.
Qed.

(** *** What every step keeps *)

Lemma worker_step_started j n n' : worker_step j n n' → started n'.
Proof. destruct 1; unfold started; simpl; by eauto. Qed.

Lemma result_step_started n n' : result_step n n' → started n'.
Proof. destruct 1; unfold started; simpl; by eauto. Qed.

Lemma stop_step_started n pc pc' n' : started n → stop_step n pc pc' n' → started n'.
Proof. intros Hs. destruct 1; unfold started; simpl; by eauto. Qed.

Ltac use_worker_eq :=
  unfold threads, drainer, work_queue, results_queue, async_of in *;
  repeat match goal with
         | H : worker ?n = running _ _ _ _ _ _ |- _ =>
             rewrite H in *; clear H
         end;
  unfold running in *; simpl in *.

Lemma worker_step_threads j n n' :
  worker_step j n n' →
  (∃ t t', threads n !! j = Some t ∧ worker_terminated t = false
           ∧ threads n' = <[j := t']> (threads n))
  ∧ drainer n' = drainer n.
Proof.
  destruct 1; use_worker_eq; (split; [|done]); eexists _, _; (split; [eassumption|]); done.
Qed.

Lemma result_step_threads n n' :
  result_step n n' →
  threads n' = threads n ∧ result_terminated (drainer n) = false.
Proof. destruct 1; use_worker_eq; done. Qed.

Lemma stop_step_threads n pc pc' n' :
  stop_step n pc pc' n' → threads n' = threads n ∧ drainer n' = drainer n.
Proof. destruct 1; use_worker_eq; done. Qed.

(** ** Graph shutdown: what every step keeps *)

Lemma joined_so_far_stop n pc pc' n' :
  stop_step n pc (Some pc') n' → joined_so_far pc n → joined_so_far pc' n'.
Proof.
  intros Hst Hj. pose proof (stop_step_threads _ _ _ _ Hst) as [Ht _].
  inversion Hst; subst; simpl in *; try done; rewrite ?Ht.
  - lia.
  - intros j t' Hlt Hj'. destruct (decide (j = i)) as [->|Hne]; [congruence|].
    apply (Hj j); [lia|done].
  - intros j t Hjt. apply (Hj j); [|done].
    apply lookup_lt_Some in Hjt.
    match goal with H : threads _ !! i = None |- _ => apply lookup_ge_None in H end. lia.
  - exact Hj.
Qed.

Lemma joined_so_far_return n pc n' :
  stop_step n pc None n' → joined_so_far pc n → fully_stopped n'.
Proof.
  intros Hst Hj. inversion Hst; subst. split; [exact Hj|done].
Qed.

Lemma joined_so_far_worker_step j n n' pc :
  worker_step j n n' → joined_so_far pc n → joined_so_far pc n'.
Proof.
  intros Hst Hj. destruct (worker_step_threads _ _ _ Hst) as [(t & t' & Hjt & Hnt & Heq) _].
  assert (Hkeep : ∀ i t0, <[j := t']> (threads n) !! i = Some t0 →
                          (∀ t1, threads n !! i = Some t1 → worker_terminated t1 = true) →
                          worker_terminated t0 = true).
  { intros i t0 Hi Hall. destruct (decide (i = j)) as [->|Hne].
    - specialize (Hall t Hjt). congruence.
    - rewrite list_lookup_insert_ne in Hi by done. by apply Hall. }
  destruct pc; simpl in *; try done; rewrite Heq.
  - intros i0 t0 Hlt Hi. apply (Hkeep _ _ Hi). intros t1 Ht1. by apply (Hj i0).
  - intros i0 t0 Hi. apply (Hkeep _ _ Hi). intros t1 Ht1. by apply (Hj i0).
  - intros i0 t0 Hi. apply (Hkeep _ _ Hi). intros t1 Ht1. by apply (Hj i0).
Qed.

Lemma joined_so_far_result_step n n' pc :
  result_step n n' → joined_so_far pc n → joined_so_far pc n'.
Proof.
  intros Hst Hj. destruct (result_step_threads _ _ Hst) as [Ht _].
  destruct pc; simpl in *; by rewrite ?Ht.
Qed.

Lemma fully_stopped_no_worker_step j n n' : fully_stopped n → ¬ worker_step j n n'.
Proof.
  intros [Hall _] Hst.
  destruct (worker_step_threads _ _ _ Hst) as [(t & t' & Hjt & Hnt & _) _].
  specialize (Hall _ _ Hjt). congruence.
Qed.

Lemma fully_stopped_no_result_step n n' : fully_stopped n → ¬ result_step n n'.
Proof.
  intros [_ Hr] Hst. destruct (result_step_threads _ _ Hst) as [_ Hnt]. congruence.
Qed.

Lemma _worker_is_async j n n' : AsyncWorker._worker j n = Some n' → is_async n = true.
Proof. unfold AsyncWorker._worker, is_async. by destruct (worker n). Qed.

Lemma _result_handler_is_async n n' :
  AsyncWorker._result_handler n = Some n' → is_async n = true.
Proof. unfold AsyncWorker._result_handler, is_async. by destruct (worker n). Qed.

Lemma started_is_async n : started n → is_async n = true.
Proof. unfold started, is_async. by destruct (worker n). Qed.

Lemma stops_of_snoc want kinds b :
  stops_of want (kinds ++ [b]) =
  stops_of want kinds ++
    (if bool_decide (b = want) then [StopCalled (length kinds); StopReturned (length kinds)]
     else []).
Proof.
  unfold stops_of. rewrite imap_app, concat_app. simpl.
  by rewrite Nat.add_0_r, app_nil_r.
Qed.

Lemma stops_of_take_S want kinds i b :
  kinds !! i = Some b →
  stops_of want (take (S i) kinds) =
  stops_of want (take i kinds) ++
    (if bool_decide (b = want) then [StopCalled i; StopReturned i] else []).
Proof.
  intros Hi. rewrite (take_S_r _ _ _ Hi), stops_of_snoc.
  rewrite length_take_le; [done|]. apply lookup_lt_Some in Hi. lia.
Qed.

Lemma stops_app t1 t2 : stops (t1 ++ t2) = stops t1 ++ stops t2.
Proof. apply omap_app. Qed.

Lemma kinds_insert (ns : list Node) i n n' :
  ns !! i = Some n → is_async n' = is_async n →
  is_async <$> <[i := n']> ns = is_async <$> ns.
Proof.
  intros Hi Hk. rewrite list_fmap_insert, Hk.
  apply list_insert_id. by rewrite list_lookup_fmap, Hi.
Qed.

Lemma started_insert (ns : list Node) i n' :
  (∀ j n, ns !! j = Some n → is_async n = true → started n) →
  started n' →
  ∀ j n, <[i := n']> ns !! j = Some n → is_async n = true → started n.
Proof.
  intros Hall Hn' j n Hj Ha. destruct (decide (j = i)) as [->|Hne].
  - apply list_lookup_insert_Some in Hj as [(_ & <- & _)|(? & _)]; [done|congruence].
  - rewrite list_lookup_insert_ne in Hj by done. by eapply Hall.
Qed.

Lemma nodes_progress_thread pc (ns : list Node) i n n' :
  ns !! i = Some n → is_async n = true → is_async n' = true →
  ¬ fully_stopped n →
  (∀ pc', joined_so_far pc' n → joined_so_far pc' n') →
  nodes_progress pc ns → nodes_progress pc (<[i := n']> ns).
Proof.
  intros Hi Ha Ha' Hns Hjoin.
  assert (Hfs : ∀ j m, (∀ m0, ns !! j = Some m0 → is_async m0 = true → fully_stopped m0) →
                       <[i := n']> ns !! j = Some m → is_async m = true → fully_stopped m).
  { intros j m Hold Hj Hm. destruct (decide (j = i)) as [->|Hne].
    - destruct Hns. by apply Hold.
    - rewrite list_lookup_insert_ne in Hj by done. by apply Hold. }
  assert (Hss : ∀ j m, (∀ m0, ns !! j = Some m0 → is_async m0 = false → sync_stopped m0) →
                       <[i := n']> ns !! j = Some m → is_async m = false → sync_stopped m).
  { intros j m Hold Hj Hm. destruct (decide (j = i)) as [->|Hne].
    - apply list_lookup_insert_Some in Hj as [(_ & <- & _)|(? & _)]; congruence.
    - rewrite list_lookup_insert_ne in Hj by done. by apply Hold. }
  destruct pc as [|k|k pc'|k| |e]; simpl; try done.
  - intros H j m Hlt. apply Hfs. intros m0. by apply H.
  - intros [H (m & Hk & Hm & Hjn)]. split.
    + intros j m0 Hlt. apply Hfs. intros m1. by apply H.
    + destruct (decide (k = i)) as [->|Hne].
      * exists n'. rewrite list_lookup_insert_eq by (by eapply lookup_lt_Some).
        split_and!; [done..|]. apply Hjoin. congruence.
      * exists m. by rewrite list_lookup_insert_ne.
  - intros [H1 H2]. split.
    + intros j m. apply Hfs. intros m0. by apply H1.
    + intros j m Hlt. apply Hss. intros m0. by apply H2.
  - intros [H1 H2]. split.
    + intros j m. apply Hfs. intros m0. by apply H1.
    + intros j m. apply Hss. intros m0. by apply H2.
Qed.

Lemma graph_thread_step g0 (s : Graph.state) i (f : Node → option Node) s' :
  (∀ n n', f n = Some n' → is_async n = true) →
  (∀ n n', started n → f n = Some n' →
     started n' ∧ ¬ fully_stopped n ∧ ∀ pc, joined_so_far pc n → joined_so_far pc n') →
  graph_inv g0 s → Graph.step_node i f s = Some s' → graph_inv g0 s'.
Proof.
  intros Hasync Hf (Hk & Hst & Htr & Hal & Hnp) Hstep.
  unfold Graph.step_node in Hstep.
  destruct (nodes (Graph.graph s) !! i) as [n|] eqn:Hi; simpl in Hstep; [|done].
  destruct (f n) as [n'|] eqn:Hfn; simpl in Hstep; [|done]. simplify_eq.
  pose proof (Hasync _ _ Hfn) as Ha.
  destruct (Hf n n' (Hst _ _ Hi Ha) Hfn) as (Hs' & Hnfs & Hjoin).
  pose proof (started_is_async _ Hs') as Ha'.
  unfold graph_inv. simpl. split_and!; try done.
  - rewrite <- Hk. apply (kinds_insert _ _ n); [done|congruence].
  - by apply started_insert.
  - by apply (nodes_progress_thread _ _ _ n).
Qed.

Lemma kinds_lookup g0 (s : Graph.state) i n :
  is_async <$> nodes (Graph.graph s) = is_async <$> nodes g0 →
  nodes (Graph.graph s) !! i = Some n →
  (is_async <$> nodes g0) !! i = Some (is_async n).
Proof. intros <- Hi. by rewrite list_lookup_fmap, Hi. Qed.

Lemma kinds_lookup_None g0 (s : Graph.state) i :
  is_async <$> nodes (Graph.graph s) = is_async <$> nodes g0 →
  nodes (Graph.graph s) !! i = None →
  take i (is_async <$> nodes g0) = is_async <$> nodes g0.
Proof.
  intros <- Hi. apply take_ge. rewrite length_fmap. by apply lookup_ge_None.
Qed.

Ltac split_graph_inv :=
  unfold graph_inv; simpl; refine (conj _ (conj _ (conj _ (conj _ _)))).

Ltac still_not_alive H := destruct H as [?|H]; [done|by right].

Lemma graph_stop_step g0 (s s' : Graph.state) :
  graph_inv g0 s → Graph.stop s = Some s' → graph_inv g0 s'.
Proof.
  intros (Hk & Hst & Htr & Hal & Hnp) Hstep. unfold Graph.stop in Hstep.
  destruct s as [g pc]. simpl in *.
  destruct pc as [|i|i pc|i| |e]; simpl in *.
  - (* entering *)
    simplify_eq. split_graph_inv.
    + done.
    + done.
    + rewrite stops_app, Htr. simpl. by rewrite !app_nil_r.
    + by right.
    + intros j n Hlt. lia.
  - (* first loop *)
    destruct (nodes g !! i) as [n|] eqn:Hi.
    + pose proof (kinds_lookup g0 {| Graph.graph := g; Graph.main := Graph.StopAsyncLoop i |}
                    i n Hk Hi) as Hki.
      destruct (is_async n) eqn:Ha; simplify_eq.
      * split_graph_inv.
        -- done.
        -- done.
        -- rewrite stops_app, Htr. simpl. by rewrite app_assoc.
        -- still_not_alive Hal.
        -- split; [done|]. by exists n.
      * split_graph_inv.
        -- done.
        -- done.
        -- rewrite (stops_of_take_S _ _ _ _ Hki). simpl. by rewrite app_nil_r.
        -- still_not_alive Hal.
        -- intros j m Hlt Hj Hm. destruct (decide (j = i)) as [->|Hne]; [congruence|].
           apply (Hnp j); [lia|done..].
    + simplify_eq.
      pose proof (kinds_lookup_None g0 {| Graph.graph := g; Graph.main := Graph.StopAsyncLoop i |}
                    i Hk Hi) as Hki. simpl in Hki.
      split_graph_inv.
      * done.
      * done.
      * rewrite Htr, Hki. unfold stops_of at 3. simpl. by rewrite app_nil_r.
      * still_not_alive Hal.
      * split.
        -- intros j m Hj. apply (Hnp j); [|done].
           apply lookup_lt_Some in Hj. apply lookup_ge_None in Hi. lia.
        -- intros j m Hlt. lia.
  - (* inside the stop of an asynchronous node *)
    destruct Hnp as [Hdone (n & Hi & Ha & Hj)]. rewrite Hi in Hstep.
    pose proof (Hst _ _ Hi Ha) as Hs.
    pose proof (kinds_lookup g0 {| Graph.graph := g; Graph.main := Graph.StopAsyncNode i pc |}
                  i n Hk Hi) as Hki. rewrite Ha in Hki.
    destruct (AsyncWorker.stop pc n) as [[r n']|] eqn:Hstop; [|done].
    destruct (stop_started _ _ _ _ Hs Hstop) as (pc' & -> & Hss).
    pose proof (stop_step_started _ _ _ _ Hs Hss) as Hs'.
    pose proof (started_is_async _ Hs') as Ha'.
    assert (Hkeep : ∀ j m, j < i → <[i := n']> (nodes g) !! j = Some m →
                           is_async m = true → fully_stopped m).
    { intros j m Hlt Hjm. rewrite list_lookup_insert_ne in Hjm by lia. by apply (Hdone j). }
    destruct pc' as [pc'|]; simplify_eq.
    + split_graph_inv.
      * rewrite <- Hk. apply (kinds_insert _ _ n); [done|congruence].
      * by apply started_insert.
      * done.
      * still_not_alive Hal.
      * split; [done|]. exists n'.
        rewrite list_lookup_insert_eq by (by eapply lookup_lt_Some).
        split_and!; [done..|]. by eapply joined_so_far_stop.
    + split_graph_inv.
      * rewrite <- Hk. apply (kinds_insert _ _ n); [done|congruence].
      * by apply started_insert.
      * rewrite stops_app, Htr, (stops_of_take_S _ _ _ _ Hki). simpl.
        by rewrite <- !app_assoc.
      * still_not_alive Hal.
      * intros j m Hlt Hjm Hm. destruct (decide (j = i)) as [->|Hne].
        -- apply list_lookup_insert_Some in Hjm as [(_ & <- & _)|(? & _)]; [|congruence].
           by eapply joined_so_far_return.
        -- apply (Hkeep j); [lia|done..].
  - (* second loop *)
    destruct Hnp as [Hasync Hsync].
    destruct (nodes g !! i) as [n|] eqn:Hi.
    + pose proof (kinds_lookup g0 {| Graph.graph := g; Graph.main := Graph.StopSyncLoop i |}
                    i n Hk Hi) as Hki.
      destruct (worker n) as [w|a] eqn:Hw; simplify_eq.
      * assert (Ha : is_async n = false) by (unfold is_async; by rewrite Hw).
        rewrite Ha in Hki.
        split_graph_inv.
        -- rewrite <- Hk. apply (kinds_insert _ _ n); [done|]. by rewrite Ha.
        -- intros j m Hjm Hm. destruct (decide (j = i)) as [->|Hne].
           ++ apply list_lookup_insert_Some in Hjm as [(_ & <- & _)|(? & _)]; [done|congruence].
           ++ rewrite list_lookup_insert_ne in Hjm by done. by eapply Hst.
        -- rewrite !stops_app, Htr, (stops_of_take_S _ _ _ _ Hki). simpl.
           by rewrite <- !app_assoc.
        -- still_not_alive Hal.
        -- split.
           ++ intros j m Hjm Hm. destruct (decide (j = i)) as [->|Hne].
              ** apply list_lookup_insert_Some in Hjm as [(_ & <- & _)|(? & _)];
                   [done|congruence].
              ** rewrite list_lookup_insert_ne in Hjm by done. by eapply Hasync.
           ++ intros j m Hlt Hjm Hm. destruct (decide (j = i)) as [->|Hne].
              ** by apply list_lookup_insert_Some in Hjm as [(_ & <- & _)|(? & _)].
              ** rewrite list_lookup_insert_ne in Hjm by done.
                 apply (Hsync j); [lia|done..].
      * assert (Ha : is_async n = true) by (unfold is_async; by rewrite Hw).
        rewrite Ha in Hki.
        split_graph_inv.
        -- done.
        -- done.
        -- rewrite (stops_of_take_S _ _ _ _ Hki). simpl. by rewrite app_nil_r.
        -- still_not_alive Hal.
        -- split; [done|].
           intros j m Hlt Hjm Hm. destruct (decide (j = i)) as [->|Hne]; [congruence|].
           apply (Hsync j); [lia|done..].
    + simplify_eq.
      pose proof (kinds_lookup_None g0 {| Graph.graph := g; Graph.main := Graph.StopSyncLoop i |}
                    i Hk Hi) as Hki. simpl in Hki.
      split_graph_inv.
      * done.
      * done.
      * by rewrite Htr, Hki.
      * still_not_alive Hal.
      * split; [done|].
        intros j m Hj. apply (Hsync j); [|done].
        apply lookup_lt_Some in Hj. apply lookup_ge_None in Hi. lia.
  - done.
  - done.
Qed.

Lemma graph_step_inv g0 t (s s' : Graph.state) :
  graph_inv g0 s → Graph.step t s = Some s' → graph_inv g0 s'.
Proof.
  intros Hinv Hstep. destruct t as [|i j|i]; simpl in Hstep.
  - by eapply graph_stop_step.
  - eapply graph_thread_step; [| |done..].
    + intros n n'. apply _worker_is_async.
    + intros n n' Hs Hn. pose proof (_worker_step _ _ _ Hs Hn) as Hws.
      split_and!.
      * by eapply worker_step_started.
      * intros Hfs. by eapply fully_stopped_no_worker_step.
      * intros pc. by eapply joined_so_far_worker_step.
  - eapply graph_thread_step; [| |done..].
    + intros n n'. apply _result_handler_is_async.
    + intros n n' Hs Hn. pose proof (_result_handler_step _ _ Hs Hn) as Hrs.
      split_and!.
      * by eapply result_step_started.
      * intros Hfs. by eapply fully_stopped_no_result_step.
      * intros pc. by eapply joined_so_far_result_step.
Qed.

Lemma graph_run_inv g0 sched (s : Graph.state) :
  graph_inv g0 s → graph_inv g0 (Graph.run sched s).
Proof.
  revert s. induction sched as [|t sched IH]; intros s Hinv; simpl; [done|].
  apply IH. destruct (Graph.step t s) as [s'|] eqn:Hstep; simpl; [|done].
  by eapply graph_step_inv.
Qed.

Lemma graph_inv_init g0 :
  (∀ i n, nodes g0 !! i = Some n → is_async n = true → started n) →
  graph_inv g0 {| Graph.graph := g0; Graph.main := Graph.StopEnter |}.
Proof.
  intros Hs. unfold graph_inv. simpl. split_and!; try done; [|by left].
  by rewrite app_nil_r.
Qed.

(** ** The shutdown protocol of [stop] *)

Arguments pills : simpl never.

Arguments payloads : simpl never.

Arguments script_payloads : simpl never.

Lemma threads_sum (g : worker_thread → nat) ts j t t' :
  ts !! j = Some t →
  sum_list_with g ts = g t + sum_list_with g (delete j ts)
  ∧ sum_list_with g (<[j := t']> ts) = g t' + sum_list_with g (delete j ts).
Proof.
  revert j. induction ts as [|x ts IH]; intros [|j] Hj; csimpl in *; simplify_eq.
  - done.
  - destruct (IH j Hj) as [-> ->]. lia.
Qed.

Lemma threads_bind {X} (g : worker_thread → list X) ts j t t' :
  ts !! j = Some t →
  ts ≫= g ≡ₚ g t ++ (delete j ts ≫= g)
  ∧ <[j := t']> ts ≫= g ≡ₚ g t' ++ (delete j ts ≫= g).
Proof.
  revert j. induction ts as [|x ts IH]; intros [|j] Hj; csimpl in *; simplify_eq.
  - done.
  - destruct (IH j Hj) as [H1 H2]. rewrite H1, H2. split; solve_Permutation.
Qed.

Lemma pills_app {A} (q1 q2 : list (qitem A)) : pills (q1 ++ q2) = pills q1 + pills q2.
Proof. apply sum_list_with_app. Qed.

Lemma payloads_app {A} (q1 q2 : list (qitem A)) :
  payloads (q1 ++ q2) = payloads q1 ++ payloads q2.
Proof. apply omap_app. Qed.

Lemma payloads_pill {A} (q : list (qitem A)) : payloads (PoisonPill :: q) = payloads q.
Proof. done. Qed.

Lemma payloads_item {A} (a : A) (q : list (qitem A)) : payloads (Item a :: q) = a :: payloads q.
Proof. done. Qed.

Lemma script_payloads_submit ps : script_payloads (submit_then_stop ps) = ps.
Proof.
  unfold submit_then_stop, script_payloads. rewrite omap_app. simpl. rewrite app_nil_r.
  induction ps as [|[a k] ps IH]; csimpl; [done|]. by rewrite IH.
Qed.

Lemma submit_then_stop_cases ps c rest :
  submit_then_stop ps = c :: rest →
  (∃ p ps', ps = p :: ps' ∧ c = System.Execute p.1 p.2 ∧ rest = submit_then_stop ps')
  ∨ (ps = [] ∧ c = System.Stop ∧ rest = []).
Proof.
  unfold submit_then_stop. destruct ps as [|p ps]; csimpl; intros H; simplify_eq.
  - by right.
  - left. by eexists _, _.
Qed.

Lemma sum_insert (g : worker_thread → nat) ts j t t' :
  ts !! j = Some t →
  sum_list_with g (<[j := t']> ts) + g t = sum_list_with g ts + g t'.
Proof. intros Hj. destruct (threads_sum g ts j t t' Hj) as [-> ->]. lia. Qed.

(** Brings in how the sums over the threads change when thread [j] moves. *)
Ltac thread_sums :=
  match goal with
  | Hj : ?ts !! ?j = Some ?t |- context [<[?j := ?t']> ?ts] =>
      pose proof (sum_insert holding ts j t t' Hj);
      pose proof (sum_insert took_pill ts j t t' Hj)
  | Hj : ?ts !! ?j = Some ?t, H : context [<[?j := ?t']> ?ts] |- _ =>
      pose proof (sum_insert holding ts j t t' Hj);
      pose proof (sum_insert took_pill ts j t t' Hj)
  end.

Lemma caller_progress_worker_step N j n n' m sc :
  worker_step j n n' →
  caller_progress N {| System.node := n; System.main := m; System.script := sc |} →
  caller_progress N {| System.node := n'; System.main := m; System.script := sc |}.
Proof.
  intros Hst. unfold caller_progress. simpl. destruct m as [|pc|pc|e]; try done.
  - intros [H|[_ Hfs]]; [by left|]. by destruct (fully_stopped_no_worker_step _ _ _ Hfs Hst).
  - intros (Hsc & Hj & Hk). split_and!; [done| |done]. by eapply joined_so_far_worker_step.
Qed.

Lemma caller_progress_result_step N n n' m sc :
  result_step n n' →
  caller_progress N {| System.node := n; System.main := m; System.script := sc |} →
  caller_progress N {| System.node := n'; System.main := m; System.script := sc |}.
Proof.
  intros Hst. unfold caller_progress. simpl. destruct m as [|pc|pc|e]; try done.
  - intros [H|[_ Hfs]]; [by left|]. by destruct (fully_stopped_no_result_step _ _ Hfs Hst).
  - intros (Hsc & Hj & Hk). split_and!; [done| |done]. by eapply joined_so_far_result_step.
Qed.

Lemma length_app_one {A} (l : list A) x : length (l ++ [x]) = S (length l).
Proof. rewrite length_app. simpl. lia. Qed.

Ltac protocol_arith :=
  unfold pills_put, result_pills_put, queue in *; simpl in *;
  rewrite ?length_insert, ?length_app_one, ?pills_app; try done;
  try thread_sums;
  unfold thread, holding, took_pill, pills, drainer_holding, drainer_took_pill in *;
  simpl in *; lia.

Lemma stop_protocol_worker_step N j n n' m sc :
  worker_step j n n' →
  stop_protocol N {| System.node := n; System.main := m; System.script := sc |} →
  stop_protocol N {| System.node := n'; System.main := m; System.script := sc |}.
Proof.
  intros Hst [Hs Hlen Hwu Hru Hp Hrp Hc]. simpl in *.
  pose proof (caller_progress_worker_step N j n n' m sc Hst Hc) as Hc'.
  pose proof (worker_step_started _ _ _ Hst) as Hs'.
  split; simpl; try done; clear Hc Hc' Hs Hs';
    destruct Hst; use_worker_eq; protocol_arith.
Qed.

Lemma stop_protocol_result_step N n n' m sc :
  result_step n n' →
  stop_protocol N {| System.node := n; System.main := m; System.script := sc |} →
  stop_protocol N {| System.node := n'; System.main := m; System.script := sc |}.
Proof.
  intros Hst [Hs Hlen Hwu Hru Hp Hrp Hc]. simpl in *.
  pose proof (caller_progress_result_step N n n' m sc Hst Hc) as Hc'.
  pose proof (result_step_started _ _ Hst) as Hs'.
  split; simpl; try done; clear Hc Hc' Hs Hs';
    destruct Hst; use_worker_eq; protocol_arith.
Qed.

Lemma worker_execute_running args kw n N c qc items u qr ts rpc :
  worker n = running N c (queue qc items u) qr ts rpc →
  Node.worker_execute args kw n =
  (Ok tt, set_worker (running N c (queue qc (items ++ [Item (args, kw)]) (S u)) qr ts rpc) n).
Proof.
  intros Hw. unfold Node.worker_execute. run_m. rewrite Hw. done.
Qed.

Lemma started_running_queues n :
  started n →
  ∃ N c qc items u qc' items' u' ts rpc,
    worker n = running N c (queue qc items u) (queue qc' items' u') ts rpc.
Proof.
  intros Hs. destruct (started_running n Hs) as (N & c & [qc items u] & [qc' items' u'] & ts & rpc & Hw).
  by eexists _, _, _, _, _, _, _, _, _, _.
Qed.

Lemma stop_protocol_main_step N s s' :
  stop_protocol N s → System.step_main s = Some s' → stop_protocol N s'.
Proof.
  intros [Hs Hlen Hwu Hru Hp Hrp Hc] Hstep. destruct s as [n m sc]. simpl in *.
  unfold System.step_main in Hstep. unfold caller_progress in Hc. simpl in Hstep, Hc.
  destruct m as [|pc|pc|e]; try done.
  - (* between calls *)
    destruct Hc as [[ps Hsc]|[Hsc _]]; [|by rewrite Hsc in Hstep].
    destruct sc as [|cmd rest]; [done|].
    destruct (started_running_queues n Hs)
      as (N0 & c & qc & items & u & qc' & items' & u' & ts & rpc & Hw).
    symmetry in Hsc. apply submit_then_stop_cases in Hsc
      as [(p & ps' & -> & -> & ->)|(-> & -> & ->)].
    + rewrite (worker_execute_running _ _ _ _ _ _ _ _ _ _ _ Hw) in Hstep. simplify_eq.
      assert (Hne : ∃ c0 r0, submit_then_stop ps' = c0 :: r0).
      { unfold submit_then_stop. destruct ps'; csimpl; by eexists _, _. }
      destruct Hne as (c0 & r0 & Hne).
      split; simpl; try (by unfold started);
        try (use_worker_eq; unfold submit_then_stop in *; rewrite ?Hne in *; protocol_arith).
      left. by exists ps'.
    + rewrite Hw in Hstep. unfold running in Hstep. simplify_eq.
      split; simpl; try done; try (use_worker_eq; protocol_arith).
  - (* inside stop *)
    destruct (AsyncWorker.stop pc n) as [[r n']|] eqn:Hstop; [|done].
    destruct (stop_started _ _ _ _ Hs Hstop) as (pc' & -> & Hss).
    pose proof (stop_step_started _ _ _ _ Hs Hss) as Hs'.
    destruct Hc as (-> & Hj & Hk).
    destruct pc' as [pc'|]; simplify_eq.
    + pose proof (joined_so_far_stop _ _ _ _ Hss Hj) as Hj'.
      split; simpl; try done;
        try (clear Hj Hj' Hs Hs'; inversion Hss; subst; use_worker_eq; protocol_arith).
      split_and!; [done..|].
      inversion Hss; subst; try done. use_worker_eq. lia. lia.
    + pose proof (joined_so_far_return _ _ _ Hss Hj) as Hfs.
      split; simpl; try done;
        try (clear Hj Hfs Hs Hs'; inversion Hss; subst; use_worker_eq; protocol_arith).
      by right.
Qed.

(** ** Draining *)

Arguments deliveries : simpl never.

Arguments outputs : simpl never.

Arguments val_of : simpl never.

Lemma pills_last_tail {A} (x : qitem A) rest : pills_last (x :: rest) → pills_last rest.
Proof.
  destruct x; simpl; [|done]. by induction rest as [|[|a] rest IH].
Qed.

Lemma pills_last_put_pill {A} (q : list (qitem A)) :
  pills_last q → pills_last (q ++ [PoisonPill]).
Proof.
  induction q as [|[|a] q IH]; simpl; try done.
  intros H. by rewrite payloads_app, H.
Qed.

Lemma pills_last_put_item {A} (q : list (qitem A)) a :
  pills q = 0 → pills_last (q ++ [Item a]).
Proof.
  by induction q as [|[|b] q IH].
Qed.

Lemma pills_last_no_payloads {A} (q : list (qitem A)) : payloads q = [] → pills_last q.
Proof. by induction q as [|[|a] q IH]. Qed.

Lemma deliveries_app t1 t2 : deliveries (t1 ++ t2) = deliveries t1 ++ deliveries t2.
Proof. apply omap_app. Qed.

Lemma full_fan_out_app obs r1 r2 :
  full_fan_out obs (r1 ++ r2) = full_fan_out obs r1 ++ full_fan_out obs r2.
Proof. apply bind_app. Qed.

Lemma deliveries_observers obs r :
  deliveries ((λ o, ObserverNotified (observer_id o) r) <$> obs)
  = (λ o, ObserverNotified (observer_id o) r) <$> obs.
Proof. unfold deliveries. induction obs as [|o obs IH]; csimpl; [done|]. by rewrite IH. Qed.

Lemma outputs_observers obs r :
  outputs ((λ o, ObserverNotified (observer_id o) r) <$> obs) = [].
Proof. unfold outputs. induction obs as [|o obs IH]; csimpl; [done|]. by rewrite IH. Qed.

Lemma fan_out_accepted obs r :
  accepted obs r →
  fan_out obs r = ((λ o, ObserverNotified (observer_id o) r) <$> obs, Ok tt).
Proof. apply fan_out_all_ok. Qed.

Lemma _get_target_func_frame w tr v n :
  (Worker._get_target_func (set_worker w (set_trace tr (set__value v n)))).1
  = (Worker._get_target_func n).1.
Proof.
  unfold Worker._get_target_func, bind, gets, set_worker, set_trace, set__value. simpl.
  destruct (target_func n); [done|]. by destruct (target_class n).
Qed.

Lemma outputs_snoc_other tr e :
  match e with OutputNotified _ => False | _ => True end →
  outputs (tr ++ [e]) = outputs tr.
Proof. intros He. rewrite outputs_app. destruct e; simpl; try done; by rewrite app_nil_r. Qed.

Lemma deliveries_snoc_other tr e :
  match e with OutputNotified _ | ObserverNotified _ _ => False | _ => True end →
  deliveries (tr ++ [e]) = deliveries tr.
Proof. intros He. rewrite deliveries_app. destruct e; simpl; try done; by rewrite app_nil_r. Qed.

Ltac old_thread f :=
  match goal with
  | Hj : ?ts !! ?j = Some ?t, Hth : Forall (thread_ok f) ?ts |- _ =>
      let Hok := fresh "Hok" in
      pose proof (Forall_lookup_1 _ _ _ _ Hth Hj) as Hok;
      unfold thread_ok, thread in Hok; simpl in Hok
  end.

Lemma threads_bind_at {X} (g : worker_thread → list X) ts j t t' gt gt' :
  ts !! j = Some t → g t = gt → g t' = gt' →
  ts ≫= g ≡ₚ gt ++ (delete j ts ≫= g)
  ∧ <[j := t']> ts ≫= g ≡ₚ gt' ++ (delete j ts ≫= g).
Proof. intros Hj <- <-. by apply threads_bind. Qed.

(** Rewrites the goal and the hypotheses in terms of the threads other than
    the one that moves. *)
Ltac split_threads :=
  match goal with
  | Hj : ?ts !! ?j = Some ?t |- context [<[?j := ?t']> ?ts] =>
      let p := eval cbv [thread_payloads thread wt_pc] in (thread_payloads t) in
      let p' := eval cbv [thread_payloads thread wt_pc] in (thread_payloads t') in
      let r := eval cbv [thread_results thread wt_pc] in (thread_results t) in
      let r' := eval cbv [thread_results thread wt_pc] in (thread_results t') in
      let H1 := fresh in let H2 := fresh in
      let H3 := fresh in let H4 := fresh in
      destruct (threads_bind_at thread_payloads ts j t t' p p' Hj eq_refl eq_refl) as [H1 H2];
      destruct (threads_bind_at thread_results ts j t t' r r' Hj eq_refl eq_refl) as [H3 H4];
      rewrite ?H2, ?H4;
      repeat match goal with
             | H : context [ts ≫= thread_payloads] |- _ =>
                 tryif constr_eq H H1 then fail else rewrite H1 in H
             | H : context [ts ≫= thread_results] |- _ =>
                 tryif constr_eq H H3 then fail else rewrite H3 in H
             end;
      clear H1 H2 H3 H4; simpl in *
  end.

Lemma target_set_worker w n :
  (Worker._get_target_func (set_worker w n)).1 = (Worker._get_target_func n).1.
Proof.
  unfold Worker._get_target_func, bind, gets, set_worker. simpl.
  destruct (target_func n); [done|]. by destruct (target_class n).
Qed.

Lemma target_set_trace tr n :
  (Worker._get_target_func (set_trace tr n)).1 = (Worker._get_target_func n).1.
Proof.
  unfold Worker._get_target_func, bind, gets, set_trace. simpl.
  destruct (target_func n); [done|]. by destruct (target_class n).
Qed.

Lemma target_set__value v n :
  (Worker._get_target_func (set__value v n)).1 = (Worker._get_target_func n).1.
Proof.
  unfold Worker._get_target_func, bind, gets, set__value. simpl.
  destruct (target_func n); [done|]. by destruct (target_class n).
Qed.

Ltac view := unfold threads, drainer, work_queue, results_queue, async_of; simpl.

(** Closes the fields of the invariant that a step leaves as they are. *)
Ltac frame :=
  first
    [ done
    | by rewrite ?target_set_worker, ?target_set_trace, ?target_set__value
    | by rewrite ?outputs_app, ?deliveries_app; simpl; rewrite ?app_nil_r ].

Ltac new_thread_ok :=
  apply Forall_insert; [done|]; unfold thread_ok, thread in *; simpl in *; congruence.

Ltac pill_takers :=
  let Hpos := fresh "Hpos" in
  intros Hpos; thread_sums; unfold took_pill, thread in *; simpl in *;
  match goal with
  | Hnw : _ → payloads ?q = [] |- payloads ?q = [] => apply Hnw; lia
  | _ => lia
  end.

Ltac norm_lists :=
  repeat first
    [ rewrite fmap_app | rewrite fmap_cons | rewrite payloads_app
    | rewrite payloads_item | rewrite payloads_pill | rewrite outputs_app ];
  simpl; rewrite ?app_nil_r.

Ltac conserved Hcons := split_threads; rewrite <- Hcons; norm_lists; solve_Permutation.

Ltac forall_lists H :=
  split_threads; revert H; norm_lists;
  repeat first [rewrite Forall_app | rewrite Forall_cons | rewrite Forall_nil]; tauto.

(** An acknowledgement cannot fail: the thread still holds an item. *)
Ltac nothing_unfinished :=
  exfalso;
  match goal with
  | Hj : ?ts !! ?j = Some ?t |- _ =>
      pose proof (proj1 (threads_sum holding ts j t t Hj))
  end;
  unfold queue, holding, thread in *; simpl in *; lia.

Lemma held_payload_succeeds f obs A B ts j tgt args kw :
  Forall (succeeds f obs) (A ++ B ++ (ts ≫= thread_payloads)) →
  ts !! j = Some (thread tgt (WGotPayload args kw)) →
  succeeds f obs (args, kw).
Proof.
  rewrite !Forall_app. intros (_ & _ & H) Hj.
  destruct (threads_bind thread_payloads ts j _ (thread tgt WGet) Hj) as [Hp _].
  rewrite Hp in H. simpl in H. by apply Forall_cons in H as [H _].
Qed.

(** The pill for the result queue is put only once every execution worker
    has terminated. *)
Lemma result_pill_after_join N s j t :
  caller_progress N s → result_pills_put s ≠ 0 →
  threads (System.node s) !! j = Some t → worker_terminated t = true.
Proof.
  unfold caller_progress, result_pills_put. destruct s as [n m sc]. simpl.
  destruct m as [|[]| |]; try done.
  - destruct sc; [|done]. intros [[ps Hps]|[_ [Hall _]]] _.
    + by destruct ps.
    + apply Hall.
  - intros (_ & Hall & _) _. apply Hall.
Qed.

Lemma val_of_Ok f args kw r : f args kw = Ok r → val_of f (args, kw) = r.
Proof. unfold val_of. simpl. by intros ->. Qed.

Lemma drain_inv_worker_step f obs v0 all N j n n' m sc :
  worker_step j n n' →
  stop_protocol N {| System.node := n; System.main := m; System.script := sc |} →
  drain_inv f obs v0 all {| System.node := n; System.main := m; System.script := sc |} →
  drain_inv f obs v0 all {| System.node := n'; System.main := m; System.script := sc |}.
Proof.
  intros Hst [Gs Glen Gwu Gru Gp Grp Gc]
    [Hobs Htgt Hth Hdr Hws Hrs Hnw Hnr Hcons Hsucc Hdel Hdlv Hval].
  pose proof (λ j t, result_pill_after_join N _ j t Gc) as Hjoined.
  simpl in *.
  destruct Hst; use_worker_eq; old_thread f.
  - (* start *)
    assert (f0 = f) as -> by congruence.
    split; simpl; view; try frame.
    + new_thread_ok.
    + pill_takers.
    + conserved Hcons.
    + forall_lists Hsucc.
    + forall_lists Hdel.
  - (* start, target not resolved *)
    congruence.
  - (* a pill is taken *)
    split; simpl; view; try frame.
    + new_thread_ok.
    + by apply (pills_last_tail PoisonPill).
    + conserved Hcons.
    + forall_lists Hsucc.
    + forall_lists Hdel.
  - (* a payload is taken *)
    assert (Hz : sum_list_with took_pill ts = 0).
    { destruct (sum_list_with took_pill ts) eqn:Hs; [done|].
      specialize (Hnw ltac:(lia)). done. }
    split; simpl; view; try frame.
    + new_thread_ok.
    + pill_takers.
    + conserved Hcons.
    + forall_lists Hsucc.
    + forall_lists Hdel.
  - (* the pill is acknowledged *)
    split; simpl; view; try frame.
    + new_thread_ok.
    + pill_takers.
    + conserved Hcons.
    + forall_lists Hsucc.
    + forall_lists Hdel.
  - (* acknowledging with nothing unfinished *)
    nothing_unfinished.
  - (* the target returns *)
    assert (f0 = f) as -> by congruence.
    assert (Hv : val_of f (args, kw) = r) by (by apply val_of_Ok).
    split; simpl; view; try frame.
    + new_thread_ok.
    + pill_takers.
    + split_threads. rewrite <- Hcons. norm_lists. rewrite Hv. solve_Permutation.
    + forall_lists Hsucc.
    + split_threads. revert Hdel Hsucc. norm_lists.
      repeat first [rewrite Forall_app | rewrite Forall_cons | rewrite Forall_nil].
      intros Hdel (_ & _ & (r' & Hr' & Hacc) & _). simpl in Hr'.
      assert (r' = r) as -> by congruence. tauto.
  - (* the target raises *)
    exfalso. assert (f0 = f) as -> by congruence.
    destruct (held_payload_succeeds _ _ _ _ _ _ _ _ _ Hsucc H0) as (r & Hr & _).
    simpl in Hr. congruence.
  - (* no target *)
    done.
  - (* the result is put *)
    assert (Hrp0 : result_pills_put {| System.node := n; System.main := m; System.script := sc |} = 0).
    { destruct (result_pills_put _) eqn:Hrp; [done|].
      by specialize (Hjoined _ _ ltac:(done) H0). }
    rewrite Hrp0 in Grp. unfold queue in *. simpl in *.
    split; simpl; view; try frame.
    + new_thread_ok.
    + apply pills_last_put_item. lia.
    + pill_takers.
    + intros Hpos. lia.
    + conserved Hcons.
    + forall_lists Hsucc.
    + forall_lists Hdel.
  - (* the item is acknowledged *)
    split; simpl; view; try frame.
    + new_thread_ok.
    + pill_takers.
    + conserved Hcons.
    + forall_lists Hsucc.
    + forall_lists Hdel.
  - (* acknowledging with nothing unfinished *)
    nothing_unfinished.
Qed.

Lemma last_outputs_snoc (outs : list value) (r v0 : value) :
  default v0 (last (outs ++ [r])) = r.
Proof. by rewrite last_snoc. Qed.

Ltac drainer_pill :=
  let Hpos := fresh "Hpos" in
  intros Hpos; unfold drainer_took_pill in *; simpl in *;
  first [ done | lia
        | match goal with H : _ → @eq _ ?x _ |- @eq _ ?x _ => apply H; lia end ].

Ltac conserved_here Hcons := rewrite <- Hcons; norm_lists; solve_Permutation.

Ltac forall_here H :=
  revert H; norm_lists;
  repeat first [rewrite Forall_app | rewrite Forall_cons | rewrite Forall_nil]; tauto.

Lemma drain_inv_result_step f obs v0 all N n n' m sc :
  result_step n n' →
  stop_protocol N {| System.node := n; System.main := m; System.script := sc |} →
  drain_inv f obs v0 all {| System.node := n; System.main := m; System.script := sc |} →
  drain_inv f obs v0 all {| System.node := n'; System.main := m; System.script := sc |}.
Proof.
  intros Hst [Gs Glen Gwu Gru Gp Grp Gc]
    [Hobs Htgt Hth Hdr Hws Hrs Hnw Hnr Hcons Hsucc Hdel Hdlv Hval].
  simpl in *.
  destruct Hst; use_worker_eq; unfold queue in *; simpl in *.
  - (* the pill is taken *)
    split; simpl; view; try frame.
    by apply pills_last_no_payloads.
  - (* a result is taken *)
    split; simpl; view; try frame.
    + intros Hpos. lia.
    + conserved_here Hcons.
    + forall_here Hdel.
  - (* the pill is acknowledged *)
    split; simpl; view; try frame.
  - (* acknowledging with nothing unfinished *)
    exfalso. lia.
  - (* the result is handled *)
    assert (Hacc : accepted obs r).
    { revert Hdel. rewrite !Forall_app. rewrite Forall_cons. tauto. }
    rewrite Hobs, (fan_out_accepted _ _ Hacc) in H0. simplify_eq.
    split; simpl; view; try frame.
    + rewrite <- Hcons. norm_lists.
      change (outputs (OutputNotified r :: ?l)) with (r :: outputs l).
      rewrite outputs_observers. solve_Permutation.
    + forall_here Hdel.
    + rewrite deliveries_app, outputs_app, full_fan_out_app, Hdlv.
      f_equal. change (deliveries (?e :: ?l)) with (e :: deliveries l).
      rewrite deliveries_observers.
      change (outputs (OutputNotified r :: ?l)) with (r :: outputs l).
      rewrite outputs_observers. unfold full_fan_out. simpl. by rewrite app_nil_r.
    + rewrite outputs_app.
      change (outputs (OutputNotified r :: ?l)) with (r :: outputs l).
      rewrite outputs_observers. by rewrite last_outputs_snoc.
  - (* an observer raises *)
    exfalso.
    assert (Hacc : accepted obs r).
    { revert Hdel. rewrite !Forall_app. rewrite Forall_cons. tauto. }
    rewrite Hobs, (fan_out_accepted _ _ Hacc) in H0. congruence.
  - (* the result is acknowledged *)
    split; simpl; view; try frame.
  - (* acknowledging with nothing unfinished *)
    exfalso. lia.
Qed.

Lemma script_payloads_execute a k rest :
  script_payloads (System.Execute a k :: rest) = (a, k) :: script_payloads rest.
Proof. done. Qed.

Lemma drain_inv_main_step f obs v0 all N s s' :
  stop_protocol N s → drain_inv f obs v0 all s →
  System.step_main s = Some s' → drain_inv f obs v0 all s'.
Proof.
  intros [Gs Glen Gwu Gru Gp Grp Gc]
    [Hobs Htgt Hth Hdr Hws Hrs Hnw Hnr Hcons Hsucc Hdel Hdlv Hval] Hstep.
  destruct s as [n m sc]. simpl in *.
  unfold System.step_main in Hstep. unfold caller_progress in Gc. simpl in Hstep, Gc.
  destruct m as [|pc|pc|e]; try done.
  - (* between calls *)
    destruct Gc as [[ps Hsc]|[Hsc _]]; [|by rewrite Hsc in Hstep].
    destruct sc as [|cmd rest]; [done|].
    destruct (started_running_queues n Gs)
      as (N0 & c & qc & items & u & qc' & items' & u' & ts & rpc & Hw).
    symmetry in Hsc. apply submit_then_stop_cases in Hsc
      as [(p & ps' & -> & -> & ->)|(-> & -> & ->)].
    + rewrite (worker_execute_running _ _ _ _ _ _ _ _ _ _ _ Hw) in Hstep. simplify_eq.
      assert (Hne : ∃ c0 r0, submit_then_stop ps' = c0 :: r0).
      { unfold submit_then_stop. destruct ps'; csimpl; by eexists _, _. }
      destruct Hne as (c0 & r0 & Hne).
      unfold pills_put in Gp. simpl in Gp.
      destruct p as [a k]. use_worker_eq. unfold queue in *. simpl in *.
      rewrite ?script_payloads_execute in *.
      split; simpl; view; try frame.
      * apply pills_last_put_item. lia.
      * intros Hpos. lia.
      * conserved_here Hcons.
      * forall_here Hsucc.
    + rewrite Hw in Hstep. unfold running in Hstep. simplify_eq.
      split; simpl; view; try frame.
  - (* inside stop *)
    destruct (AsyncWorker.stop pc n) as [[r n']|] eqn:Hstop; [|done].
    destruct (stop_started _ _ _ _ Gs Hstop) as (pc' & -> & Hss).
    destruct Gc as (-> & Hj & Hk).
    assert (drain_inv f obs v0 all
              {| System.node := n'; System.main := System.Idle; System.script := [] |}).
    { destruct Hss; split; simpl; view; use_worker_eq; unfold queue in *; simpl in *;
        try frame.
      - by apply pills_last_put_pill.
      - intros Hpos. rewrite payloads_app, Hnw by done. done.
      - conserved_here Hcons.
      - forall_here Hsucc.
      - by apply pills_last_put_pill.
      - intros Hpos. rewrite payloads_app, Hnr by done. done.
      - conserved_here Hcons.
      - forall_here Hdel. }
    destruct pc' as [pc'|]; simplify_eq; by destruct H.
Qed.

(** ** Runs that submit and then stop *)

Lemma sum_replicate (g : worker_thread → nat) N t :
  g t = 0 → sum_list_with g (replicate N t) = 0.
Proof. intros Hg. induction N as [|N IH]; simpl; [done|]. lia. Qed.

Lemma bind_replicate {X} (g : worker_thread → list X) N t :
  g t = [] → replicate N t ≫= g = [].
Proof. intros Hg. induction N as [|N IH]; csimpl; [done|]. by rewrite Hg, IH. Qed.

Lemma start_async n0 a0 :
  worker n0 = WAsync a0 →
  (Node.start n0).2 =
  set_worker
    (running (num_threads a0) (async_class a0)
       (queue (_get_queue_class (async_class a0)) [] 0)
       (queue (_get_queue_class (async_class a0)) [] 0)
       (replicate (num_threads a0) (thread None WStart)) RGet) n0.
Proof. intros Hw. unfold Node.start. run_m. by rewrite Hw. Qed.

Lemma stop_protocol_init n0 a0 ps :
  worker n0 = WAsync a0 → stop_protocol (num_threads a0) (submitted n0 ps).
Proof.
  intros Hw. unfold submitted. rewrite (start_async _ _ Hw).
  assert (Hne : ∃ c0 r0, submit_then_stop ps = c0 :: r0).
  { unfold submit_then_stop. destruct ps; csimpl; by eexists _, _. }
  destruct Hne as (c0 & r0 & Hne).
  split; simpl; view; unfold pills_put, result_pills_put; simpl; rewrite ?Hne.
  - unfold started. simpl. by eauto.
  - apply length_replicate.
  - by rewrite sum_replicate.
  - done.
  - by rewrite sum_replicate.
  - done.
  - unfold caller_progress. simpl. left. by exists ps.
Qed.

Lemma drain_inv_init f n0 a0 ps :
  worker n0 = WAsync a0 →
  (Worker._get_target_func n0).1 = Ok f →
  Forall (succeeds f (observers n0)) ps →
  drain_inv f (observers n0) (_value n0) ps (submitted n0 ps).
Proof.
  intros Hw Hf Hps. unfold submitted. rewrite (start_async _ _ Hw).
  split; simpl; view; rewrite ?script_payloads_submit.
  - done.
  - by rewrite target_set_trace, target_set_worker.
  - apply Forall_replicate. done.
  - done.
  - done.
  - done.
  - done.
  - done.
  - rewrite bind_replicate by done. rewrite bind_replicate by done.
    by rewrite !app_nil_r.
  - rewrite bind_replicate by done. by rewrite !app_nil_r.
  - rewrite bind_replicate by done. done.
  - done.
  - done.
Qed.

Lemma stop_protocol_step N t s s' :
  stop_protocol N s → System.step t s = Some s' → stop_protocol N s'.
Proof.
  intros Hinv Hstep. destruct t as [|j|]; simpl in Hstep.
  - by eapply stop_protocol_main_step.
  - destruct s as [n m sc]. simpl in *.
    destruct (AsyncWorker._worker j n) as [n'|] eqn:Hn; simpl in Hstep; simplify_eq.
    eapply stop_protocol_worker_step; [|done].
    apply _worker_step; [|done]. by destruct Hinv.
  - destruct s as [n m sc]. simpl in *.
    destruct (AsyncWorker._result_handler n) as [n'|] eqn:Hn; simpl in Hstep; simplify_eq.
    eapply stop_protocol_result_step; [|done].
    apply _result_handler_step; [|done]. by destruct Hinv.
Qed.

Lemma drain_inv_step f obs v0 all N t s s' :
  stop_protocol N s → drain_inv f obs v0 all s →
  System.step t s = Some s' → drain_inv f obs v0 all s'.
Proof.
  intros Hsp Hinv Hstep. destruct t as [|j|]; simpl in Hstep.
  - by eapply drain_inv_main_step.
  - destruct s as [n m sc]. simpl in *.
    destruct (AsyncWorker._worker j n) as [n'|] eqn:Hn; simpl in Hstep; simplify_eq.
    eapply drain_inv_worker_step; [|done..].
    apply _worker_step; [|done]. by destruct Hsp.
  - destruct s as [n m sc]. simpl in *.
    destruct (AsyncWorker._result_handler n) as [n'|] eqn:Hn; simpl in Hstep; simplify_eq.
    eapply drain_inv_result_step; [|done..].
    apply _result_handler_step; [|done]. by destruct Hsp.
Qed.

Lemma stop_protocol_run N sched s :
  stop_protocol N s → stop_protocol N (System.run sched s).
Proof.
  revert s. induction sched as [|t sched IH]; intros s Hinv; simpl; [done|].
  apply IH. destruct (System.step t s) as [s'|] eqn:Hstep; simpl; [|done].
  by eapply stop_protocol_step.
Qed.

Lemma drain_inv_run f obs v0 all N sched s :
  stop_protocol N s → drain_inv f obs v0 all s →
  drain_inv f obs v0 all (System.run sched s).
Proof.
  revert s. induction sched as [|t sched IH]; intros s Hsp Hinv; simpl; [done|].
  destruct (System.step t s) as [s'|] eqn:Hstep; simpl; [|by apply IH].
  apply IH; [by eapply stop_protocol_step|by eapply drain_inv_step].
Qed.

Lemma all_exited f ts :
  Forall (thread_ok f) ts →
  (∀ j t, ts !! j = Some t → worker_terminated t = true) →
  ts ≫= thread_payloads = [] ∧ ts ≫= thread_results = []
  ∧ sum_list_with took_pill ts = length ts.
Proof.
  induction ts as [|t ts IH]; intros Hok Hall; csimpl; [done|].
  apply Forall_cons in Hok as [Ht Hok].
  destruct IH as (-> & -> & ->); [done|intros j; apply (Hall (S j))|].
  specialize (Hall 0 t eq_refl).
  unfold thread_ok, worker_terminated, thread_payloads, thread_results, took_pill in *.
  by destruct (wt_pc t).
Qed.

(** ** [stop] is never stuck *)

Lemma pills_nonempty {A} (q : list (qitem A)) : 0 < pills q → q ≠ [].
Proof. intros H ->. unfold pills in H. simpl in H. lia. Qed.

Lemma took_pill_bound ts : sum_list_with took_pill ts ≤ length ts.
Proof.
  induction ts as [|t ts IH]; simpl; [done|].
  unfold took_pill at 1. destruct (wt_pc t); lia.
Qed.

Lemma took_pill_live ts j t :
  ts !! j = Some t → took_pill t = 0 → sum_list_with took_pill ts < length ts.
Proof.
  intros Hj Ht. destruct (threads_sum took_pill ts j t t Hj) as [-> _].
  pose proof (took_pill_bound (delete j ts)) as Hb.
  rewrite length_delete in Hb by (by eexists). apply lookup_lt_Some in Hj. lia.
Qed.

(** An execution worker that has not terminated can move, unless it waits
    on an empty work queue. *)
Lemma worker_can_step n j t :
  started n → threads n !! j = Some t → worker_terminated t = false →
  (wt_pc t = WGet → qitems (work_queue n) ≠ []) →
  is_Some (AsyncWorker._worker j n).
Proof.
  intros Hs Hj Ht Hq.
  destruct (started_running_queues _ Hs)
    as (N0 & c & qc & items & u & qc' & items' & u' & ts & rpc & Hw).
  unfold threads, work_queue, async_of in *. rewrite Hw in Hj, Hq. simpl in Hj, Hq.
  unfold AsyncWorker._worker. rewrite Hw. unfold running. simpl. rewrite Hj.
  destruct t as [tgt pc]. simpl in *. destruct pc; simpl in *; try done.
  - by destruct (Worker._get_target_func n) as [[?|?] ?].
  - destruct items as [|[|[args kw]] items]; [by destruct Hq|done..].
  - by destruct (JQ.task_done _).
  - by destruct (Worker.call tgt args kw n) as [[?|?] ?].
  - by destruct (JQ.task_done _).
Qed.

(** So can the result-draining worker. *)
Lemma drainer_can_step n :
  started n → result_terminated (drainer n) = false →
  (drainer n = RGet → qitems (results_queue n) ≠ []) →
  is_Some (AsyncWorker._result_handler n).
Proof.
  intros Hs Ht Hq.
  destruct (started_running_queues _ Hs)
    as (N0 & c & qc & items & u & qc' & items' & u' & ts & rpc & Hw).
  unfold drainer, results_queue, async_of in *. rewrite Hw in Ht, Hq. simpl in Ht, Hq.
  unfold AsyncWorker._result_handler. rewrite Hw. unfold running. simpl.
  destruct rpc; simpl in *; try done.
  - destruct items' as [|[|r] items']; [by destruct Hq|done..].
  - by destruct (JQ.task_done _).
  - by destruct (Worker._handle_result r n) as [[?|?] ?].
  - by destruct (JQ.task_done _).
Qed.

(** While [stop] has not returned, some thread can move: the caller, the
    execution worker it waits for, or the result-draining worker. *)
Lemma stop_protocol_progress N s :
  stop_protocol N s → ¬ System.returned s → ∃ t, is_Some (System.step t s).
Proof.
  intros [Hs Hlen Hwu Hru Hp Hrp Hc] Hnr. destruct s as [n m sc]. simpl in *.
  destruct (started_running_queues _ Hs)
    as (N0 & c & qc & items & u & qc' & items' & u' & ts & rpc & Hw).
  unfold caller_progress in Hc. unfold pills_put in Hp. unfold result_pills_put in Hrp.
  simpl in *.
  destruct m as [|pc|pc|e]; try done.
  - exists System.TMain. simpl. unfold System.step_main. simpl.
    destruct Hc as [[ps ->]|[-> _]]; [|by destruct Hnr].
    destruct ps as [|[args kw] ps]; csimpl.
    + rewrite Hw. done.
    + by destruct (Node.worker_execute args kw n) as [[?|?] ?].
  - destruct Hc as (-> & Hj & Hk).
    assert (Hmain : ∀ x, AsyncWorker.stop pc n = Some x →
                         ∃ t, is_Some (System.step t {| System.node := n;
                                System.main := System.InStop pc; System.script := [] |})).
    { intros [[[pc'|]|e] n'] Hx; exists System.TMain; simpl; unfold System.step_main; simpl;
        by rewrite Hx. }
    unfold AsyncWorker.stop in Hmain. rewrite Hw in Hmain. unfold running in Hmain.
    simpl in Hmain.
    destruct pc as [|[|k]|i| |]; try (by eapply Hmain).
    + destruct (ts !! i) as [t|] eqn:Hi; [|by eapply Hmain].
      destruct (worker_terminated t) eqn:Ht; [by eapply Hmain|].
      exists (System.TWorker i). simpl.
      destruct (worker_can_step n i t Hs) as [n' Hn']; [|done| |by rewrite Hn'].
      * unfold threads, async_of. by rewrite Hw.
      * intros Hget. apply pills_nonempty.
        assert (sum_list_with took_pill (threads n) < length (threads n)).
        { eapply (took_pill_live _ i t).
          - unfold threads, async_of. by rewrite Hw.
          - unfold took_pill. by rewrite Hget. }
        lia.
    + destruct (result_terminated rpc) eqn:Ht; [by eapply Hmain|].
      exists System.TResult. simpl.
      assert (Hd : drainer n = rpc) by (unfold drainer, async_of; by rewrite Hw).
      destruct (drainer_can_step n Hs) as [n' Hn']; [by rewrite Hd| |by rewrite Hn'].
      intros Hget. apply pills_nonempty. rewrite Hget in Hrp. simpl in Hrp. lia.
Qed.

(** ** [stop] returns *)

Ltac weigh :=
  unfold work_left; simpl; use_worker_eq; unfold queue in *; simpl in *;
  rewrite ?length_insert, ?length_app_one;
  try match goal with
      | Hj : ?ts !! ?j = Some ?t |- context [<[?j := ?t']> ?ts] =>
          pose proof (sum_insert worker_weight ts j t t' Hj)
      end;
  unfold thread, worker_weight, drainer_weight, caller_weight, stop_weight in *;
  simpl in *; try lia.

Lemma work_left_worker_step j n n' m sc :
  worker_step j n n' →
  work_left {| System.node := n'; System.main := m; System.script := sc |}
  < work_left {| System.node := n; System.main := m; System.script := sc |}.
Proof. destruct 1; weigh. Qed.

Lemma work_left_result_step n n' m sc :
  result_step n n' →
  work_left {| System.node := n'; System.main := m; System.script := sc |}
  < work_left {| System.node := n; System.main := m; System.script := sc |}.
Proof. destruct 1; weigh. Qed.

Lemma work_left_stop_step n pc pc' n' :
  stop_step n pc pc' n' →
  work_left {| System.node := n';
               System.main := from_option System.InStop System.Idle pc';
               System.script := [] |}
  < work_left {| System.node := n; System.main := System.InStop pc; System.script := [] |}.
Proof.
  destruct 1; weigh.
  match goal with H : _ !! _ = Some _ |- _ => apply lookup_lt_Some in H end. lia.
Qed.

Lemma work_left_main_step N s s' :
  stop_protocol N s → System.step_main s = Some s' → work_left s' < work_left s.
Proof.
  intros [Hs Hlen Hwu Hru Hp Hrp Hc] Hstep. destruct s as [n m sc]. simpl in *.
  unfold System.step_main in Hstep. unfold caller_progress in Hc. simpl in Hstep, Hc.
  destruct m as [|pc|pc|e]; try done.
  - destruct Hc as [[ps Hsc]|[Hsc _]]; [|by rewrite Hsc in Hstep].
    destruct sc as [|cmd rest]; [done|].
    destruct (started_running_queues n Hs)
      as (N0 & c & qc & items & u & qc' & items' & u' & ts & rpc & Hw).
    symmetry in Hsc. apply submit_then_stop_cases in Hsc
      as [(p & ps' & -> & -> & ->)|(-> & -> & ->)].
    + rewrite (worker_execute_running _ _ _ _ _ _ _ _ _ _ _ Hw) in Hstep. simplify_eq.
      weigh.
    + rewrite Hw in Hstep. unfold running in Hstep. simplify_eq. weigh.
  - destruct (AsyncWorker.stop pc n) as [[r n']|] eqn:Hstop; [|done].
    destruct (stop_started _ _ _ _ Hs Hstop) as (pc' & -> & Hss).
    destruct Hc as (-> & _ & _).
    pose proof (work_left_stop_step _ _ _ _ Hss) as Hlt.
    destruct pc' as [pc'|]; by simplify_eq.
Qed.

Lemma work_left_step N t s s' :
  stop_protocol N s → System.step t s = Some s' → work_left s' < work_left s.
Proof.
  intros Hsp Hstep. destruct t as [|j|]; simpl in Hstep.
  - by eapply work_left_main_step.
  - destruct s as [n m sc]. simpl in *.
    destruct (AsyncWorker._worker j n) as [n'|] eqn:Hn; simpl in Hstep; simplify_eq.
    apply work_left_worker_step with j. apply _worker_step; [|done]. by destruct Hsp.
  - destruct s as [n m sc]. simpl in *.
    destruct (AsyncWorker._result_handler n) as [n'|] eqn:Hn; simpl in Hstep; simplify_eq.
    apply work_left_result_step. apply _result_handler_step; [|done]. by destruct Hsp.
Qed.

(** No schedule makes more moves than [work_left] allows. *)
Lemma moves_bounded N sched s :
  stop_protocol N s → moves sched s + work_left (System.run sched s) ≤ work_left s.
Proof.
  revert s. induction sched as [|t sched IH]; intros s Hsp; simpl; [done|].
  destruct (System.step t s) as [s'|] eqn:Hstep; simpl; [|by apply IH].
  pose proof (work_left_step _ _ _ _ Hsp Hstep).
  pose proof (IH s' (stop_protocol_step _ _ _ _ Hsp Hstep)). lia.
Qed.

(** From wherever a run stands, [stop] can be brought to return. *)
Lemma stop_can_return N s :
  stop_protocol N s →
  ∃ sched, System.returned (System.run sched s) ∧ length sched ≤ work_left s.
Proof.
  remember (work_left s) as k eqn:Hk. revert s Hk.
  induction (lt_wf k) as [k _ IH]. intros s -> Hsp.
  assert (System.returned s ∨ ¬ System.returned s) as [Hret|Hnr].
  { unfold System.returned.
    destruct (System.main s), (System.script s); (by left) || (right; by intros [? ?]). }
  - exists []. split; [done|]. simpl. lia.
  - destruct (stop_protocol_progress N s Hsp Hnr) as (t & s' & Hstep).
    pose proof (work_left_step _ _ _ _ Hsp Hstep) as Hlt.
    destruct (IH _ Hlt s' eq_refl (stop_protocol_step _ _ _ _ Hsp Hstep))
      as (sched & Hret & Hlen).
    exists (t :: sched). simpl. rewrite Hstep. simpl. split; [done|lia].
Qed.

Lemma run_app sched rest s :
  System.run (sched ++ rest) s = System.run rest (System.run sched s).
Proof. revert s. induction sched as [|t sched IH]; intros s; simpl; [done|]. apply IH. Qed.

(** C1 (drain before shutdown), with the two conditions the code needs.
    A node's asynchronous worker has just been started; its caller submits
    the invocations [ps] and then calls [stop]; [sched] is any interleaving
    of the caller with the worker's threads, and [s] the state it leads to.
    - The shutdown protocol holds in [s]: [stop] first puts one pill per
      execution worker on the work queue, waits for every execution worker
      to terminate, only then puts a single pill on the result queue and
      waits for the result-draining worker.
    - [stop] is never stuck: while it has not returned some thread can move,
      no schedule makes more than [work_left] moves in all, and the run can
      be continued until [stop] has returned.
    - If the worker has at least one execution worker, and on every
      submitted invocation the target returns and no observer raises, then
      once [stop] has returned the output port has been notified of exactly
      the results of [ps], in some order, each notification was fanned out
      to every observer, and the node's value is the last result delivered. *)
Theorem stop_drains_submitted_work (n0 : Node) (a0 : AsyncWorker)
    (ps : list (list value * gmap string value)) (sched : list System.tid) :
  worker n0 = WAsync a0 →
  let s := System.run sched (submitted n0 ps) in
  stop_protocol (num_threads a0) s
  ∧ (¬ System.returned s → ∃ t, is_Some (System.step t s))
  ∧ moves sched (submitted n0 ps) ≤ work_left (submitted n0 ps)
  ∧ (∃ rest, System.returned (System.run (sched ++ rest) (submitted n0 ps)))
  ∧ ∀ f, 1 ≤ num_threads a0 →
         (Worker._get_target_func n0).1 = Ok f →
         Forall (succeeds f (observers n0)) ps →
         System.returned s →
         outputs (trace (System.node s)) ≡ₚ val_of f <$> ps
         ∧ deliveries (trace (System.node s))
           = full_fan_out (observers n0) (outputs (trace (System.node s)))
         ∧ _value (System.node s) = default (_value n0) (last (outputs (trace (System.node s)))).
Proof.
  intros Hw s.
  pose proof (stop_protocol_run _ sched _ (stop_protocol_init n0 a0 ps Hw)) as Hsp.
  split; [exact Hsp|].
  split; [by apply (stop_protocol_progress (num_threads a0))|].
  split.
  { pose proof (moves_bounded _ sched _ (stop_protocol_init n0 a0 ps Hw)). lia. }
  split.
  { destruct (stop_can_return _ _ Hsp) as (rest & Hret & _).
    exists rest. by rewrite run_app. }
  intros f HN Hf Hps [Hmain Hscript].
  pose proof (drain_inv_run f _ _ _ _ sched _ (stop_protocol_init n0 a0 ps Hw)
                (drain_inv_init f n0 a0 ps Hw Hf Hps)) as Hdi.
  fold s in Hsp, Hdi.
  destruct Hsp as [Gs Glen Gwu Gru Gp Grp Gc].
  destruct Hdi as [Hobs Htgt Hth Hdr Hws Hrs Hnw Hnr Hcons Hsucc Hdel Hdlv Hval].
  unfold caller_progress, pills_put, result_pills_put in *.
  rewrite Hmain, Hscript in *.
  destruct Gc as [[ps' Hps']|[_ [Hall Hdrained]]]; [by destruct ps'|].
  destruct (all_exited f _ Hth Hall) as (Hp & Hr & Htook).
  rewrite Hp, Hr in Hcons. rewrite Htook, Glen in Hnw.
  rewrite Hnw in Hcons by lia.
  assert (Hex : drainer (System.node s) = RExited).
  { unfold drainer_ok, result_terminated in *. by destruct (drainer (System.node s)). }
  rewrite Hex in *. rewrite Hnr in Hcons by (simpl; lia).
  simpl in Hcons. split_and!; done.
Qed.

(** ** [join] after a failed invocation: the caller stays blocked *)

Lemma join_blocked_worker_step f args kw e j n n' m sc :
  f args kw = Raise e →
  worker_step j n n' →
  join_blocked_inv f args kw {| System.node := n; System.main := m; System.script := sc |} →
  join_blocked_inv f args kw {| System.node := n'; System.main := m; System.script := sc |}.
Proof.
  intros He Hst [Hs Htgt Hth Hwq Hrq Hdr Hc]. simpl in *.
  pose proof (worker_step_started _ _ _ Hst) as Hs'.
  destruct Hst; use_worker_eq;
    match goal with
    | Hj : ?ts !! ?j = Some ?t, Hth : Forall _ ?ts |- _ =>
        pose proof (Forall_lookup_1 _ _ _ _ Hth Hj) as Hok;
        unfold only_fails, thread in Hok; simpl in Hok
    end; try done; unfold queue in *; simpl in *.
  - assert (f0 = f) as -> by congruence.
    split; simpl; view; try frame. by apply Forall_insert.
  - congruence.
  - by apply Forall_cons in Hwq as [? _].
  - apply Forall_cons in Hwq as [Hx Hwq]. simplify_eq.
    split; simpl; view; try frame. by apply Forall_insert.
  - destruct Hok as (? & -> & ->). simplify_eq. congruence.
  - destruct Hok as (? & -> & ->). simplify_eq.
    split; simpl; view; try frame. by apply Forall_insert.
  - by destruct Hok.
Qed.

Lemma join_blocked_no_result_step f args kw n n' m sc :
  join_blocked_inv f args kw {| System.node := n; System.main := m; System.script := sc |} →
  ¬ result_step n n'.
Proof.
  intros [Hs Htgt Hth Hwq Hrq Hdr Hc] Hst. simpl in *.
  destruct Hst; use_worker_eq; unfold queue in *; simpl in *; done.
Qed.

Lemma join_blocked_main_step f args kw s s' :
  join_blocked_inv f args kw s → System.step_main s = Some s' →
  join_blocked_inv f args kw s'.
Proof.
  intros [Hs Htgt Hth Hwq Hrq Hdr Hc] Hstep. destruct s as [n m sc]. simpl in *.
  unfold System.step_main in Hstep. simpl in Hstep.
  destruct (started_running_queues n Hs)
    as (N0 & c & qc & items & u & qc' & items' & u' & ts & rpc & Hw).
  destruct m as [|pc|[]|e]; try done.
  - destruct sc as [|c1 sc1]; [done|].
    destruct c1 as [a k| |]; [| |].
    all: destruct sc1 as [|c2 sc2]; try done.
    all: try (destruct c2; try done; destruct sc2; try done).
    + destruct Hc as (-> & -> & Hu).
      rewrite (worker_execute_running _ _ _ _ _ _ _ _ _ _ _ Hw) in Hstep. simplify_eq.
      use_worker_eq. unfold queue in *. simpl in *. subst.
      split; simpl; view; try frame.
      rewrite Forall_app, Forall_singleton. done.
    + rewrite Hw in Hstep. unfold running in Hstep. simplify_eq.
      split; simpl; view; try frame.
  - destruct sc; try done.
    unfold AsyncWorker.join in Hstep. rewrite Hw in Hstep. unfold running in Hstep.
    use_worker_eq. unfold queue, JQ.joined in *. simpl in *. subst.
    by rewrite bool_decide_false in Hstep by lia.
Qed.

Lemma join_blocked_step f args kw e t s s' :
  f args kw = Raise e →
  join_blocked_inv f args kw s → System.step t s = Some s' →
  join_blocked_inv f args kw s'.
Proof.
  intros He Hinv Hstep. destruct t as [|j|]; simpl in Hstep.
  - by eapply join_blocked_main_step.
  - destruct s as [n m sc]. simpl in *.
    destruct (AsyncWorker._worker j n) as [n'|] eqn:Hn; simpl in Hstep; simplify_eq.
    eapply join_blocked_worker_step; [done| |done].
    apply _worker_step; [|done]. by destruct Hinv.
  - destruct s as [n m sc]. simpl in *.
    destruct (AsyncWorker._result_handler n) as [n'|] eqn:Hn; simpl in Hstep; simplify_eq.
    destruct (join_blocked_no_result_step _ _ _ _ n' _ _ Hinv).
    apply _result_handler_step; [|done]. by destruct Hinv.
Qed.

Lemma join_blocked_run f args kw e sched s :
  f args kw = Raise e →
  join_blocked_inv f args kw s → join_blocked_inv f args kw (System.run sched s).
Proof.
  intros He. revert s. induction sched as [|t sched IH]; intros s Hinv; simpl; [done|].
  apply IH. destruct (System.step t s) as [s'|] eqn:Hstep; simpl; [|done].
  by eapply join_blocked_step.
Qed.

Lemma join_blocked_init f n0 a0 args kw :
  worker n0 = WAsync a0 →
  (Worker._get_target_func n0).1 = Ok f →
  join_blocked_inv f args kw (submit_then_join n0 args kw).
Proof.
  intros Hw Hf. unfold submit_then_join. rewrite (start_async _ _ Hw).
  split; simpl; view; try frame.
  by apply Forall_replicate.
Qed.

(** C2: [join] after a failed invocation.  A started asynchronous worker
    whose target raises on [args]; the caller submits that one invocation
    and then calls [join].  Whatever the schedule, [join] has not returned:
    [_worker] acknowledges a work item only where the target returned, so
    once [join] waits on the work queue that queue's count of unfinished
    tasks is one and stays one, the caller cannot move, and nothing has
    reached the result queue. *)
Theorem join_blocks_after_failed_invocation (n0 : Node) (a0 : AsyncWorker) (f : callable)
    (args : list value) (kw : gmap string value) (e : exn) (sched : list System.tid) :
  worker n0 = WAsync a0 →
  (Worker._get_target_func n0).1 = Ok f →
  f args kw = Raise e →
  let s := System.run sched (submit_then_join n0 args kw) in
  join_pending s
  ∧ (System.main s = System.InJoin AsyncWorker.JoinWorkerQueue →
     unfinished_tasks (work_queue (System.node s)) = 1
     ∧ System.step System.TMain s = None)
  ∧ qitems (results_queue (System.node s)) = [].
Proof.
  intros Hw Hf He s.
  pose proof (join_blocked_run f args kw e sched _ He (join_blocked_init f n0 a0 args kw Hw Hf))
    as Hinv.
  fold s in Hinv. destruct Hinv as [Hs Htgt Hth Hwq Hrq Hdr Hc].
  unfold join_pending. split_and!.
  - destruct (System.main s) as [|pc|[]|e']; try done.
    + left. destruct (System.script s) as [|[] [|[] [|]]]; try done.
      * apply list_elem_of_further, list_elem_of_here.
      * apply list_elem_of_here.
    + by right.
  - intros Hm. rewrite Hm in Hc. destruct (System.script s) eqn:Hsc; [|done].
    split; [done|]. simpl. unfold System.step_main. rewrite Hm.
    destruct (started_running_queues _ Hs)
      as (N0 & c & qc & items & u & qc' & items' & u' & ts & rpc & Hw').
    unfold AsyncWorker.join. rewrite Hw'. unfold running. simpl.
    unfold work_queue, async_of in Hc. rewrite Hw' in Hc. simpl in Hc. subst.
    by unfold JQ.joined.
  - done.
Qed.

Lemma join_blocks_after_failed_invocation_witness :
  let s := System.run (round_robin 20) (submit_then_join (async_node always_raises 2 []) [VInt 1] ∅) in
  System.main s = System.InJoin AsyncWorker.JoinWorkerQueue
  ∧ unfinished_tasks (work_queue (System.node s)) = 1
  ∧ qitems (work_queue (System.node s)) = []
  ∧ System.step System.TMain s = None.
Proof.
  intros s.
  destruct (join_blocks_after_failed_invocation (async_node always_raises 2 [])
              (AsyncWorker.new Thread 2) always_raises [VInt 1] ∅ (ValueError "bad input")
              (round_robin 20) eq_refl eq_refl eq_refl) as (_ & Hblock & _).
  assert (Hm : System.main s = System.InJoin AsyncWorker.JoinWorkerQueue) by (vm_compute; done).
  destruct (Hblock Hm) as [Hu Hstuck].
  split_and!; [exact Hm|exact Hu|vm_compute; done|exact Hstuck].
Defined.

(** ** Sample runs of [stop] *)

Lemma stop_drains_submitted_work_witness :
  let n0 := async_node double 2 [quiet_observer 7] in
  let s := System.run (round_robin 30) (submitted n0 one_two_three) in
  System.returned s
  ∧ outputs (trace (System.node s)) ≡ₚ [VInt 2; VInt 4; VInt 6]
  ∧ deliveries (trace (System.node s))
    = full_fan_out [quiet_observer 7] (outputs (trace (System.node s)))
  ∧ _value (System.node s) = default VNone (last (outputs (trace (System.node s)))).
Proof.
  intros n0 s.
  assert (Hret : System.returned s) by (split; vm_compute; reflexivity).
  split; [exact Hret|].
  destruct (stop_drains_submitted_work n0 (AsyncWorker.new Thread 2) one_two_three
              (round_robin 30) eq_refl) as (_ & _ & _ & _ & Hdrain).
  apply (Hdrain double); [simpl; lia|reflexivity| |exact Hret].
  repeat constructor; eexists; (split; [reflexivity|repeat constructor]).
Defined.

(** With no execution worker, and with an observer that raises, [stop]
    returns although submitted work whose target does not raise was never
    delivered. *)
Lemma stop_returns_before_delivery_counterexample :
  (let s := System.run (round_robin 30) (submitted (async_node double 0 []) one_two_three) in
   System.returned s
   ∧ val_of double <$> one_two_three = [VInt 2; VInt 4; VInt 6]
   ∧ outputs (trace (System.node s)) = [])
  ∧ (let s := System.run (round_robin 30)
                (submitted (async_node double 1 [picky_observer 7 2]) one_two_three) in
     System.returned s
     ∧ val_of double <$> one_two_three = [VInt 2; VInt 4; VInt 6]
     ∧ outputs (trace (System.node s)) = [VInt 2]
     ∧ _value (System.node s) = VInt 2).
Proof. vm_compute. repeat split; reflexivity. Qed.

(** ** Graph shutdown order *)









(** ** Sample runs of the synchronous worker and of a batch port *)

Lemma sync_execute_target_raises_witness :
  let n := started_sync_node reciprocal_scale [quiet_observer 3] in
  let w := started_sync reciprocal_scale in
  ∃ n1 n2,
    SyncWorker.execute w [VInt 0%Z] ∅ n = (Ok tt, n1)
    ∧ _value n1 = VNone
    ∧ outputs (trace n1) = []
    ∧ SyncWorker.execute w [VInt 4%Z] ∅ n1 = (Ok tt, n2)
    ∧ _value n2 = VInt 25
    ∧ outputs (trace n2) = [VInt 25]
    ∧ deliveries (trace n2) = [OutputNotified (VInt 25); ObserverNotified 3 (VInt 25)].
Proof.
  intros n w.
  destruct (sync_execute_target_raises n w reciprocal_scale [VInt 0%Z] ∅
              (ValueError "division by zero") eq_refl eq_refl eq_refl)
    as (n1 & H1 & Hv & _ & Htr & Ho & Hnext).
  destruct (Hnext [VInt 4%Z] ∅ (VInt 25) eq_refl) as (n2 & es & H2 & Hv2 & Htr2 & Hes).
  exists n1, n2. rewrite Hes in Htr2 by (repeat constructor).
  split_and!; [exact H1|exact Hv|exact Ho|exact H2|exact Hv2|..].
  - rewrite Htr2, Htr. reflexivity.
  - rewrite Htr2, Htr. reflexivity.
Defined.

Lemma sync_execute_observer_raises_witness :
  let n := started_sync_node double [quiet_observer 3; picky_observer 7 2; quiet_observer 9] in
  let w := started_sync double in
  ∃ n1,
    SyncWorker.execute w [VInt 1%Z] ∅ n = (Ok tt, n1)
    ∧ _value n1 = VInt 2
    ∧ trace n1 = [TargetCalled [VInt 1%Z] ∅; OutputNotified (VInt 2);
                  ObserverNotified 3 (VInt 2); ObserverNotified 7 (VInt 2);
                  LoggedError ("SyncWorker failed to execute: " +:+
                               str (TypeError "object is not iterable"));
                  LoggedError (format_exc (TypeError "object is not iterable"))].
Proof.
  intros n w.
  destruct (sync_execute_observer_raises n w double [VInt 1%Z] ∅ (VInt 2)
              (picky_observer 7 2) (TypeError "object is not iterable")
              eq_refl eq_refl eq_refl)
    as (n1 & e' & es & H1 & Hv & Hfo & Htr).
  { apply list_elem_of_further, list_elem_of_here. }
  { reflexivity. }
  exists n1. split_and!; [exact H1|exact Hv|].
  rewrite Htr. vm_compute in Hfo. injection Hfo as <- <-. reflexivity.
Defined.

Lemma batch_port_chunks_in_order_witness :
  let payload := VList [VInt 1; VInt 2; VInt 3; VInt 4; VInt 5] in
  let n' := (InputPort.notify Node.handle_input (BatchArgInputPort 2 (Some 0%Z)) payload
               batch_node).2 in
  InputPort.chunks 2 payload
    = Ok [VList [VInt 1; VInt 2]; VList [VInt 3; VInt 4]; VList [VInt 5]]
  ∧ target_calls (trace n')
    = [([VList [VInt 1; VInt 2]], ∅); ([VList [VInt 3; VInt 4]], ∅); ([VList [VInt 5]], ∅)].
Proof.
  intros payload n'.
  destruct (batch_port_chunks_in_order 2 (Some 0%Z)
              [VInt 1; VInt 2; VInt 3; VInt 4; VInt 5] batch_node)
    as (Hch & _ & _ & _ & Hn & Hcalls).
  { lia. }
  { simpl. eexists. reflexivity. }
  split; [exact Hch|].
  unfold n', payload. rewrite Hn.
  exact (Hcalls 0%Z _ _ eq_refl (Z.le_refl 0) eq_refl eq_refl eq_refl).
Defined.

(** * Further properties of the code *)

(** ** Mapping ports, and batch ports of odd sizes *)

(** X1: a [MappingArgInputPort] whose index is absent or inside the cached
    reactive vector calls [handle_input] once for each element of a list
    payload, in payload order, each at the port's index, and returns; on a
    started synchronous worker that is one target call per element, with
    that element at the index, the rest of the cached vector and the
    passive map as they were.  A payload that cannot be iterated raises a
    [TypeError] and leaves the node as it was. *)
Theorem mapping_port_triggers_per_element (idx : option Z) (data : value) (n : Node) :
  valid_idx idx n →
  match data with
  | VList l =>
      InputPort.notify Node.handle_input (MappingArgInputPort idx) data n
        = (Ok tt, trigger_all idx l n)
      ∧ (∀ i w f, idx = Some i → (0 ≤ i)%Z →
           worker n = WSync w → isStarted w = true → target w = Some f →
           target_calls (trace (trigger_all idx l n)) =
           target_calls (trace n) ++
             map (λ x, (<[Z.to_nat i := x]> (reactive_input_values n),
                        passive_input_values n)) l)
  | _ =>
      ∃ msg, InputPort.notify Node.handle_input (MappingArgInputPort idx) data n
             = (Raise (TypeError msg), n)
  end.
Proof.
  intros Hv. destruct data as [|z|l]; [by eexists..|]. split.
  - cbv [InputPort.notify InputPort.iterate bind lift]. by apply for_each_handle_input.
  - intros i w f -> Hi Hw Hst Ht.
    simpl in Hv. destruct Hv as [p Hp]. unfold py_index in Hp.
    case_decide as Hr; [|case_decide; [lia|done]].
    by apply (trigger_all_sync i l n w f).
Qed.

Lemma mapping_port_triggers_per_element_witness :
  let n' := (InputPort.notify Node.handle_input (MappingArgInputPort (Some 0%Z))
               (VList [VInt 4; VInt 5; VInt 6]) batch_node).2 in
  target_calls (trace n') = [([VInt 4], ∅); ([VInt 5], ∅); ([VInt 6], ∅)].
Proof.
  intros n'.
  destruct (mapping_port_triggers_per_element (Some 0%Z) (VList [VInt 4; VInt 5; VInt 6])
              batch_node) as [Hn Hcalls].
  { simpl. eexists. reflexivity. }
  unfold n'. rewrite Hn.
  exact (Hcalls 0%Z _ _ eq_refl (Z.le_refl 0) eq_refl eq_refl eq_refl).
Defined.

Lemma range_from_one_step fuel stop step :
  0 < stop → stop ≤ step → 0 < fuel →
  InputPort.range_from fuel 0 stop step = [0].
Proof.
  intros Hs Hle Hf. destruct fuel as [|fuel]; [lia|]. simpl.
  rewrite decide_True by lia. f_equal.
  destruct fuel as [|fuel]; simpl; [done|]. by rewrite decide_False by lia.
Qed.

(** X2: a [BatchArgInputPort] outside the sizes of C5.  On a list payload:
    size 0 raises the [ValueError] of [range] and leaves the node as it
    was; a negative size returns without calling [handle_input]; so does an
    empty payload with any size other than 0; a payload that is not empty
    and not longer than the size goes to [handle_input] whole, in one call.
    A payload without a length raises a [TypeError] and leaves the node as
    it was. *)
Theorem batch_port_odd_sizes (s : Z) (idx : option Z) (data : value) (n : Node) :
  let notify := InputPort.notify Node.handle_input (BatchArgInputPort s idx) data n in
  match data with
  | VList l =>
      (s = 0%Z → notify = (Raise (ValueError "range() arg 3 must not be zero"), n))
      ∧ ((s < 0)%Z → notify = (Ok tt, n))
      ∧ (l = [] → s ≠ 0%Z → notify = (Ok tt, n))
      ∧ ((Z.of_nat (length l) ≤ s)%Z → l ≠ [] →
         notify = Node.handle_input (VList l) idx None n)
  | _ => ∃ msg, notify = (Raise (TypeError msg), n)
  end.
Proof.
  intros notify. subst notify. destruct data as [|z|l]; [by eexists..|].
  cbv [InputPort.notify bind lift]. unfold InputPort.chunks, InputPort.range.
  split_and!.
  - intros ->. by rewrite decide_True.
  - intros Hs. rewrite decide_False by lia. by rewrite decide_True.
  - intros -> Hs. rewrite decide_False by done. simpl. by case_decide.
  - intros Hle Hl. assert (0 < length l) by (destruct l; [done|simpl; lia]).
    rewrite decide_False by lia. rewrite decide_False by lia.
    rewrite range_from_one_step by lia. simpl.
    unfold InputPort.slice. rewrite drop_0, take_ge by lia.
    unfold bind, ret. by destruct (Node.handle_input (VList l) idx None n) as [[[]|e] n'].
Qed.

Lemma batch_port_odd_sizes_witness :
  let payload := VList [VInt 1; VInt 2] in
  InputPort.notify Node.handle_input (BatchArgInputPort 0 (Some 0%Z)) payload batch_node
    = (Raise (ValueError "range() arg 3 must not be zero"), batch_node)
  ∧ InputPort.notify Node.handle_input (BatchArgInputPort (-2) (Some 0%Z)) payload batch_node
    = (Ok tt, batch_node)
  ∧ target_calls
      (trace (InputPort.notify Node.handle_input (BatchArgInputPort 5 (Some 0%Z)) payload
                batch_node).2)
    = [([payload], ∅)].
Proof.
  intros payload.
  destruct (batch_port_odd_sizes 0 (Some 0%Z) payload batch_node) as (H0 & _).
  destruct (batch_port_odd_sizes (-2) (Some 0%Z) payload batch_node) as (_ & Hneg & _).
  destruct (batch_port_odd_sizes 5 (Some 0%Z) payload batch_node) as (_ & _ & _ & Hone).
  split; [exact (H0 eq_refl)|]. split; [apply Hneg; lia|].
  rewrite Hone; [reflexivity|simpl; lia|done].
Defined.

(** ** [handle_input] at the edges *)

(** X3: the index of [handle_input] is a Python list index.  Outside
    [-len .. len-1], [len] the length of the cached reactive vector, the
    assignment raises [IndexError] before anything else happens: the node
    is as it was and the worker is not asked to execute, also through the
    [ArgInputPort] of that index.  A negative index from [-len] counts from
    the end: the event is the one at index [len + i], and that cached value
    is the one overwritten. *)
Theorem handle_input_index_bounds (n : Node) (x : value) (i : Z) :
  let len := Z.of_nat (length (reactive_input_values n)) in
  ((i < - len ∨ len ≤ i)%Z →
     Node.handle_input x (Some i) None n
       = (Raise (IndexError "list assignment index out of range"), n)
     ∧ InputPort.notify Node.handle_input (ArgInputPort (Some i)) x n
       = (Raise (IndexError "list assignment index out of range"), n))
  ∧ ((- len ≤ i < 0)%Z →
     Node.handle_input x (Some i) None n = Node.handle_input x (Some (len + i)%Z) None n
     ∧ ∃ n', Node.handle_input x (Some i) None n = (Ok tt, n')
             ∧ reactive_input_values n'
               = <[Z.to_nat (len + i) := x]> (reactive_input_values n)).
Proof.
  intros len. split.
  - intros Hi. simpl. rewrite handle_input_trigger. unfold list_setitem, py_index.
    rewrite decide_False by (unfold len in Hi; lia).
    by rewrite decide_False by (unfold len in Hi; lia).
  - intros Hi. rewrite !handle_input_trigger. unfold list_setitem, py_index.
    rewrite decide_False by lia. rewrite decide_True by (unfold len in Hi; lia).
    rewrite decide_True by (unfold len in Hi; lia).
    split; [done|]. eexists. split; [done|].
    by rewrite (proj1 (after_execute_inputs _ _ _)).
Qed.

Lemma handle_input_index_bounds_witness :
  Node.handle_input (VInt 3) (Some 2%Z) None two_port_node
    = (Raise (IndexError "list assignment index out of range"), two_port_node)
  ∧ reactive_input_values (Node.handle_input (VInt 3) (Some (-1)%Z) None two_port_node).2
    = [VNone; VInt 3].
Proof.
  destruct (handle_input_index_bounds two_port_node (VInt 3) 2%Z) as [Hout _].
  destruct (handle_input_index_bounds two_port_node (VInt 3) (-1)%Z) as [_ Hneg].
  split; [apply Hout; simpl; lia|].
  destruct Hneg as [_ (n' & Hn & Hv)]; [simpl; lia|].
  rewrite Hn. exact Hv.
Defined.

(** X4: an input event at an index inside the cached vector on a node
    whose worker has not been started.  [handle_input] returns normally and
    the value is cached all the same; the worker's failure (the exception
    of an unstarted [SyncWorker], or the attribute error on the missing
    work queue of an [AsyncWorker]) is only logged: nothing else of the
    node changes, no target is called and no output is notified. *)
Theorem handle_input_unstarted_worker (n : Node) (x : value) (i : Z) :
  unstarted n →
  (0 ≤ i < Z.of_nat (length (reactive_input_values n)))%Z →
  Node.handle_input x (Some i) None n
  = (Ok tt, set_trace (trace n ++ unstarted_log n)
              (set_reactive_input_values (<[Z.to_nat i := x]> (reactive_input_values n)) n))
  ∧ target_calls (unstarted_log n) = []
  ∧ outputs (unstarted_log n) = [].
Proof.
  intros Hu Hi. unfold unstarted, unstarted_log in *. split; [|by destruct (worker n)].
  rewrite handle_input_trigger, list_setitem_in_range by done.
  unfold after_execute, Node.worker_execute. run_m.
  destruct (worker n) as [[t s]|a] eqn:Hw; simpl in *.
  - subst s. by rewrite SyncWorker_execute_unstarted.
  - unfold AsyncWorker.execute. rewrite Hu. by run_m.
Qed.

Lemma handle_input_unstarted_worker_witness :
  let n := async_node double 3 [] in
  (Node.handle_input (VInt 8) (Some 0%Z) None n).1 = Ok tt
  ∧ reactive_input_values (Node.handle_input (VInt 8) (Some 0%Z) None n).2 = [VInt 8]
  ∧ worker (Node.handle_input (VInt 8) (Some 0%Z) None n).2 = worker n
  ∧ trace (Node.handle_input (VInt 8) (Some 0%Z) None n).2
    = [LoggedError "Failed to execute worker: 'NoneType' object has no attribute 'put'";
       LoggedError (format_exc (AttributeError "'NoneType' object has no attribute 'put'"))].
Proof.
  intros n.
  destruct (handle_input_unstarted_worker n (VInt 8) 0%Z) as [-> _];
    [reflexivity|simpl; lia|].
  repeat split.
Defined.

(** ** The life cycle of a synchronous worker *)

(** X5: the life cycle of a synchronous worker.  [start] resolves the work
    target, the target function if there is one, otherwise the [execute]
    of a fresh instance of the target class (whose construction returns),
    and marks the worker started, touching nothing else of the node; with
    neither it raises the [TypeError] of calling [None] and the node is as
    it was.  [stop] puts the worker back to the state it was constructed
    in, and an invocation after [stop] calls no target. *)
Theorem sync_worker_start_stop (n : Node) (w : SyncWorker) :
  worker n = WSync w →
  let resolved (f : callable) :=
    let w1 := {| target := Some f; isStarted := true |} in
    Node.start n = (Ok tt, set_worker (WSync w1) n)
    ∧ SyncWorker.stop w1 (set_worker (WSync w1) n) = (Ok tt, set_worker (WSync SyncWorker.new) n)
    ∧ ∀ args kw,
        target_calls (trace (SyncWorker.execute SyncWorker.new args kw
                               (set_worker (WSync SyncWorker.new) n)).2)
        = target_calls (trace n) in
  match target_func n, target_class n with
  | Some pf, _ => resolved (fn_call pf)
  | None, Some c => resolved (instantiate c (target_class_args n) (target_class_kwargs n))
  | None, None =>
      Node.start n = (Raise (TypeError "'NoneType' object is not callable"), n)
  end.
Proof.
  intros Hw resolved.
  assert (Hres : ∀ f, (Worker._get_target_func n) = (Ok f, n) → resolved f).
  { intros f Hf. unfold resolved. split_and!.
    - unfold Node.start. run_m. rewrite Hw. unfold SyncWorker.start. run_m. by rewrite Hf.
    - done.
    - intros args kw. unfold SyncWorker.new. rewrite SyncWorker_execute_unstarted. simpl.
      rewrite target_calls_app. simpl. by rewrite app_nil_r. }
  destruct (target_func n) as [pf|] eqn:Hf; [|destruct (target_class n) as [c|] eqn:Hc].
  - apply Hres. unfold Worker._get_target_func. run_m. by rewrite Hf.
  - apply Hres. unfold Worker._get_target_func. run_m. by rewrite Hf, Hc.
  - unfold Node.start. run_m. rewrite Hw. unfold SyncWorker.start, Worker._get_target_func.
    run_m. by rewrite Hf, Hc.
Qed.

Lemma sync_worker_start_stop_witness :
  let n := sync_node double in
  Node.start n = (Ok tt, set_worker (WSync (started_sync double)) n)
  ∧ SyncWorker.stop (started_sync double) (set_worker (WSync (started_sync double)) n)
    = (Ok tt, n).
Proof.
  intros n.
  pose proof (sync_worker_start_stop n SyncWorker.new eq_refl) as H. simpl in H.
  destruct H as (H1 & H2 & _). split; [exact H1|exact H2].
Defined.

(** ** The public entries [notify] and [notify_items] *)

Lemma default_ports_lookup k p :
  p < k → default_ports k !! p = Some (ArgInputPort (Some (Z.of_nat p))).
Proof.
  intros Hp. unfold default_ports. change (map ?f ?l) with (f <$> l).
  by rewrite list_lookup_fmap, lookup_seq_lt.
Qed.

Lemma length_default_ports k : length (default_ports k) = k.
Proof. unfold default_ports. by rewrite length_map, length_seq. Qed.

(** X6: [notify] and [notify_items] on a node with the [k] ports the
    constructor makes, for data other than [None].  A port index in
    [0 .. k-1] makes [notify] the input event at that index, and
    [notify_items] one such event per item, in order; a negative index from
    [-k] counts from the last port; any other index raises [IndexError],
    the node as it was, for [notify_items] whatever the list, the empty one
    included. *)
Theorem notify_routes_by_port_index (n : Node) (k : nat) (x : value) (i : Z) :
  reactive_input_ports n = default_ports k →
  x ≠ VNone →
  ((0 ≤ i < Z.of_nat k)%Z →
     Node.notify x i n = Node.handle_input x (Some i) None n
     ∧ ∀ lst, valid_idx (Some i) n →
         Node.notify_items lst i n = (Ok tt, trigger_all (Some i) lst n))
  ∧ ((- Z.of_nat k ≤ i < 0)%Z →
     Node.notify x i n = Node.handle_input x (Some (Z.of_nat k + i)%Z) None n)
  ∧ ((i < - Z.of_nat k ∨ Z.of_nat k ≤ i)%Z →
     Node.notify x i n = (Raise (IndexError "list index out of range"), n)
     ∧ ∀ lst, Node.notify_items lst i n = (Raise (IndexError "list index out of range"), n)).
Proof.
  intros Hports Hx.
  assert (Hnotify : Node.notify x i n =
            match list_getitem (default_ports k) i with
            | Ok port => InputPort.notify Node.handle_input port x n
            | Raise e => (Raise e, n)
            end).
  { unfold Node.notify. destruct x; [done|..]; run_m; rewrite Hports;
      by destruct (list_getitem _ _). }
  assert (Hitems : ∀ lst, Node.notify_items lst i n =
            match list_getitem (default_ports k) i with
            | Ok port => for_each lst (λ d, InputPort.notify Node.handle_input port d) n
            | Raise e => (Raise e, n)
            end).
  { intros lst. unfold Node.notify_items. run_m. rewrite Hports.
    by destruct (list_getitem _ _). }
  unfold list_getitem, py_index in Hnotify, Hitems. rewrite length_default_ports in *.
  split_and!.
  - intros Hi. rewrite decide_True in Hnotify, Hitems by done. simpl in *.
    rewrite default_ports_lookup in Hnotify, Hitems by lia.
    rewrite Z2Nat.id in Hnotify, Hitems by lia. split; [done|].
    intros lst Hv. rewrite Hitems. simpl. by apply for_each_handle_input.
  - intros Hi. rewrite decide_False in Hnotify by lia.
    rewrite decide_True in Hnotify by done. simpl in *.
    rewrite default_ports_lookup in Hnotify by lia.
    by rewrite Z2Nat.id in Hnotify by lia.
  - intros Hi. rewrite decide_False in Hnotify, Hitems by lia.
    rewrite decide_False in Hnotify, Hitems by lia. done.
Qed.

Lemma notify_routes_by_port_index_witness :
  reactive_input_values (Node.notify (VInt 3) 1%Z two_port_node).2 = [VNone; VInt 3]
  ∧ reactive_input_values (Node.notify (VInt 3) (-2)%Z two_port_node).2 = [VInt 3; VNone]
  ∧ Node.notify (VInt 3) 2%Z two_port_node
    = (Raise (IndexError "list index out of range"), two_port_node).
Proof.
  destruct (notify_routes_by_port_index two_port_node 2 (VInt 3) 1%Z eq_refl)
    as ([H1 _] & _ & _); [done|simpl; lia|].
  destruct (notify_routes_by_port_index two_port_node 2 (VInt 3) (-2)%Z eq_refl)
    as (_ & H2 & _); [done|].
  destruct (notify_routes_by_port_index two_port_node 2 (VInt 3) 2%Z eq_refl)
    as (_ & _ & H3); [done|].
  rewrite H1, (H2 ltac:(simpl; lia)). split_and!; [reflexivity..|].
  apply H3. simpl. lia.
Defined.

(** ** Starting a graph *)

Lemma can_resolve_target n :
  can_resolve n → ∃ f, Worker._get_target_func n = (Ok f, n).
Proof.
  unfold Worker._get_target_func. run_m.
  intros [[pf Hf]|[c Hc]].
  - rewrite Hf. by eexists.
  - destruct (target_func n); [by eexists|]. rewrite Hc. by eexists.
Qed.

Lemma node_start_eq n f :
  Worker._get_target_func n = (Ok f, n) →
  Node.start n =
  (Ok tt,
   set_worker
     match worker n with
     | WSync _ => WSync {| target := Some f; isStarted := true |}
     | WAsync a =>
         running (num_threads a) (async_class a)
           (JQ.new (_get_queue_class (async_class a)))
           (JQ.new (_get_queue_class (async_class a)))
           (replicate (num_threads a) (thread None WStart)) RGet
     end n).
Proof.
  intros Hf. unfold Node.start. run_m. destruct (worker n) as [w|a]; [|done].
  unfold SyncWorker.start. run_m. by rewrite Hf.
Qed.

Lemma node_start_just_started n :
  can_resolve n →
  Node.start n = (Ok tt, (Node.start n).2)
  ∧ just_started (Node.start n).2
  ∧ is_async (Node.start n).2 = is_async n
  ∧ trace (Node.start n).2 = trace n.
Proof.
  intros Hr. destruct (can_resolve_target n Hr) as [f Hf].
  rewrite (node_start_eq n f Hf). simpl.
  unfold just_started, is_async. simpl. rewrite target_set_worker, Hf.
  destruct (worker n) as [w|a]; simpl; [done|].
  by split_and!.
Qed.

Lemma start_nodes_all ns :
  Forall can_resolve ns →
  Graph.start_nodes ns = (Ok tt, (λ n, (Node.start n).2) <$> ns).
Proof.
  induction 1 as [|n ns Hn _ IH]; simpl; [done|].
  destruct (node_start_just_started n Hn) as (-> & _). by rewrite IH.
Qed.

(** X7: [Graph.start] on a graph each of whose nodes has a work target, a
    function or a class whose construction returns.
    It returns normally, marks the graph alive and starts every node and
    nothing else: the nodes are those of before, each after its own
    [start], synchronous and asynchronous ones where they were; every
    synchronous worker holds its resolved target, every asynchronous one
    has two empty queues of the class of its backing, one execution worker
    per thread asked for, each about to resolve the target, and its
    result-draining worker waiting on the result queue.  No stop is recorded,
    and a [Graph.stop] that follows never raises, whatever the
    interleaving with the nodes' threads. *)
Theorem graph_start_starts_every_node (g : Graph) :
  Forall can_resolve (nodes g) →
  let g' := (Graph.start g).2 in
  Graph.start g = (Ok tt, g')
  ∧ is_alive g' = true
  ∧ nodes g' = (λ n, (Node.start n).2) <$> nodes g
  ∧ is_async <$> nodes g' = is_async <$> nodes g
  ∧ Forall just_started (nodes g')
  ∧ stops (graph_trace g') = stops (graph_trace g)
  ∧ ∀ sched e, Graph.main (Graph.run sched (stopping g')) ≠ Graph.Raised e.
Proof.
  intros Hall g'.
  assert (Hg : Graph.start g
               = (Ok tt, Graph.set_is_alive true
                           (Graph.set_nodes ((λ n, (Node.start n).2) <$> nodes g)
                              (Graph.log (LoggedInfo ("Graph " +:+ graph_name g +:+ " starting"))
                                 g)))).
  { unfold Graph.start. simpl. by rewrite start_nodes_all. }
  subst g'. rewrite Hg. simpl.
  assert (Hjs : Forall just_started ((λ n, (Node.start n).2) <$> nodes g)).
  { apply Forall_fmap. eapply Forall_impl; [exact Hall|].
    intros n Hn. by destruct (node_start_just_started n Hn) as (_ & ? & _). }
  split_and!; try done.
  - rewrite <- list_fmap_compose. apply Forall_fmap_ext_1.
    eapply Forall_impl; [exact Hall|].
    intros n Hn. simpl. by destruct (node_start_just_started n Hn) as (_ & _ & ? & _).
  - unfold stops. rewrite omap_app. simpl. by rewrite app_nil_r.
  - intros sched e He.
    match type of He with Graph.main (Graph.run _ (stopping ?g1)) = _ => set (g' := g1) in * end.
    assert (Hst : async_started g').
    { intros i n Hi Ha. simpl in Hi.
      pose proof (Forall_lookup_1 _ _ _ _ Hjs Hi) as Hn.
      unfold just_started, is_async in *. destruct (worker n); [done|]. by destruct Hn. }
    pose proof (graph_run_inv g' sched _ (graph_inv_init g' Hst)) as Hinv.
    fold (stopping g') in Hinv. destruct Hinv as (_ & _ & _ & _ & Hnp).
    by rewrite He in Hnp.
Qed.

Lemma graph_start_starts_every_node_witness :
  Graph.start pipeline = (Ok tt, (Graph.start pipeline).2)
  ∧ is_alive (Graph.start pipeline).2 = true
  ∧ Forall just_started (nodes (Graph.start pipeline).2).
Proof.
  destruct (graph_start_starts_every_node pipeline) as (H1 & H2 & _ & _ & H3 & _).
  { simpl. repeat first [apply Forall_nil_2 | apply Forall_cons_2]; left; by eexists. }
  split; [exact H1|]. split; [exact H2|exact H3].
Defined.

(** ** Construction: wiring and failures *)

Lemma register_args_default k i us :
  length us + i ≤ k →
  Node.register_args (default_ports k) i us
  = Ok (imap (λ j u, (u, ArgInputPort (Some (Z.of_nat (i + j))))) us).
Proof.
  revert i. induction us as [|u us IH]; intros i Hle; simpl in *; [done|].
  rewrite default_ports_lookup by lia. rewrite IH by lia. simpl.
  rewrite Nat.add_0_r. do 2 f_equal. apply imap_ext. intros j x _. simpl.
  do 3 f_equal. lia.
Qed.

Lemma register_args_overflow k i us :
  i ≤ k → k < length us + i →
  Node.register_args (default_ports k) i us = Raise (IndexError "list index out of range").
Proof.
  revert i. induction us as [|u us IH]; intros i Hle Hlt; simpl in *; [lia|].
  destruct (default_ports k !! i) as [p|] eqn:Hp; [|done].
  apply lookup_lt_Some in Hp. rewrite length_default_ports in Hp.
  rewrite IH; [done|lia..].
Qed.

(** X8: upstream nodes given positionally to the constructor of a node of
    arity [k] with default ports.  When there are at most [k] of them
    construction succeeds and registers, on the output port of the [j]-th
    upstream node, the [ArgInputPort] of index [j], in the order given and
    nothing else; when there are more than [k], construction raises
    [IndexError] at the first upstream node without a port. *)
Theorem init_registers_upstream_in_order (a : Node.NodeArgs) (k : nat) :
  has_arity a k →
  Node.a_reactive_input_ports a = Node.PortsNone →
  Node.a_node_kwargs a = None →
  (length (upstream_nodes a) ≤ k →
     ∃ n, Node.__init__ a
          = Ok (n, imap (λ j u, (u, ArgInputPort (Some (Z.of_nat j)))) (upstream_nodes a)))
  ∧ (k < length (upstream_nodes a) →
     Node.__init__ a = Raise (IndexError "list index out of range")).
Proof.
  intros Har Hports Hkw.
  assert (Hinfo : ∃ info,
    match Node.a_target_func a, Node.a_target_class a with
    | Some f, None => Ok (fn_info f, num_args (fn_info f))
    | _, Some c => Ok (execute_info c, (num_args (execute_info c) - 1)%Z)
    | None, None => Raise (ValueError "Provide target_func OR target_class")
    end = Ok (info, Z.of_nat k)).
  { unfold has_arity in Har.
    destruct (Node.a_target_func a) as [f|], (Node.a_target_class a) as [c|];
      try done; eexists; f_equal; f_equal; lia. }
  destruct Hinfo as [info Hinfo].
  unfold Node.__init__. rewrite Hinfo, Hports, Hkw. simpl. rewrite Nat2Z.id.
  fold (default_ports k). unfold upstream_nodes.
  split.
  - intros Hle.
    destruct (Node.a_node_args a) as [[u|us]|]; simpl in *.
    + destruct k as [|k]; [lia|]. rewrite default_ports_lookup by lia. simpl.
      by eexists.
    + rewrite register_args_default by lia. simpl. rewrite ?app_nil_r. by eexists.
    + by eexists.
  - intros Hlt.
    destruct (Node.a_node_args a) as [[u|us]|]; simpl in *.
    + assert (k = 0) as -> by lia. done.
    + by rewrite register_args_overflow by lia.
    + lia.
Qed.

Lemma init_registers_upstream_in_order_witness :
  (∃ n, Node.__init__ (wired_args arity_two [7; 4])
        = Ok (n, [(7, ArgInputPort (Some 0%Z)); (4, ArgInputPort (Some 1%Z))]))
  ∧ Node.__init__ (wired_args arity_two [7; 4; 9])
    = Raise (IndexError "list index out of range").
Proof.
  split.
  - destruct (init_registers_upstream_in_order (wired_args arity_two [7; 4]) 2)
      as [H _]; [reflexivity..|].
    apply H. simpl. lia.
  - destruct (init_registers_upstream_in_order (wired_args arity_two [7; 4; 9]) 2)
      as [_ H]; [reflexivity..|].
    apply H. simpl. lia.
Defined.

Lemma foldl_insert_list_to_map {V} (g : string * value → V) (l : list (string * value)) :
  NoDup l.*1 →
  foldl (λ (m : gmap string V) kv, <[kv.1 := g kv]> m) ∅ l
  = list_to_map ((λ kv, (kv.1, g kv)) <$> l).
Proof.
  induction l as [|kv l IH] using rev_ind; intros Hnd; [done|].
  rewrite fmap_app in Hnd. apply NoDup_app in Hnd as (Hnd & Hnot & _).
  rewrite foldl_snoc, fmap_snoc, IH by done.
  rewrite list_to_map_snoc; [done|].
  rewrite <- list_fmap_compose. intros Hin. apply (Hnot kv.1); [|simpl; apply list_elem_of_here].
  by apply Hin.
Qed.

Lemma fmap_pair_eta (l : list (string * value)) :
  (λ kv : string * value, (kv.1, kv.2)) <$> l = l.
Proof. induction l as [|[k v] l IH]; csimpl; [done|]. by rewrite IH. Qed.

Lemma register_kwargs_known (ports : gmap string InputPort) kus :
  Forall (λ ku, ports !! ku.1 = Some (KwargInputPort ku.1)) kus →
  Node.register_kwargs ports kus = Ok ((λ ku, (ku.2, KwargInputPort ku.1)) <$> kus).
Proof.
  induction 1 as [|[key u] kus Hk _ IH]; simpl in *; [done|]. by rewrite Hk, IH.
Qed.

Lemma register_kwargs_unknown (ports : gmap string InputPort) kus :
  Exists (λ ku, ports !! ku.1 = None) kus →
  ∃ key, Node.register_kwargs ports kus = Raise (KeyError key) ∧ ports !! key = None.
Proof.
  induction kus as [|[key u] kus IH]; intros Hex; [by apply Exists_nil in Hex|].
  simpl. destruct (ports !! key) as [p|] eqn:Hp; [|by exists key].
  apply Exists_cons in Hex as [Hex|Hex]; [simpl in Hex; congruence|].
  destruct (IH Hex) as (key' & -> & Hnone). by exists key'.
Qed.

(** X9: what the constructor leaves behind.  Without a target function and
    without a target class it raises [ValueError].  Otherwise every
    construction that succeeds gives one passive port per keyword
    parameter of the target, the [KwargInputPort] of that name, each passive
    value the default of its parameter, a value of [None], an output port
    without observers, a worker that is not started, and a target that
    [start] can resolve. *)
Theorem init_seeds_passive_ports (a : Node.NodeArgs) :
  match target_info_of a with
  | None => Node.__init__ a = Raise (ValueError "Provide target_func OR target_class")
  | Some info =>
      NoDup (kwargs info).*1 →
      ∀ n regs, Node.__init__ a = Ok (n, regs) →
        passive_input_values n = list_to_map (kwargs info)
        ∧ passive_input_ports n
          = list_to_map ((λ kv, (kv.1, KwargInputPort kv.1)) <$> kwargs info)
        ∧ _value n = VNone
        ∧ observers n = []
        ∧ unstarted n
        ∧ can_resolve n
  end.
Proof.
  unfold target_info_of, Node.__init__, can_resolve, unstarted.
  destruct (Node.a_target_func a) as [f|] eqn:Hf, (Node.a_target_class a) as [c|] eqn:Hc;
    simpl; try done.
  all: intros Hnd n regs Hn.
  all: apply rbind_Ok in Hn as (ports & _ & Hn); simpl in Hn.
  all: apply rbind_Ok in Hn as (r1 & _ & Hn).
  all: apply rbind_Ok in Hn as (r2 & _ & Hn).
  all: injection Hn as <- _; simpl.
  all: rewrite !foldl_insert_list_to_map, fmap_pair_eta by done.
  all: split_and!; try done; try (by destruct (Node.a_node_worker_class a) as [[]|]);
    try (right; by eexists); try (left; by eexists).
Qed.

Lemma init_seeds_passive_ports_witness :
  ∃ n, Node.__init__ (plain_args add_func None) = Ok (n, [])
       ∧ passive_input_values n = {["b" := VInt 10]}
       ∧ passive_input_ports n = {["b" := KwargInputPort "b"]}.
Proof.
  pose proof (init_seeds_passive_ports (plain_args add_func None)) as H. simpl in H.
  eexists. split; [reflexivity|].
  destruct (H ltac:(repeat constructor; set_solver) _ _ eq_refl) as (H1 & H2 & _).
  split; [exact H1|exact H2].
Defined.

(** X10: upstream nodes given by keyword to the constructor.  When every
    keyword names a keyword parameter of the target, construction succeeds
    and registers, on the output port of each upstream node, the
    [KwargInputPort] of its keyword, in the order given and nothing else.
    When some keyword does not, construction raises the [KeyError] of a
    keyword that is not a parameter. *)
Theorem init_registers_keyword_upstream (a : Node.NodeArgs) (k : nat) (info : FunctionInfo)
    (kus : list (string * nat)) :
  has_arity a k →
  target_info_of a = Some info →
  NoDup (kwargs info).*1 →
  Node.a_reactive_input_ports a = Node.PortsNone →
  Node.a_node_args a = None →
  Node.a_node_kwargs a = Some kus →
  (Forall (λ ku, ku.1 ∈ (kwargs info).*1) kus →
     ∃ n, Node.__init__ a = Ok (n, (λ ku, (ku.2, KwargInputPort ku.1)) <$> kus))
  ∧ (Exists (λ ku, ku.1 ∉ (kwargs info).*1) kus →
     ∃ key, Node.__init__ a = Raise (KeyError key) ∧ key ∉ (kwargs info).*1).
Proof.
  intros Har Hinfo Hnd Hports Hargs Hkw.
  assert (Hti : match Node.a_target_func a, Node.a_target_class a with
    | Some f, None => Ok (fn_info f, num_args (fn_info f))
    | _, Some c => Ok (execute_info c, (num_args (execute_info c) - 1)%Z)
    | None, None => Raise (ValueError "Provide target_func OR target_class")
    end = Ok (info, Z.of_nat k)).
  { unfold has_arity, target_info_of in *.
    destruct (Node.a_target_func a) as [f|], (Node.a_target_class a) as [c|];
      simplify_eq; try done; f_equal; f_equal; lia. }
  unfold Node.__init__. rewrite Hti, Hports, Hargs, Hkw. simpl.
  rewrite !foldl_insert_list_to_map by done.
  set (ports := list_to_map ((λ kv, (kv.1, KwargInputPort kv.1)) <$> kwargs info)
                  : gmap string InputPort).
  assert (Hin : ∀ key, key ∈ (kwargs info).*1 → ports !! key = Some (KwargInputPort key)).
  { intros key Hkey. apply elem_of_list_to_map_1.
    - rewrite <- list_fmap_compose. exact Hnd.
    - apply list_elem_of_fmap in Hkey as ([key' v] & -> & Hkv).
      apply list_elem_of_fmap. by exists (key', v). }
  assert (Hout : ∀ key, key ∉ (kwargs info).*1 → ports !! key = None).
  { intros key Hkey. apply not_elem_of_list_to_map_1. by rewrite <- list_fmap_compose. }
  split.
  - intros Hall. rewrite (register_kwargs_known ports kus).
    + simpl. by eexists.
    + eapply Forall_impl; [exact Hall|]. intros ku. apply Hin.
  - intros Hex.
    destruct (register_kwargs_unknown ports kus) as (key & -> & Hnone).
    + eapply Exists_impl; [exact Hex|]. intros ku. apply Hout.
    + exists key. split; [done|]. intros Hkey. rewrite (Hin _ Hkey) in Hnone. done.
Qed.

Lemma init_registers_keyword_upstream_witness :
  (∃ n, Node.__init__ (keyword_wired_args add_func [("b", 3)])
        = Ok (n, [(3, KwargInputPort "b")]))
  ∧ ∃ key, Node.__init__ (keyword_wired_args add_func [("c", 3)]) = Raise (KeyError key).
Proof.
  assert (Hnd : NoDup (kwargs (fn_info add_func)).*1) by (repeat constructor; set_solver).
  split.
  - destruct (init_registers_keyword_upstream (keyword_wired_args add_func [("b", 3)]) 1
                (fn_info add_func) [("b", 3)]) as [H _]; [reflexivity|reflexivity|exact Hnd|reflexivity..|].
    apply H. apply Forall_cons_2; [simpl; set_solver|apply Forall_nil_2].
  - destruct (init_registers_keyword_upstream (keyword_wired_args add_func [("c", 3)]) 1
                (fn_info add_func) [("c", 3)]) as [_ H]; [reflexivity|reflexivity|exact Hnd|reflexivity..|].
    destruct H as (key & Hkey & _); [|by exists key].
    apply Exists_cons_hd. simpl. by intros ?%list_elem_of_singleton.
Defined.

(** X11: a single [ArgInputPort] (of any kind) given to the constructor
    instead of a list.  Construction succeeds whatever the arity of the
    target, which is not checked on this path: the node has exactly that
    one port with its index set to 0, and without defaults a cached vector
    of one null. *)
Theorem init_single_port_ignores_arity (a : Node.NodeArgs) (info : FunctionInfo)
    (p : InputPort) :
  target_info_of a = Some info →
  Node.a_reactive_input_ports a = Node.PortsSingle p →
  is_ArgInputPort p = true →
  Node.a_node_args a = None → Node.a_node_kwargs a = None →
  ∃ n, Node.__init__ a = Ok (n, [])
       ∧ reactive_input_ports n = [set_idx 0 p]
       ∧ (Node.a_default_reactive_input_values a = None → reactive_input_values n = [VNone]).
Proof.
  intros Hinfo Hports Hp Hargs Hkw. unfold target_info_of, Node.__init__ in *.
  rewrite Hports, Hargs, Hkw.
  destruct (Node.a_target_func a) as [f|], (Node.a_target_class a) as [c|];
    simplify_eq; simpl; rewrite Hp; simpl; eexists; (split; [done|]); (split; [done|]);
    by intros ->.
Qed.

Lemma init_single_port_ignores_arity_witness :
  ∃ n, Node.__init__ (single_port_args arity_two (BatchArgInputPort 2 None)) = Ok (n, [])
       ∧ reactive_input_ports n = [BatchArgInputPort 2 (Some 0%Z)]
       ∧ reactive_input_values n = [VNone].
Proof.
  destruct (init_single_port_ignores_arity
              (single_port_args arity_two (BatchArgInputPort 2 None))
              (fn_info arity_two) (BatchArgInputPort 2 None)
              eq_refl eq_refl eq_refl eq_refl eq_refl) as (n & H1 & H2 & H3).
  exists n. split; [exact H1|]. split; [exact H2|exact (H3 eq_refl)].
Defined.

(** ** A keyword update followed by a trigger *)

Lemma outputs_fan_out obs r : outputs (fan_out obs r).1 = [].
Proof.
  induction obs as [|o obs IH]; simpl; [done|].
  destruct (observer_notify o r); [|done].
  by destruct (fan_out obs r).
Qed.

(** X12: a keyword update takes effect at the next trigger.  On a started
    synchronous worker, an input event with value [y] on keyword [k] calls
    no target; the reactive event with [x] at index [i] that follows it
    calls the target once, with [x] at [i] in the cached vector and [y] at
    [k] in the passive map.  If that call returns [r] the node's value is
    [r] and the output port is notified of [r], once; if it raises, the
    value is as before and the output port is notified of nothing. *)
Theorem kwarg_update_shows_at_next_trigger (n : Node) (w : SyncWorker) (f : callable)
    (x y : value) (i : Z) (k : string) :
  worker n = WSync w → isStarted w = true → target w = Some f →
  (0 ≤ i < Z.of_nat (length (reactive_input_values n)))%Z →
  let n1 := (Node.handle_input y None (Some k) n).2 in
  let n2 := (Node.handle_input x (Some i) None n1).2 in
  let args := <[Z.to_nat i := x]> (reactive_input_values n) in
  let kw := <[k := y]> (passive_input_values n) in
  target_calls (trace n1) = target_calls (trace n)
  ∧ target_calls (trace n2) = target_calls (trace n) ++ [(args, kw)]
  ∧ match f args kw with
    | Ok r => _value n2 = r ∧ outputs (trace n2) = outputs (trace n) ++ [r]
    | Raise _ => _value n2 = _value n ∧ outputs (trace n2) = outputs (trace n)
    end.
Proof.
  intros Hw Hs Ht Hi n1 n2 args kw. destruct w as [t s]. simpl in *. subst t s.
  unfold n2, n1. fold kw. split; [done|].
  rewrite handle_input_trigger. simpl.
  rewrite list_setitem_in_range by done. fold args. simpl.
  unfold after_execute, Node.worker_execute. run_m. rewrite Hw.
  rewrite SyncWorker_execute_started. simpl.
  destruct (f args kw) as [r|e]; simpl.
  - destruct (fan_out (observers n) r) as [es out] eqn:Hfo. simpl.
    pose proof (target_calls_fan_out (observers n) r) as Htc.
    pose proof (outputs_fan_out (observers n) r) as Ho.
    rewrite Hfo in Htc, Ho. simpl in Htc, Ho.
    unfold outputs, target_calls in *. rewrite !omap_app. csimpl.
    rewrite !omap_app, Htc, Ho. simpl.
    split_and!; [|done|]; by destruct out.
  - unfold outputs, target_calls. rewrite !omap_app. csimpl. by rewrite app_nil_r.
Qed.

Lemma kwarg_update_shows_at_next_trigger_witness :
  let n1 := (Node.handle_input (VInt 5) (Some 0%Z) None add_node).2 in
  let n2 := (Node.handle_input (VInt 3) None (Some "b") n1).2 in
  let n3 := (Node.handle_input (VInt 5) (Some 0%Z) None n2).2 in
  _value n1 = VInt 15
  ∧ _value n3 = VInt 8
  ∧ target_calls (trace n3)
    = [([VInt 5], {["b" := VInt 10]}); ([VInt 5], {["b" := VInt 3]})].
Proof.
  intros n1 n2 n3.
  assert (H1 : _value n1 = VInt 15) by reflexivity.
  split; [exact H1|].
  destruct (kwarg_update_shows_at_next_trigger n1 (started_sync (fn_call add_func))
              (fn_call add_func) (VInt 5) (VInt 3) 0%Z "b" eq_refl eq_refl eq_refl)
    as (_ & Hcalls & Hval).
  { by vm_compute. }
  destruct Hval as [Hv _]. split; [exact Hv|].
  etrans; [exact Hcalls|]. vm_compute. reflexivity.
Defined.

(** ** [join] when every invocation succeeds *)

Lemma submit_all_then_join_cases ps c rest :
  submit_all_then_join ps = c :: rest →
  (∃ p ps', ps = p :: ps' ∧ c = System.Execute p.1 p.2 ∧ rest = submit_all_then_join ps')
  ∨ (ps = [] ∧ c = System.Join ∧ rest = []).
Proof.
  unfold submit_all_then_join. destruct ps as [|p ps]; csimpl; intros H; simplify_eq.
  - by right.
  - left. by eexists _, _.
Qed.

Lemma script_payloads_join ps : script_payloads (submit_all_then_join ps) = ps.
Proof.
  unfold submit_all_then_join, script_payloads. rewrite omap_app. simpl. rewrite app_nil_r.
  induction ps as [|[a k] ps IH]; csimpl; [done|]. by rewrite IH.
Qed.

Lemma before_stop_pending N s :
  stop_protocol N (before_stop s) →
  pills (qitems (work_queue (System.node s))) = 0
  ∧ sum_list_with took_pill (threads (System.node s)) = 0
  ∧ pills (qitems (results_queue (System.node s))) = 0
  ∧ drainer_took_pill (drainer (System.node s)) = 0.
Proof.
  intros [_ _ _ _ Hp Hrp _]. unfold pills_put, result_pills_put, before_stop in *.
  simpl in *. unfold submit_then_stop in *.
  destruct (script_payloads (System.script s)); csimpl in *; lia.
Qed.

Ltac join_arith :=
  unfold queue in *; simpl in *;
  rewrite ?length_insert, ?length_app_one, ?pills_app in *;
  try thread_sums;
  unfold thread, holding, took_pill, pills, drainer_holding, drainer_took_pill in *;
  simpl in *; try lia.

Lemma join_accounts_worker_step f obs v0 all N j n n' m sc :
  worker_step j n n' →
  join_inv f obs v0 all N {| System.node := n; System.main := m; System.script := sc |} →
  join_accounts {| System.node := n'; System.main := m; System.script := sc |}.
Proof.
  intros Hst (Hsp & Hdi & [Hw Hr Hc]).
  pose proof (before_stop_pending _ _ Hsp) as (Hp1 & Hp2 & Hp3 & Hp4).
  destruct Hdi as [Hobs Htgt Hth Hdr Hws Hrs Hnw Hnr Hcons Hsucc Hdel Hdlv Hval].
  clear Hsp Hcons Hdel Hdlv Hval Hws Hrs Hnw Hnr.
  simpl in *.
  destruct Hst; use_worker_eq; old_thread f.
  all: try match goal with
       | Hj : _ !! _ = Some (thread _ (WGotPayload ?args ?kw)), He : _ = Raise _ |- _ =>
           destruct (held_payload_succeeds _ _ _ _ _ _ _ _ _ Hsucc Hj) as (r & Hr' & _);
           simpl in Hr'; congruence
       end.
  all: try congruence.
  all: try (exfalso;
            match goal with
            | Hj : ?ts !! ?j = Some (thread ?tgt WGotPill) |- _ =>
                pose proof (proj1 (threads_sum took_pill ts j _ (thread tgt WGet) Hj))
            end; unfold took_pill, thread in *; simpl in *; lia).
  all: try (exfalso; unfold pills, queue in *; simpl in *; lia).
  all: split; simpl; view.
  all: try (destruct m as [|pc|[]|e]; try done).
  all: join_arith.
  all: destruct Hc as [?|(? & ? & ?)]; [by left|exfalso; try lia].
  all: match goal with
       | Hj : ?ts !! ?j = Some ?t |- _ => pose proof (proj1 (threads_sum holding ts j t t Hj))
       end; unfold holding in *; simpl in *; lia.
Qed.

Lemma join_accounts_result_step f obs v0 all N n n' m sc :
  result_step n n' →
  join_inv f obs v0 all N {| System.node := n; System.main := m; System.script := sc |} →
  join_accounts {| System.node := n'; System.main := m; System.script := sc |}.
Proof.
  intros Hst (Hsp & Hdi & [Hw Hr Hc]).
  pose proof (before_stop_pending _ _ Hsp) as (Hp1 & Hp2 & Hp3 & Hp4).
  destruct Hdi as [Hobs Htgt Hth Hdr Hws Hrs Hnw Hnr Hcons Hsucc Hdel Hdlv Hval].
  clear Hsp Hcons Hdlv Hval Hws Hrs Hnw Hnr.
  simpl in *.
  destruct Hst; use_worker_eq.
  all: try (exfalso; unfold pills, queue, drainer_took_pill in *; simpl in *; lia).
  all: try match goal with
       | H0 : fan_out _ ?r = (_, Raise _) |- _ =>
           exfalso;
           assert (Hacc : accepted obs r)
             by (revert Hdel; rewrite !Forall_app; rewrite Forall_cons; tauto);
           rewrite Hobs, (fan_out_accepted _ _ Hacc) in H0; congruence
       end.
  all: split; simpl; view.
  all: try (destruct m as [|pc|[]|e]; try done).
  all: join_arith.
  all: destruct Hc as [?|(? & ? & ?)]; [by left|exfalso; lia].
Qed.

Lemma join_accounts_main_step f obs v0 all N s s' :
  join_inv f obs v0 all N s → System.step_main s = Some s' →
  join_accounts s'
  ∧ (before_stop s' = before_stop s
     ∨ System.step_main (before_stop s) = Some (before_stop s')).
Proof.
  intros (Hsp & Hdi & [Hw Hr Hc]) Hstep.
  pose proof (sp_started _ _ Hsp) as Hs. destruct s as [n m sc]. simpl in *.
  destruct (started_running_queues n Hs)
    as (N0 & c & qc & items & u & qc' & items' & u' & ts & rpc & Hrun).
  unfold System.step_main in Hstep. simpl in Hstep.
  destruct m as [|pc|[]|e]; try done.
  - destruct Hc as [[ps Hsc]|(-> & _)]; [|done]. subst sc.
    destruct (submit_all_then_join ps) as [|cmd rest] eqn:Hps; [done|].
    apply submit_all_then_join_cases in Hps as [(p & ps' & -> & -> & ->)|(-> & -> & ->)].
    + rewrite (worker_execute_running _ _ _ _ _ _ _ _ _ _ _ Hrun) in Hstep. simplify_eq.
      split.
      * split; simpl; view; [| |by left; exists ps'];
          use_worker_eq; unfold queue in *; simpl in *;
          rewrite ?length_app_one; lia.
      * right. unfold before_stop, System.step_main. simpl.
        by rewrite (worker_execute_running _ _ _ _ _ _ _ _ _ _ _ Hrun).
    + rewrite Hrun in Hstep. unfold running in Hstep. simplify_eq.
      split; [|by left]. by split.
  - subst sc. unfold AsyncWorker.join in Hstep. rewrite Hrun in Hstep.
    unfold running, JQ.joined in Hstep. simpl in Hstep.
    case_bool_decide as Hu; [|done]. simplify_eq. split; [|by left].
    split; simpl; try done. split; [done|]. use_worker_eq. done.
  - destruct Hc as [-> Hu0]. unfold AsyncWorker.join in Hstep. rewrite Hrun in Hstep.
    unfold running, JQ.joined in Hstep. simpl in Hstep.
    case_bool_decide as Hu; [|done]. simplify_eq. split; [|by left].
    split; simpl; try done. right. split_and!; [done..|]. use_worker_eq. done.
Qed.

Lemma join_inv_step f obs v0 all N t s s' :
  join_inv f obs v0 all N s → System.step t s = Some s' → join_inv f obs v0 all N s'.
Proof.
  intros Hinv Hstep. pose proof Hinv as (Hsp & Hdi & Hja).
  destruct t as [|j|]; simpl in Hstep.
  - destruct (join_accounts_main_step _ _ _ _ _ _ _ Hinv Hstep) as [Hja' [Heq|Hmain]].
    + unfold join_inv. by rewrite Heq.
    + split_and!; [|by eapply drain_inv_main_step|done].
      by eapply stop_protocol_main_step.
  - destruct s as [n m sc]. simpl in *.
    destruct (AsyncWorker._worker j n) as [n'|] eqn:Hn; simpl in Hstep; simplify_eq.
    assert (Hws : worker_step j n n') by (apply _worker_step; [by destruct Hsp|done]).
    split_and!.
    + by eapply stop_protocol_worker_step.
    + by eapply drain_inv_worker_step.
    + by eapply join_accounts_worker_step.
  - destruct s as [n m sc]. simpl in *.
    destruct (AsyncWorker._result_handler n) as [n'|] eqn:Hn; simpl in Hstep; simplify_eq.
    assert (Hrs : result_step n n') by (apply _result_handler_step; [by destruct Hsp|done]).
    split_and!.
    + by eapply stop_protocol_result_step.
    + by eapply drain_inv_result_step.
    + by eapply join_accounts_result_step.
Qed.

Lemma join_inv_run f obs v0 all N sched s :
  join_inv f obs v0 all N s → join_inv f obs v0 all N (System.run sched s).
Proof.
  revert s. induction sched as [|t sched IH]; intros s Hinv; simpl; [done|].
  apply IH. destruct (System.step t s) as [s'|] eqn:Hstep; simpl; [|done].
  by eapply join_inv_step.
Qed.

Lemma join_inv_init f n0 a0 ps :
  worker n0 = WAsync a0 →
  (Worker._get_target_func n0).1 = Ok f →
  Forall (succeeds f (observers n0)) ps →
  join_inv f (observers n0) (_value n0) ps (num_threads a0) (joining n0 ps).
Proof.
  intros Hw Hf Hps.
  assert (Hb : before_stop (joining n0 ps) = submitted n0 ps).
  { unfold before_stop, joining, submitted. simpl. by rewrite script_payloads_join. }
  split_and!.
  - rewrite Hb. exact (stop_protocol_init n0 a0 ps Hw).
  - rewrite Hb. exact (drain_inv_init f n0 a0 ps Hw Hf Hps).
  - unfold joining. rewrite (start_async _ _ Hw).
    split; simpl; view.
    + by rewrite sum_replicate.
    + done.
    + left. by exists ps.
Qed.

Lemma holding_thread ts :
  0 < sum_list_with holding ts → ∃ j t, ts !! j = Some t ∧ holding t = 1.
Proof.
  induction ts as [|t ts IH]; simpl; [lia|]. intros Hpos.
  destruct (decide (holding t = 1)) as [Ht|Ht]; [by exists 0, t|].
  assert (holding t = 0) by (unfold holding in *; destruct (wt_pc t); lia).
  destruct IH as (j & t' & Hj & Ht'); [lia|]. by exists (S j), t'.
Qed.

(** While [join] has not returned, some thread can move. *)
Lemma join_inv_progress f obs v0 all N s :
  1 ≤ N → join_inv f obs v0 all N s → ¬ System.returned s →
  ∃ t, is_Some (System.step t s).
Proof.
  intros HN (Hsp & Hdi & [Hw Hr Hc]) Hnr.
  pose proof (before_stop_pending _ _ Hsp) as (Hp1 & Hp2 & Hp3 & Hp4).
  pose proof (sp_started _ _ Hsp) as Hs. pose proof (sp_threads _ _ Hsp) as Hlen.
  pose proof (di_threads _ _ _ _ _ Hdi) as Hth. pose proof (di_drainer _ _ _ _ _ Hdi) as Hdr.
  destruct s as [n m sc]. simpl in *.
  destruct (started_running_queues n Hs)
    as (N0 & c & qc & items & u & qc' & items' & u' & ts & rpc & Hrun).
  destruct m as [|pc|[]|e]; try done.
  - exists System.TMain. simpl. unfold System.step_main. simpl.
    destruct Hc as [[ps ->]|(-> & _)]; [|by destruct Hnr].
    destruct ps as [|[args kw] ps]; csimpl.
    + rewrite Hrun. done.
    + by destruct (Node.worker_execute args kw n) as [[?|?] ?].
  - (* waiting for the work queue *)
    destruct (decide (u = 0)) as [->|Hu].
    { exists System.TMain. simpl. unfold System.step_main, AsyncWorker.join. simpl.
      rewrite Hrun. done. }
    assert (Hcan : ∀ j t, threads n !! j = Some t →
                     (wt_pc t = WGet → qitems (work_queue n) ≠ []) →
                     ∃ t', is_Some (System.step t' {| System.node := n;
                       System.main := System.InJoin AsyncWorker.JoinWorkerQueue;
                       System.script := sc |})).
    { intros j t Hj Hget. exists (System.TWorker j). simpl.
      destruct (worker_can_step n j t Hs Hj) as [n' Hn']; [|done|by rewrite Hn'].
      pose proof (Forall_lookup_1 _ _ _ _ Hth Hj) as Hok.
      pose proof (proj1 (threads_sum took_pill _ j t t Hj)) as Hsum.
      unfold worker_terminated, thread_ok, took_pill in *. destruct (wt_pc t); try done; lia. }
    destruct (decide (0 < sum_list_with holding (threads n))) as [Hh|Hh].
    + destruct (holding_thread _ Hh) as (j & t & Hj & Ht).
      apply (Hcan j t Hj). intros Hget. unfold holding in Ht. by rewrite Hget in Ht.
    + assert (Hne : qitems (work_queue n) ≠ []).
      { intros Hq. rewrite Hq in Hw. use_worker_eq. simpl in *. lia. }
      destruct (threads n) as [|t ts'] eqn:Hts; [simpl in Hlen; lia|].
      by apply (Hcan 0 t).
  - (* waiting for the result queue *)
    destruct (decide (u' = 0)) as [->|Hu].
    { exists System.TMain. simpl. unfold System.step_main, AsyncWorker.join. simpl.
      rewrite Hrun. done. }
    exists System.TResult. simpl.
    destruct (drainer_can_step n Hs) as [n' Hn']; [| |by rewrite Hn'].
    + unfold result_terminated, drainer_ok, drainer_took_pill in *.
      destruct (drainer n); try done; lia.
    + intros Hget Hq. rewrite Hget, Hq in Hr. use_worker_eq. simpl in *. lia.
Qed.

Lemma work_left_join_step f obs v0 all N t s s' :
  join_inv f obs v0 all N s → System.step t s = Some s' → work_left s' < work_left s.
Proof.
  intros (Hsp & Hdi & [Hw Hr Hc]) Hstep.
  pose proof (sp_started _ _ Hsp) as Hs. destruct s as [n m sc]. simpl in *.
  destruct t as [|j|]; simpl in Hstep.
  - destruct (started_running_queues n Hs)
      as (N0 & c & qc & items & u & qc' & items' & u' & ts & rpc & Hrun).
    unfold System.step_main in Hstep. simpl in Hstep.
    destruct m as [|pc|[]|e]; try done.
    + destruct Hc as [[ps Hsc]|(-> & _)]; [|done]. subst sc.
      destruct (submit_all_then_join ps) as [|cmd rest] eqn:Hps; [done|].
      apply submit_all_then_join_cases in Hps as [(p & ps' & -> & -> & ->)|(-> & -> & ->)].
      * rewrite (worker_execute_running _ _ _ _ _ _ _ _ _ _ _ Hrun) in Hstep. simplify_eq.
        weigh.
      * rewrite Hrun in Hstep. unfold running in Hstep. simplify_eq. weigh.
    + subst sc. unfold AsyncWorker.join in Hstep. rewrite Hrun in Hstep.
      unfold running, JQ.joined in Hstep. simpl in Hstep.
      case_bool_decide as Hu; [|done]. simplify_eq. weigh.
    + destruct Hc as [-> Hu0]. unfold AsyncWorker.join in Hstep. rewrite Hrun in Hstep.
      unfold running, JQ.joined in Hstep. simpl in Hstep.
      case_bool_decide as Hu; [|done]. simplify_eq. weigh.
  - destruct (AsyncWorker._worker j n) as [n'|] eqn:Hn; simpl in Hstep; simplify_eq.
    apply work_left_worker_step with j. by apply _worker_step.
  - destruct (AsyncWorker._result_handler n) as [n'|] eqn:Hn; simpl in Hstep; simplify_eq.
    apply work_left_result_step. by apply _result_handler_step.
Qed.

Lemma join_moves_bounded f obs v0 all N sched s :
  join_inv f obs v0 all N s → moves sched s + work_left (System.run sched s) ≤ work_left s.
Proof.
  revert s. induction sched as [|t sched IH]; intros s Hinv; simpl; [done|].
  destruct (System.step t s) as [s'|] eqn:Hstep; simpl; [|by apply IH].
  pose proof (work_left_join_step _ _ _ _ _ _ _ _ Hinv Hstep).
  pose proof (IH s' (join_inv_step _ _ _ _ _ _ _ _ Hinv Hstep)). lia.
Qed.

(** From wherever a run stands, [join] can be brought to return. *)
Lemma join_can_return f obs v0 all N s :
  1 ≤ N → join_inv f obs v0 all N s →
  ∃ sched, System.returned (System.run sched s).
Proof.
  intros HN. remember (work_left s) as k eqn:Hk. revert s Hk.
  induction (lt_wf k) as [k _ IH]. intros s -> Hinv.
  assert (System.returned s ∨ ¬ System.returned s) as [Hret|Hnr].
  { unfold System.returned.
    destruct (System.main s), (System.script s); (by left) || (right; by intros [? ?]). }
  - by exists [].
  - destruct (join_inv_progress _ _ _ _ _ _ HN Hinv Hnr) as (t & s' & Hstep).
    pose proof (work_left_join_step _ _ _ _ _ _ _ _ Hinv Hstep) as Hlt.
    destruct (IH _ Hlt s' eq_refl (join_inv_step _ _ _ _ _ _ _ _ Hinv Hstep))
      as (sched & Hret).
    exists (t :: sched). simpl. by rewrite Hstep.
Qed.

Lemma nothing_held ts :
  sum_list_with holding ts = 0 →
  ts ≫= thread_payloads = [] ∧ ts ≫= thread_results = [].
Proof.
  induction ts as [|t ts IH]; csimpl; [done|]. intros Hsum.
  destruct IH as [-> ->]; [lia|].
  assert (Ht : holding t = 0) by lia.
  unfold holding, thread_payloads, thread_results in *. by destruct (wt_pc t).
Qed.

Lemma nobody_left f ts :
  Forall (thread_ok f) ts → sum_list_with took_pill ts = 0 →
  Forall (λ t, worker_terminated t = false) ts.
Proof.
  induction 1 as [|t ts Ht _ IH]; simpl; [done|]. intros Hsum.
  apply Forall_cons. split; [|apply IH; lia].
  assert (Htp : took_pill t = 0) by lia.
  unfold thread_ok, took_pill, worker_terminated in *. by destruct (wt_pc t).
Qed.

(** X13: [join] when nothing fails.  A node's asynchronous worker with at
    least one execution worker has just been started; its caller submits
    [ps], on each of which the target returns and no observer raises, and
    then calls [join]; [sched] is any interleaving and [s] the state it
    leads to.
    - [join] is never stuck: while it has not returned some thread can
      move, no schedule makes more than [work_left] moves in all, and the
      run can be continued until [join] has returned.
    - Once [join] has returned the output port has been notified of
      exactly the results of [ps], in some order, each notification was
      fanned out to every observer, the node's value is the last result
      delivered, both queues are empty, and the worker is still running:
      no execution worker and not the result-draining worker has
      terminated. *)
Theorem join_returns_with_everything_delivered (n0 : Node) (a0 : AsyncWorker)
    (f : callable) (ps : list (list value * gmap string value)) (sched : list System.tid) :
  worker n0 = WAsync a0 →
  1 ≤ num_threads a0 →
  (Worker._get_target_func n0).1 = Ok f →
  Forall (succeeds f (observers n0)) ps →
  let s := System.run sched (joining n0 ps) in
  (¬ System.returned s → ∃ t, is_Some (System.step t s))
  ∧ moves sched (joining n0 ps) ≤ work_left (joining n0 ps)
  ∧ (∃ rest, System.returned (System.run (sched ++ rest) (joining n0 ps)))
  ∧ (System.returned s →
       outputs (trace (System.node s)) ≡ₚ val_of f <$> ps
       ∧ deliveries (trace (System.node s))
         = full_fan_out (observers n0) (outputs (trace (System.node s)))
       ∧ _value (System.node s) = default (_value n0) (last (outputs (trace (System.node s))))
       ∧ qitems (work_queue (System.node s)) = []
       ∧ qitems (results_queue (System.node s)) = []
       ∧ length (threads (System.node s)) = num_threads a0
       ∧ Forall (λ t, worker_terminated t = false) (threads (System.node s))
       ∧ result_terminated (drainer (System.node s)) = false).
Proof.
  intros Hw HN Hf Hps s.
  pose proof (join_inv_init f n0 a0 ps Hw Hf Hps) as Hinit.
  pose proof (join_inv_run _ _ _ _ _ sched _ Hinit) as Hinv. fold s in Hinv.
  split_and!.
  - by eapply join_inv_progress.
  - pose proof (join_moves_bounded _ _ _ _ _ sched _ Hinit). lia.
  - destruct (join_can_return _ _ _ _ _ _ HN Hinv) as (rest & Hret).
    exists rest. by rewrite run_app.
  - intros [Hmain Hscript]. destruct Hinv as (Hsp & Hdi & [Gw Gr Gc]).
    pose proof (before_stop_pending _ _ Hsp) as (Hp1 & Hp2 & Hp3 & Hp4).
    pose proof (sp_threads _ _ Hsp) as Hlen.
    destruct Hdi as [Hobs Htgt Hth Hdr Hws Hrs Hnw Hnr Hcons Hsucc Hdel Hdlv Hval].
    unfold before_stop in *. simpl in *. rewrite Hmain, Hscript in *.
    destruct Gc as [[ps' Hps']|(_ & Hu & Hu')]; [by destruct ps'|].
    rewrite Hu in Gw. rewrite Hu' in Gr.
    assert (Hq : qitems (work_queue (System.node s)) = [])
      by (apply length_zero_iff_nil; lia).
    assert (Hq' : qitems (results_queue (System.node s)) = [])
      by (apply length_zero_iff_nil; lia).
    destruct (nothing_held (threads (System.node s))) as [Hp Hr]; [lia|].
    assert (Hd : drainer_results (drainer (System.node s)) = []).
    { unfold drainer_holding, drainer_results in *.
      destruct (drainer (System.node s)); try done; lia. }
    rewrite Hq, Hq', Hp, Hr, Hd in Hcons. simpl in Hcons.
    split_and!; try done.
    + by eapply nobody_left.
    + unfold drainer_ok, drainer_took_pill, result_terminated in *.
      by destruct (drainer (System.node s)).
Qed.

Lemma join_returns_with_everything_delivered_witness :
  let n0 := async_node double 2 [quiet_observer 7] in
  let s := System.run (round_robin 30) (joining n0 one_two_three) in
  System.returned s
  ∧ outputs (trace (System.node s)) ≡ₚ [VInt 2; VInt 4; VInt 6]
  ∧ Forall (λ t, worker_terminated t = false) (threads (System.node s)).
Proof.
  intros n0 s.
  assert (Hret : System.returned s) by (split; vm_compute; reflexivity).
  split; [exact Hret|].
  destruct (join_returns_with_everything_delivered n0 (AsyncWorker.new Thread 2) double
              one_two_three (round_robin 30) eq_refl) as (_ & _ & _ & Hdone).
  - simpl. lia.
  - reflexivity.
  - repeat constructor; eexists; (split; [reflexivity|repeat constructor]).
  - destruct (Hdone Hret) as (Ho & _ & _ & _ & _ & _ & Hth & _).
    split; [exact Ho|exact Hth].
Defined.

(** ** One execution worker: results come out in the order of submission *)

Arguments results_of : simpl never.

Lemma results_of_app f ps qs : results_of f (ps ++ qs) = results_of f ps ++ results_of f qs.
Proof. apply omap_app. Qed.

Lemma results_of_cons_ok f args kw r ps :
  f args kw = Ok r → results_of f ((args, kw) :: ps) = r :: results_of f ps.
Proof. intros H. unfold results_of, result_of. csimpl. by rewrite H. Qed.

Lemma results_of_cons_raise f args kw e ps :
  f args kw = Raise e → results_of f ((args, kw) :: ps) = results_of f ps.
Proof. intros H. unfold results_of, result_of. csimpl. by rewrite H. Qed.

Lemma results_of_cons f p ps : results_of f (p :: ps) = results_of f [p] ++ results_of f ps.
Proof. apply (results_of_app f [p] ps). Qed.

Lemma outputs_cons_output r tr : outputs (OutputNotified r :: tr) = r :: outputs tr.
Proof. done. Qed.

Lemma outputs_cons_call a k tr : outputs (TargetCalled a k :: tr) = outputs tr.
Proof. done. Qed.

Lemma outputs_cons_log msg tr : outputs (LoggedError msg :: tr) = outputs tr.
Proof. done. Qed.

Lemma outputs_nil : outputs [] = [].
Proof. done. Qed.

(** The one thread is the one that moves. *)
Ltac the_thread :=
  match goal with
  | Hs : ∃ t, ?ts = [t] ∧ _, Hj : ?ts !! ?j = Some _ |- _ =>
      let t := fresh "t" in let Ht := fresh "Ht" in
      destruct Hs as (t & -> & Ht);
      destruct j as [|?]; [|done]; simpl in Hj; injection Hj as ->; simpl in *
  end.

Lemma target_calls_cons_call a k tr :
  target_calls (TargetCalled a k :: tr) = (a, k) :: target_calls tr.
Proof. done. Qed.

Lemma target_calls_cons_output r tr : target_calls (OutputNotified r :: tr) = target_calls tr.
Proof. done. Qed.

Lemma target_calls_cons_log msg tr : target_calls (LoggedError msg :: tr) = target_calls tr.
Proof. done. Qed.

Lemma target_calls_nil : target_calls [] = [].
Proof. done. Qed.

Ltac fifo_lists :=
  unfold async_failure_log in *;
  repeat first
    [ rewrite target_calls_app | rewrite target_calls_cons_call
    | rewrite target_calls_cons_output | rewrite target_calls_cons_log
    | rewrite target_calls_nil
    | rewrite outputs_app | rewrite outputs_cons_output | rewrite outputs_cons_call
    | rewrite outputs_cons_log | rewrite outputs_nil | rewrite payloads_app
    | rewrite payloads_item | rewrite payloads_pill | rewrite results_of_app ];
  csimpl; rewrite ?app_nil_r, <- ?app_assoc; csimpl.

Lemma fifo_inv_worker_step f all j n n' m sc :
  worker_step j n n' →
  fifo_inv f all {| System.node := n; System.main := m; System.script := sc |} →
  fifo_inv f all {| System.node := n'; System.main := m; System.script := sc |}.
Proof.
  intros Hst [Hs Htgt Hsingle Hord Hcalls]. pose proof (worker_step_started _ _ _ Hst) as Hs'.
  simpl in *.
  destruct Hst; use_worker_eq; the_thread.
  all: split; simpl; view; try done; try frame.
  all: try (eexists; split; [done|]; simpl; destruct Ht; (by left) || (right; congruence));
       try (eexists; split; [done|]; simpl; right; congruence).
  all: try (destruct Ht as [?|Ht]; [done|]; first [injection Ht as -> | done]).
  all: match goal with
       | |- _ = results_of _ _ =>
           rewrite <- Hord;
           first [ erewrite results_of_cons_ok by done
                 | erewrite results_of_cons_raise by done
                 | idtac ]
       | |- _ => rewrite <- Hcalls
       end;
    fifo_lists; done.
Qed.

Lemma fifo_inv_result_step f all n n' m sc :
  result_step n n' →
  fifo_inv f all {| System.node := n; System.main := m; System.script := sc |} →
  fifo_inv f all {| System.node := n'; System.main := m; System.script := sc |}.
Proof.
  intros Hst [Hs Htgt Hsingle Hord Hcalls]. pose proof (result_step_started _ _ Hst) as Hs'.
  simpl in *.
  destruct Hst; use_worker_eq.
  all: split; simpl; view; try done; try frame.
  all: match goal with
       | |- _ = results_of _ _ => rewrite <- Hord
       | |- _ => rewrite <- Hcalls
       end; unfold queue; simpl; fifo_lists; try done.
  all: match goal with
       | H : fan_out ?obs ?r = (?es, _) |- _ =>
           let Ho := fresh in let Hc := fresh in
           pose proof (outputs_fan_out obs r) as Ho; rewrite H in Ho; simpl in Ho;
           pose proof (target_calls_fan_out obs r) as Hc; rewrite H in Hc; simpl in Hc;
           by rewrite ?Ho, ?Hc
       end.
Qed.

Lemma fifo_inv_main_step f all s s' :
  fifo_inv f all s → System.step_main s = Some s' → fifo_inv f all s'.
Proof.
  intros [Hs Htgt Hsingle Hord Hcalls] Hstep. destruct s as [n m sc]. simpl in *.
  destruct (started_running_queues n Hs)
    as (N0 & c & qc & items & u & qc' & items' & u' & ts & rpc & Hrun).
  unfold System.step_main in Hstep. simpl in Hstep.
  destruct m as [|pc|pc|e]; try done.
  - destruct sc as [|[args kw| |] rest]; [done|..].
    + rewrite (worker_execute_running _ _ _ _ _ _ _ _ _ _ _ Hrun) in Hstep.
      injection Hstep as <-.
      use_worker_eq. split; simpl; view; try done; try frame.
      * rewrite <- Hord. rewrite script_payloads_execute. unfold queue. simpl.
        fifo_lists. by rewrite (results_of_cons f (args, kw) (script_payloads rest)).
      * rewrite <- Hcalls. rewrite script_payloads_execute. unfold queue. simpl.
        fifo_lists. done.
    + rewrite Hrun in Hstep. unfold running in Hstep. injection Hstep as <-. by split.
    + rewrite Hrun in Hstep. unfold running in Hstep. injection Hstep as <-. by split.
  - destruct (AsyncWorker.stop pc n) as [[r n']|] eqn:Hstop; [|done].
    destruct (stop_started _ _ _ _ Hs Hstop) as (pc' & -> & Hss).
    pose proof (stop_step_started _ _ _ _ Hs Hss) as Hs'.
    assert (fifo_inv f all
              {| System.node := n'; System.main := System.Idle; System.script := sc |}).
    { destruct Hss; split; simpl; view; use_worker_eq; unfold queue in *; simpl in *;
        try done; try frame.
      all: match goal with
           | |- _ = results_of _ _ => rewrite <- Hord
           | |- _ => rewrite <- Hcalls
           end; fifo_lists; done. }
    destruct pc' as [pc'|]; injection Hstep as <-; by destruct H.
  - destruct (AsyncWorker.join pc n) as [[r n']|] eqn:Hjoin; [|done].
    unfold AsyncWorker.join in Hjoin. rewrite Hrun in Hjoin. unfold running in Hjoin.
    simpl in Hjoin.
    destruct pc; destruct (JQ.joined _); try done; injection Hjoin as <- <-;
      injection Hstep as <-; by split.
Qed.

Lemma fifo_inv_step f all t s s' :
  fifo_inv f all s → System.step t s = Some s' → fifo_inv f all s'.
Proof.
  intros Hinv Hstep. destruct t as [|j|]; simpl in Hstep.
  - by eapply fifo_inv_main_step.
  - destruct s as [n m sc]. simpl in *.
    destruct (AsyncWorker._worker j n) as [n'|] eqn:Hn; simpl in Hstep; [|done].
    injection Hstep as <-.
    eapply fifo_inv_worker_step; [|done].
    apply _worker_step; [by destruct Hinv|done].
  - destruct s as [n m sc]. simpl in *.
    destruct (AsyncWorker._result_handler n) as [n'|] eqn:Hn; simpl in Hstep; [|done].
    injection Hstep as <-.
    eapply fifo_inv_result_step; [|done].
    apply _result_handler_step; [by destruct Hinv|done].
Qed.

Lemma fifo_inv_run f all sched s :
  fifo_inv f all s → fifo_inv f all (System.run sched s).
Proof.
  revert s. induction sched as [|t sched IH]; intros s Hinv; simpl; [done|].
  apply IH. destruct (System.step t s) as [s'|] eqn:Hstep; simpl; [|done].
  by eapply fifo_inv_step.
Qed.

Lemma fifo_inv_init f n0 a0 script :
  worker n0 = WAsync a0 → num_threads a0 = 1 →
  (Worker._get_target_func n0).1 = Ok f →
  fifo_inv f (script_payloads script) (scripted n0 script).
Proof.
  intros Hw HN Hf. unfold scripted. rewrite (start_async _ _ Hw), HN.
  split; simpl; view.
  - unfold started. simpl. by eauto.
  - by rewrite target_set_trace, target_set_worker.
  - eexists. split; [done|]. by left.
  - done.
  - done.
Qed.

(** X14: a worker with one execution worker keeps the order of submission.
    Whatever its caller does after [start] (any sequence of [execute],
    [stop] and [join]) and whatever the interleaving, in every state
    reached the target has been called on an initial part of the submitted
    invocations, in the order of submission, and the output port has been
    notified of an initial part of their results, in that order, the
    invocations on which the target raises left out. *)
Theorem single_worker_keeps_submission_order (n0 : Node) (a0 : AsyncWorker) (f : callable)
    (script : list System.command) (sched : list System.tid) :
  worker n0 = WAsync a0 →
  num_threads a0 = 1 →
  (Worker._get_target_func n0).1 = Ok f →
  let s := System.run sched (scripted n0 script) in
  target_calls (trace (System.node s)) `prefix_of` script_payloads script
  ∧ outputs (trace (System.node s)) `prefix_of` results_of f (script_payloads script).
Proof.
  intros Hw HN Hf s.
  pose proof (fifo_inv_run f _ sched _ (fifo_inv_init f n0 a0 script Hw HN Hf)) as Hinv.
  fold s in Hinv. destruct Hinv as [_ _ _ Hord Hcalls]. split.
  - eexists. symmetry. exact Hcalls.
  - eexists. symmetry. exact Hord.
Qed.

Lemma single_worker_keeps_submission_order_witness :
  let s := System.run (worker_first 12)
             (scripted (async_node reciprocal_scale 1 [])
                [System.Execute [VInt 4] ∅; System.Execute [VInt 0] ∅;
                 System.Execute [VInt 5] ∅; System.Stop]) in
  outputs (trace (System.node s)) = [VInt 25; VInt 20]
  ∧ target_calls (trace (System.node s)) = [([VInt 4], ∅); ([VInt 0], ∅); ([VInt 5], ∅)]
  ∧ outputs (trace (System.node s))
    `prefix_of` results_of reciprocal_scale
                  [([VInt 4], ∅); ([VInt 0], ∅); ([VInt 5], ∅)].
Proof.
  intros s. split; [by vm_compute|]. split; [by vm_compute|].
  destruct (single_worker_keeps_submission_order (async_node reciprocal_scale 1 [])
              (AsyncWorker.new Thread 1) reciprocal_scale
              [System.Execute [VInt 4] ∅; System.Execute [VInt 0] ∅;
               System.Execute [VInt 5] ∅; System.Stop]
              (worker_first 12) eq_refl eq_refl eq_refl) as [_ H].
  exact H.
Defined.

(** ** [stop] when some invocations fail *)

Global Instance results_of_Permutation f : Proper ((≡ₚ) ==> (≡ₚ)) (results_of f).
Proof. intros l1 l2 Hl. unfold results_of. by rewrite Hl. Qed.

Lemma target_calls_observers obs r :
  target_calls ((λ o, ObserverNotified (observer_id o) r) <$> obs) = [].
Proof. unfold target_calls. induction obs as [|o obs IH]; csimpl; [done|]. by rewrite IH. Qed.

Lemma held_payload_deliverable f obs A B ts j tgt args kw :
  Forall (deliverable f obs) (A ++ B ++ (ts ≫= thread_payloads)) →
  ts !! j = Some (thread tgt (WGotPayload args kw)) →
  deliverable f obs (args, kw).
Proof.
  rewrite !Forall_app. intros (_ & _ & H) Hj.
  destruct (threads_bind thread_payloads ts j _ (thread tgt WGet) Hj) as [Hp _].
  rewrite Hp in H. simpl in H. by apply Forall_cons in H as [H _].
Qed.

Ltac flow_lists :=
  unfold async_failure_log in *;
  repeat first
    [ rewrite results_of_app | rewrite payloads_app
    | rewrite payloads_item | rewrite payloads_pill | rewrite outputs_app
    | rewrite outputs_cons_output | rewrite outputs_cons_call | rewrite outputs_cons_log
    | rewrite outputs_nil | rewrite outputs_observers
    | rewrite target_calls_app | rewrite target_calls_cons_call
    | rewrite target_calls_cons_output | rewrite target_calls_cons_log
    | rewrite target_calls_nil | rewrite target_calls_observers
    | match goal with
      | |- context [results_of ?f (?p :: ?l)] =>
          lazymatch l with
          | [] => fail
          | _ => rewrite (results_of_cons f p l)
          end
      end ];
  simpl; rewrite ?app_nil_r.

Ltac flow_conserved H := split_threads; rewrite <- H; flow_lists; solve_Permutation.

Ltac flow_forall H :=
  split_threads; revert H; flow_lists;
  repeat first [rewrite Forall_app | rewrite Forall_cons | rewrite Forall_nil]; tauto.

Ltac flow_frame :=
  first
    [ done
    | by rewrite ?target_set_worker, ?target_set_trace, ?target_set__value
    | by rewrite ?outputs_app, ?deliveries_app; flow_lists; simpl; rewrite ?app_nil_r ].

Lemma flow_inv_worker_step f obs v0 all N j n n' m sc :
  worker_step j n n' →
  stop_protocol N {| System.node := n; System.main := m; System.script := sc |} →
  flow_inv f obs v0 all {| System.node := n; System.main := m; System.script := sc |} →
  flow_inv f obs v0 all {| System.node := n'; System.main := m; System.script := sc |}.
Proof.
  intros Hst [Gs Glen Gwu Gru Gp Grp Gc]
    [Hobs Htgt Hth Hdr Hws Hrs Hnw Hnr Hcons Hcalled Hsucc Hdel Hdlv Hval].
  pose proof (λ j t, result_pill_after_join N _ j t Gc) as Hjoined.
  simpl in *.
  destruct Hst; use_worker_eq; old_thread f.
  - (* start *)
    assert (f0 = f) as -> by congruence.
    split; simpl; view; try flow_frame.
    + new_thread_ok.
    + pill_takers.
    + flow_conserved Hcons.
    + flow_conserved Hcalled.
    + flow_forall Hsucc.
    + flow_forall Hdel.
  - (* start, target not resolved *)
    congruence.
  - (* a pill is taken *)
    split; simpl; view; try flow_frame.
    + new_thread_ok.
    + by apply (pills_last_tail PoisonPill).
    + flow_conserved Hcons.
    + flow_conserved Hcalled.
    + flow_forall Hsucc.
    + flow_forall Hdel.
  - (* a payload is taken *)
    assert (Hz : sum_list_with took_pill ts = 0).
    { destruct (sum_list_with took_pill ts) eqn:Hs; [done|].
      specialize (Hnw ltac:(lia)). done. }
    split; simpl; view; try flow_frame.
    + new_thread_ok.
    + pill_takers.
    + flow_conserved Hcons.
    + flow_conserved Hcalled.
    + flow_forall Hsucc.
    + flow_forall Hdel.
  - (* the pill is acknowledged *)
    split; simpl; view; try flow_frame.
    + new_thread_ok.
    + pill_takers.
    + flow_conserved Hcons.
    + flow_conserved Hcalled.
    + flow_forall Hsucc.
    + flow_forall Hdel.
  - (* acknowledging with nothing unfinished *)
    nothing_unfinished.
  - (* the target returns *)
    assert (f0 = f) as -> by congruence.
    pose proof (held_payload_deliverable _ _ _ _ _ _ _ _ _ Hsucc H0 r H1) as Hacc.
    split; simpl; view; try flow_frame.
    + new_thread_ok.
    + pill_takers.
    + split_threads. rewrite <- Hcons. flow_lists.
      rewrite (results_of_cons_ok f args kw r) by done. solve_Permutation.
    + flow_conserved Hcalled.
    + flow_forall Hsucc.
    + split_threads. revert Hdel. flow_lists.
      repeat first [rewrite Forall_app | rewrite Forall_cons | rewrite Forall_nil]. tauto.
  - (* the target raises *)
    assert (f0 = f) as -> by congruence.
    split; simpl; view; try flow_frame.
    + new_thread_ok.
    + pill_takers.
    + split_threads. rewrite <- Hcons. flow_lists.
      rewrite (results_of_cons_raise f args kw e) by done. solve_Permutation.
    + flow_conserved Hcalled.
    + flow_forall Hsucc.
    + flow_forall Hdel.
  - (* no target *)
    done.
  - (* the result is put *)
    assert (Hrp0 : result_pills_put {| System.node := n; System.main := m; System.script := sc |} = 0).
    { destruct (result_pills_put _) eqn:Hrp; [done|].
      by specialize (Hjoined _ _ ltac:(done) H0). }
    rewrite Hrp0 in Grp. unfold queue in *. simpl in *.
    split; simpl; view; try flow_frame.
    + new_thread_ok.
    + apply pills_last_put_item. lia.
    + pill_takers.
    + intros Hpos. lia.
    + flow_conserved Hcons.
    + flow_conserved Hcalled.
    + flow_forall Hsucc.
    + flow_forall Hdel.
  - (* the item is acknowledged *)
    split; simpl; view; try flow_frame.
    + new_thread_ok.
    + pill_takers.
    + flow_conserved Hcons.
    + flow_conserved Hcalled.
    + flow_forall Hsucc.
    + flow_forall Hdel.
  - (* acknowledging with nothing unfinished *)
    nothing_unfinished.
Qed.

Ltac flow_conserved_here H := rewrite <- H; flow_lists; solve_Permutation.

Ltac flow_forall_here H :=
  revert H; flow_lists;
  repeat first [rewrite Forall_app | rewrite Forall_cons | rewrite Forall_nil]; tauto.

Lemma flow_inv_result_step f obs v0 all N n n' m sc :
  result_step n n' →
  stop_protocol N {| System.node := n; System.main := m; System.script := sc |} →
  flow_inv f obs v0 all {| System.node := n; System.main := m; System.script := sc |} →
  flow_inv f obs v0 all {| System.node := n'; System.main := m; System.script := sc |}.
Proof.
  intros Hst [Gs Glen Gwu Gru Gp Grp Gc]
    [Hobs Htgt Hth Hdr Hws Hrs Hnw Hnr Hcons Hcalled Hsucc Hdel Hdlv Hval].
  simpl in *.
  destruct Hst; use_worker_eq; unfold queue in *; simpl in *.
  - (* the pill is taken *)
    split; simpl; view; try flow_frame.
    by apply pills_last_no_payloads.
  - (* a result is taken *)
    split; simpl; view; try flow_frame.
    + intros Hpos. lia.
    + flow_conserved_here Hcons.
    + flow_forall_here Hdel.
  - (* the pill is acknowledged *)
    split; simpl; view; try flow_frame.
  - (* acknowledging with nothing unfinished *)
    exfalso. lia.
  - (* the result is handled *)
    assert (Hacc : accepted obs r).
    { revert Hdel. rewrite !Forall_app. rewrite Forall_cons. tauto. }
    rewrite Hobs, (fan_out_accepted _ _ Hacc) in H0. simplify_eq.
    split; simpl; view; try flow_frame.
    + flow_conserved_here Hcons.
    + flow_forall_here Hdel.
    + rewrite deliveries_app, outputs_app, full_fan_out_app, Hdlv.
      f_equal. change (deliveries (?e :: ?l)) with (e :: deliveries l).
      rewrite deliveries_observers.
      change (outputs (OutputNotified r :: ?l)) with (r :: outputs l).
      rewrite outputs_observers. unfold full_fan_out. simpl. by rewrite app_nil_r.
    + rewrite outputs_app.
      change (outputs (OutputNotified r :: ?l)) with (r :: outputs l).
      rewrite outputs_observers. by rewrite last_outputs_snoc.
  - (* an observer raises *)
    exfalso.
    assert (Hacc : accepted obs r).
    { revert Hdel. rewrite !Forall_app. rewrite Forall_cons. tauto. }
    rewrite Hobs, (fan_out_accepted _ _ Hacc) in H0. congruence.
  - (* the result is acknowledged *)
    split; simpl; view; try flow_frame.
  - (* acknowledging with nothing unfinished *)
    exfalso. lia.
Qed.

Lemma flow_inv_main_step f obs v0 all N s s' :
  stop_protocol N s → flow_inv f obs v0 all s →
  System.step_main s = Some s' → flow_inv f obs v0 all s'.
Proof.
  intros [Gs Glen Gwu Gru Gp Grp Gc]
    [Hobs Htgt Hth Hdr Hws Hrs Hnw Hnr Hcons Hcalled Hsucc Hdel Hdlv Hval] Hstep.
  destruct s as [n m sc]. simpl in *.
  unfold System.step_main in Hstep. unfold caller_progress in Gc. simpl in Hstep, Gc.
  destruct m as [|pc|pc|e]; try done.
  - (* between calls *)
    destruct Gc as [[ps Hsc]|[Hsc _]]; [|by rewrite Hsc in Hstep].
    destruct sc as [|cmd rest]; [done|].
    destruct (started_running_queues n Gs)
      as (N0 & c & qc & items & u & qc' & items' & u' & ts & rpc & Hw).
    symmetry in Hsc. apply submit_then_stop_cases in Hsc
      as [(p & ps' & -> & -> & ->)|(-> & -> & ->)].
    + rewrite (worker_execute_running _ _ _ _ _ _ _ _ _ _ _ Hw) in Hstep.
      injection Hstep as <-.
      assert (Hne : ∃ c0 r0, submit_then_stop ps' = c0 :: r0).
      { unfold submit_then_stop. destruct ps'; csimpl; by eexists _, _. }
      destruct Hne as (c0 & r0 & Hne).
      unfold pills_put in Gp. simpl in Gp.
      destruct p as [a k]. use_worker_eq. unfold queue in *. simpl in *.
      rewrite ?script_payloads_execute in *.
      split; simpl; view; try flow_frame.
      * apply pills_last_put_item. lia.
      * intros Hpos. lia.
      * flow_conserved_here Hcons.
      * flow_conserved_here Hcalled.
      * flow_forall_here Hsucc.
    + rewrite Hw in Hstep. unfold running in Hstep. injection Hstep as <-.
      split; simpl; view; try flow_frame.
  - (* inside stop *)
    destruct (AsyncWorker.stop pc n) as [[r n']|] eqn:Hstop; [|done].
    destruct (stop_started _ _ _ _ Gs Hstop) as (pc' & -> & Hss).
    destruct Gc as (-> & Hj & Hk).
    assert (flow_inv f obs v0 all
              {| System.node := n'; System.main := System.Idle; System.script := [] |}).
    { destruct Hss; split; simpl; view; use_worker_eq; unfold queue in *; simpl in *;
        try flow_frame.
      all: first
        [ by apply pills_last_put_pill
        | by (intros Hpos; rewrite payloads_app, Hnw by done)
        | by (intros Hpos; rewrite payloads_app, Hnr by done)
        | flow_conserved_here Hcons
        | flow_conserved_here Hcalled
        | flow_forall_here Hsucc
        | flow_forall_here Hdel ]. }
    destruct pc' as [pc'|]; injection Hstep as <-; by destruct H.
Qed.

Lemma flow_inv_init f n0 a0 ps :
  worker n0 = WAsync a0 →
  (Worker._get_target_func n0).1 = Ok f →
  Forall (deliverable f (observers n0)) ps →
  flow_inv f (observers n0) (_value n0) ps (submitted n0 ps).
Proof.
  intros Hw Hf Hps. unfold submitted. rewrite (start_async _ _ Hw).
  split; simpl; view; rewrite ?script_payloads_submit;
    rewrite ?bind_replicate by done; rewrite ?app_nil_r; try done.
  - by rewrite target_set_trace, target_set_worker.
  - by apply Forall_replicate.
Qed.

Lemma flow_inv_step f obs v0 all N t s s' :
  stop_protocol N s → flow_inv f obs v0 all s →
  System.step t s = Some s' → flow_inv f obs v0 all s'.
Proof.
  intros Hsp Hinv Hstep. destruct t as [|j|]; simpl in Hstep.
  - by eapply flow_inv_main_step.
  - destruct s as [n m sc]. simpl in *.
    destruct (AsyncWorker._worker j n) as [n'|] eqn:Hn; simpl in Hstep; [|done].
    injection Hstep as <-.
    eapply flow_inv_worker_step; [|done..].
    apply _worker_step; [|done]. by destruct Hsp.
  - destruct s as [n m sc]. simpl in *.
    destruct (AsyncWorker._result_handler n) as [n'|] eqn:Hn; simpl in Hstep; [|done].
    injection Hstep as <-.
    eapply flow_inv_result_step; [|done..].
    apply _result_handler_step; [|done]. by destruct Hsp.
Qed.

Lemma flow_inv_run f obs v0 all N sched s :
  stop_protocol N s → flow_inv f obs v0 all s →
  flow_inv f obs v0 all (System.run sched s).
Proof.
  revert s. induction sched as [|t sched IH]; intros s Hsp Hinv; simpl; [done|].
  destruct (System.step t s) as [s'|] eqn:Hstep; simpl; [|by apply IH].
  apply IH; [by eapply stop_protocol_step|by eapply flow_inv_step].
Qed.

(** X15: [stop] when invocations may fail.  A node's asynchronous worker
    with at least one execution worker has just been started; its caller
    submits [ps] and then calls [stop]; the target may raise on any of
    them; no observer raises on a result the target returns; [sched] is
    any interleaving and [s] the state it leads to.  The run can be
    continued until [stop] has returned, and once it has:
    - the target has been called on every submitted invocation, once;
    - the output port has been notified of exactly the results of the
      invocations on which the target returned, once each: a failed
      invocation is dropped and costs no other invocation its result;
    - with a single execution worker, calls and results are in the order
      of submission;
    - each notification was fanned out to every observer, and the node's
      value is the last result delivered. *)
Theorem stop_delivers_what_succeeded (n0 : Node) (a0 : AsyncWorker) (f : callable)
    (ps : list (list value * gmap string value)) (sched : list System.tid) :
  worker n0 = WAsync a0 →
  1 ≤ num_threads a0 →
  (Worker._get_target_func n0).1 = Ok f →
  Forall (deliverable f (observers n0)) ps →
  let s := System.run sched (submitted n0 ps) in
  (∃ rest, System.returned (System.run (sched ++ rest) (submitted n0 ps)))
  ∧ (System.returned s →
       target_calls (trace (System.node s)) ≡ₚ ps
       ∧ outputs (trace (System.node s)) ≡ₚ results_of f ps
       ∧ (num_threads a0 = 1 →
          target_calls (trace (System.node s)) = ps
          ∧ outputs (trace (System.node s)) = results_of f ps)
       ∧ deliveries (trace (System.node s))
         = full_fan_out (observers n0) (outputs (trace (System.node s)))
       ∧ _value (System.node s) = default (_value n0) (last (outputs (trace (System.node s))))).
Proof.
  intros Hw HN Hf Hps s.
  pose proof (stop_protocol_run _ sched _ (stop_protocol_init n0 a0 ps Hw)) as Hsp.
  pose proof (flow_inv_run f _ _ _ _ sched _ (stop_protocol_init n0 a0 ps Hw)
                (flow_inv_init f n0 a0 ps Hw Hf Hps)) as Hfl.
  fold s in Hsp, Hfl. split.
  { destruct (stop_can_return _ _ Hsp) as (rest & Hret & _).
    exists rest. by rewrite run_app. }
  intros [Hmain Hscript].
  assert (Hperm : target_calls (trace (System.node s)) ≡ₚ ps
                  ∧ outputs (trace (System.node s)) ≡ₚ results_of f ps
                  ∧ deliveries (trace (System.node s))
                    = full_fan_out (observers n0) (outputs (trace (System.node s)))
                  ∧ _value (System.node s)
                    = default (_value n0) (last (outputs (trace (System.node s))))).
  { destruct Hsp as [Gs Glen Gwu Gru Gp Grp Gc].
    destruct Hfl as [Hobs Htgt Hth Hdr Hws Hrs Hnw Hnr Hcons Hcalled Hsucc Hdel Hdlv Hval].
    unfold caller_progress, pills_put, result_pills_put in *.
    rewrite Hmain, Hscript in *.
    destruct Gc as [[ps' Hps']|[_ [Hall Hdrained]]]; [by destruct ps'|].
    destruct (all_exited f _ Hth Hall) as (Hp & Hr & Htook).
    rewrite Hp, Hr in Hcons. rewrite Hp in Hcalled. rewrite Htook, Glen in Hnw.
    rewrite Hnw in Hcons, Hcalled by lia.
    assert (Hex : drainer (System.node s) = RExited).
    { unfold drainer_ok, result_terminated in *. by destruct (drainer (System.node s)). }
    rewrite Hex in *. rewrite Hnr in Hcons by (simpl; lia).
    simpl in Hcons, Hcalled. by split_and!. }
  destruct Hperm as (Hcalls & Houts & Hdlv & Hval).
  split_and!; try done.
  intros H1.
  pose proof (fifo_inv_run f _ sched _
                (fifo_inv_init f n0 a0 (submit_then_stop ps) Hw H1 Hf)) as Hff.
  change (scripted n0 (submit_then_stop ps)) with (submitted n0 ps) in Hff. fold s in Hff.
  rewrite script_payloads_submit in Hff. destruct Hff as [_ _ _ Hord Hcl].
  split.
  - apply prefix_length_eq; [eexists; symmetry; exact Hcl|]. by rewrite Hcalls.
  - apply prefix_length_eq; [eexists; symmetry; exact Hord|]. by rewrite Houts.
Qed.

Lemma stop_delivers_what_succeeded_witness :
  let n0 := async_node reciprocal_scale 2 [quiet_observer 7] in
  let ps := [([VInt 4], ∅); ([VInt 0], ∅); ([VInt 5], ∅)] in
  let s := System.run (round_robin 30) (submitted n0 ps) in
  System.returned s
  ∧ target_calls (trace (System.node s)) ≡ₚ ps
  ∧ outputs (trace (System.node s)) ≡ₚ [VInt 25; VInt 20].
Proof.
  intros n0 ps s.
  assert (Hret : System.returned s) by (split; vm_compute; reflexivity).
  split; [exact Hret|].
  destruct (stop_delivers_what_succeeded n0 (AsyncWorker.new Thread 2) reciprocal_scale
              ps (round_robin 30) eq_refl) as (_ & Hdone).
  - simpl. lia.
  - reflexivity.
  - repeat (apply Forall_cons_2 || apply Forall_nil_2); intros r Hr; repeat constructor.
  - destruct (Hdone Hret) as (Hc & Ho & _). split; [exact Hc|exact Ho].
Defined.
